(** * gosw: version identity, release catalog and install registry

    A shallow embedding of the Go packages [env] (version.go, releases.go,
    env.go, install.go) of kechako/gosw, and the properties its design
    specification states about them.

    Conventions.
    - Go's [int] is modelled as [Z]; the only place where its width matters is
      [strconv.Atoi], which reports a range error above [max_int] (64-bit).
    - Go strings are byte strings; they are modelled as [string].  The version
      grammar only mentions ASCII characters.
    - A function returning [(T, error)] returns [result T]; a method that
      mutates the receiver or touches the file system or the network is a
      computation in the monad [M] over [State] (the [Env] object and the
      outside [World]).
    - The file system is a finite map from paths to nodes (directory, file,
      symbolic link); its operations fail only for the reasons the map shows
      (something is there, nothing is there), never for permissions or
      hardware.  A relative path is read from the working directory, the
      target of a symbolic link from the directory that holds the link.
    - [filepath.Glob] is embedded for an install root without pattern
      characters; what it answers for a root that is itself a pattern is a
      parameter of start-up ([Glob_meta]), its error path included.

    The file has three parts: the model (the code), the vocabulary of the
    properties, and the proofs. *)

From Stdlib Require Import ZArith String Ascii List Lia Bool Permutation Sorted.
From Stdlib Require Import DecimalString DecimalPos DecimalN DecimalZ.
From stdpp Require Import gmap strings list fin_maps.
Import ListNotations.

Local Open Scope string_scope.
Local Open Scope Z_scope.

(* ===================================================================== *)
(** ** Errors *)
(* ===================================================================== *)

(** The sentinel error values of the package, and the errors made on the spot
    with [errors.New] or [fmt.Errorf] (identified by their message prefix). *)
Inductive error : Type :=
| ErrVersionSyntax               (* "invalid version syntax" *)
| ErrReleasesFileNotDownloaded   (* "releases file is not found" *)
| ErrorNew (msg : string).

Inductive result (A : Type) : Type :=
| Ok (a : A)
| Err (e : error).
Arguments Ok {A} a.
Arguments Err {A} e.

(* ===================================================================== *)
(** ** The pieces of the Go standard library the package calls *)
(* ===================================================================== *)

Module Go.

(** [strings.HasPrefix] / [strings.TrimPrefix]. *)
Fixpoint cut_prefix (p s : string) : option string :=
  match p, s with
  | EmptyString, _ => Some s
  | String a p', String b s' => if Ascii.eqb a b then cut_prefix p' s' else None
  | String _ _, EmptyString => None
  end.

Definition TrimPrefix (s prefix : string) : string :=
  match cut_prefix prefix s with
  | Some rest => rest
  | None => s
  end.

(** The character class [[0-9]]. *)
Definition is_digit (c : ascii) : bool :=
  let n := N_of_ascii c in ((48 <=? n) && (n <=? 57))%N.

Definition digit_val (c : ascii) : Z := Z.of_N (N_of_ascii c) - 48.

(** Largest value of Go's [int] on a 64-bit target. *)
Definition max_int : Z := 2 ^ 63 - 1.

(** [strconv.Atoi] on an unsigned decimal numeral: the digits are folded
    left to right ([n = n*10 + d]); an empty string or a character that is
    not a digit is a syntax error and a value above [max_int] a range
    error; both are [None] here, the caller only tests [err != nil].  (Atoi
    also accepts a sign; the regular expression never hands it one.) *)
Fixpoint atoi_loop (n : Z) (s : string) : option Z :=
  match s with
  | EmptyString => Some n
  | String c s' => if is_digit c then atoi_loop (n * 10 + digit_val c) s' else None
  end.

Definition Atoi (s : string) : option Z :=
  match s with
  | EmptyString => None
  | _ => match atoi_loop 0 s with
         | Some n => if n <=? max_int then Some n else None
         | None => None
         end
  end.

(** [fmt.Sprintf("%d", n)]: the decimal numeral of [n], with a minus sign
    when negative. *)
Definition itoa (n : Z) : string := NilEmpty.string_of_int (Z.to_int n).

(** [sort.Slice(xs, less)]: the input reordered so that no element is
    [less] than one before it.  The library's algorithm is not stable; this
    model is an insertion sort, which agrees with every correct sort
    whenever no two elements tie under [less] ([strictly_sorted_unique]). *)
Section Sort.
Context {A : Type} (less : A -> A -> bool).

Fixpoint sort_insert (x : A) (l : list A) : list A :=
  match l with
  | [] => [x]
  | y :: l' => if less x y then x :: l else y :: sort_insert x l'
  end.

Definition sort_Slice (l : list A) : list A :=
  fold_right sort_insert [] l.
End Sort.

End Go.

(* ===================================================================== *)
(** ** version.go *)
(* ===================================================================== *)

(** [type VersionType int], with [Stable] the zero value. *)
Inductive VersionType : Type := Stable | Beta | RC | Head.

#[global] Instance VersionType_eq_dec : EqDecision VersionType.
Proof. solve_decision. Defined.

(** [type Version struct].  The field [Type] is spelled [Type_]. *)
Record Version : Type := mkVersion {
  Type_ : VersionType;
  Major : Z;
  Minor : Z;
  Patch : Z;
  Release : Z  (* Release number of beta or rc. *)
}.

#[global] Instance Version_eq_dec : EqDecision Version.
Proof. solve_decision. Defined.

Definition headVersion : string := "go-head".

(** The regular expressions the package is written with, and the texts
    each matches from end to end (as under [^...$]); capturing parentheses
    do not change what is matched. *)
Inductive regexp : Type :=
| Lit (text : string)          (* literal text *)
| Class (p : ascii -> bool)    (* one character of a class *)
| Seq (r1 r2 : regexp)         (* r1 r2 *)
| Alt (r1 r2 : regexp)         (* r1|r2 *)
| Opt (r : regexp)             (* r? *)
| Plus (r : regexp).           (* r+ *)

Inductive matches : regexp -> string -> Prop :=
| matches_lit text : matches (Lit text) text
| matches_class p c : p c = true -> matches (Class p) (String c EmptyString)
| matches_seq r1 r2 s1 s2 :
    matches r1 s1 -> matches r2 s2 -> matches (Seq r1 r2) (s1 ++ s2)
| matches_alt_l r1 r2 s : matches r1 s -> matches (Alt r1 r2) s
| matches_alt_r r1 r2 s : matches r2 s -> matches (Alt r1 r2) s
| matches_opt_none r : matches (Opt r) EmptyString
| matches_opt_some r s : matches r s -> matches (Opt r) s
| matches_plus_one r s : matches r s -> matches (Plus r) s
| matches_plus_more r s1 s2 :
    matches r s1 -> matches (Plus r) s2 -> matches (Plus r) (s1 ++ s2).

(** [^(1)\.([0-9]+)((\.([0-9]+))|((beta|rc)([0-9]+)))?$] *)
Definition versionRegexp : regexp :=
  Seq (Lit "1") (Seq (Lit ".") (Seq (Plus (Class Go.is_digit))
    (Opt (Alt (Seq (Lit ".") (Plus (Class Go.is_digit)))
              (Seq (Alt (Lit "beta") (Lit "rc")) (Plus (Class Go.is_digit))))))).

(** The longest prefix of [s] made of digits, and what follows it. *)
Fixpoint digits_span (s : string) : string * string :=
  match s with
  | String c s' =>
      if Go.is_digit c
      then let '(d, r) := digits_span s' in (String c d, r)
      else (EmptyString, s)
  | EmptyString => (EmptyString, EmptyString)
  end.

Definition is_empty (s : string) : bool :=
  match s with EmptyString => true | _ => false end.

(** [versionRegexp.FindStringSubmatch(s)]: a matcher written for this one
    expression.  The result lists the whole match and the eight groups; a
    group that did not take part in the match is the empty string.  A run of
    digits is always followed by a character that is not a digit (or by the
    end), so the greedy reading below is the only possible match; that it
    finds a match exactly on the texts [versionRegexp] matches is
    [FindStringSubmatch_matches]. *)
Definition versionRegexp_FindStringSubmatch (s : string) : option (list string) :=
  match Go.cut_prefix "1." s with
  | None => None
  | Some r0 =>
      let '(minor, r1) := digits_span r0 in
      if is_empty minor then None
      else if is_empty r1 then
        Some [s; "1"; minor; ""; ""; ""; ""; ""; ""]
      else
        match Go.cut_prefix "." r1 with
        | Some r2 =>
            let '(patch, r3) := digits_span r2 in
            if is_empty patch || negb (is_empty r3) then None
            else Some [s; "1"; minor; "." ++ patch; "." ++ patch; patch; ""; ""; ""]
        | None =>
            let suffix :=
              match Go.cut_prefix "beta" r1 with
              | Some r2 => Some ("beta", r2)
              | None =>
                  match Go.cut_prefix "rc" r1 with
                  | Some r2 => Some ("rc", r2)
                  | None => None
                  end
              end in
            match suffix with
            | Some (word, r2) =>
                let '(rel, r3) := digits_span r2 in
                if is_empty rel || negb (is_empty r3) then None
                else Some [s; "1"; minor; word ++ rel; ""; ""; word ++ rel; word; rel]
            | None => None
            end
        end
  end.

(** [matches[i]]. *)
Definition sub (matches : list string) (i : nat) : string := nth i matches "".

Definition ParseVersion (s : string) : result Version :=
  if String.eqb s headVersion then Ok (mkVersion Head 0 0 0 0)
  else
    let s := Go.TrimPrefix s "go" in
    match versionRegexp_FindStringSubmatch s with
    | None => Err ErrVersionSyntax
    | Some matches =>
        match Go.Atoi (sub matches 1) with
        | None => Err ErrVersionSyntax
        | Some major =>
            match Go.Atoi (sub matches 2) with
            | None => Err ErrVersionSyntax
            | Some minor =>
                if is_empty (sub matches 3) then
                  (* major and minor only *)
                  Ok (mkVersion Stable major minor 0 0)
                else if negb (is_empty (sub matches 5)) then
                  match Go.Atoi (sub matches 5) with
                  | None => Err ErrVersionSyntax
                  | Some patch => Ok (mkVersion Stable major minor patch 0)
                  end
                else
                  let tp := if String.eqb (sub matches 7) "beta" then Beta else RC in
                  match Go.Atoi (sub matches 8) with
                  | None => Err ErrVersionSyntax
                  | Some rn => Ok (mkVersion tp major minor 0 rn)
                  end
            end
        end
    end.

(** [func (v *Version) String() string]. *)
Definition Version_String (v : Version) : string :=
  match Type_ v with
  | Stable =>
      if Patch v >? 0
      then Go.itoa (Major v) ++ "." ++ Go.itoa (Minor v) ++ "." ++ Go.itoa (Patch v)
      else Go.itoa (Major v) ++ "." ++ Go.itoa (Minor v)
  | Beta => Go.itoa (Major v) ++ "." ++ Go.itoa (Minor v) ++ "beta" ++ Go.itoa (Release v)
  | RC => Go.itoa (Major v) ++ "." ++ Go.itoa (Minor v) ++ "rc" ++ Go.itoa (Release v)
  | Head => headVersion
  end.

Definition compareInt (x y : Z) : Z :=
  if x >? y then 1
  else if x <? y then -1
  else 0.

(** [==] on [VersionType]. *)
Definition type_eqb (a b : VersionType) : bool :=
  match a, b with
  | Stable, Stable | Beta, Beta | RC, RC | Head, Head => true
  | _, _ => false
  end.

Definition CompareVersion (x y : Version) : Z :=
  if type_eqb (Type_ x) Head && type_eqb (Type_ y) Head then 0
  else if type_eqb (Type_ x) Head then 1
  else if type_eqb (Type_ y) Head then -1
  else if negb (Major x =? Major y) then compareInt (Major x) (Major y)
  else if negb (Minor x =? Minor y) then compareInt (Minor x) (Minor y)
  else
    (* the statements after the [if x.Type != y.Type] block *)
    let by_number :=
      if type_eqb (Type_ x) Stable
      then compareInt (Patch x) (Patch y)
      else compareInt (Release x) (Release y) in
    if negb (type_eqb (Type_ x) (Type_ y)) then
      if type_eqb (Type_ x) Stable then 1
      else if type_eqb (Type_ x) Beta then -1
      else if type_eqb (Type_ y) Stable then -1
      else if type_eqb (Type_ y) Beta then 1
      else by_number
    else by_number.

Definition EqualVersion (x y : Version) : bool :=
  CompareVersion x y =? 0.

(* ===================================================================== *)
(** ** releases.go: the catalog records *)
(* ===================================================================== *)

(** Each Go struct is a module holding its record, so that the fields keep
    their names ([Release.Version r], [remoteFile.OS f], ...). *)
Module remoteFile.
Record t : Type := mk {
  Filename : string;
  OS : string;
  Arch : string;
  Version : string;
  ChecksumSHA256 : string;
  Size : Z;
  Kind : string  (* "archive", "installer", "source" *)
}.
End remoteFile.

Module remoteRelease.
Record t : Type := mk {
  Version : string;
  Stable : bool;
  Files : list remoteFile.t
}.
End remoteRelease.

Module Release.
Record t : Type := mk {
  Version : Version;
  Stable : bool;
  Filename : string;
  ChecksumSHA256 : string;
  Size : Z
}.
End Release.

Definition downloadListFileName : string := "downloads.json".
Definition downloadBaseURL : string := "https://dl.google.com/go/".

Section Target.
(** [runtime.GOOS] and [runtime.GOARCH] of the running program. *)
Variables GOOS GOARCH : string.

Definition targetRelease (f : remoteFile.t) : bool :=
  if negb (String.eqb (remoteFile.OS f) GOOS)
     || negb (String.eqb (remoteFile.Kind f) "archive")
  then false
  else
    let arch := GOARCH in
    let arch := if String.eqb arch "arm" then "armv6l" else arch in
    if negb (String.eqb (remoteFile.Arch f) arch) then false
    else true.

(** The inner loop of [convertReleases], over the files of one record; an
    error leaves the function. *)
Fixpoint convert_files (r : remoteRelease.t) (files : list remoteFile.t)
    (rls : list Release.t) : result (list Release.t) :=
  match files with
  | [] => Ok rls
  | f :: files' =>
      if negb (targetRelease f) then convert_files r files' rls
      else
        match ParseVersion (Go.TrimPrefix (remoteRelease.Version r) "go") with
        | Err e => Err e
        | Ok version =>
            convert_files r files'
              (rls ++ [Release.mk version (remoteRelease.Stable r)
                         (remoteFile.Filename f) (remoteFile.ChecksumSHA256 f)
                         (remoteFile.Size f)])%list
        end
  end.

(** The outer loop, over the records. *)
Fixpoint convert_records (releases : list remoteRelease.t)
    (rls : list Release.t) : result (list Release.t) :=
  match releases with
  | [] => Ok rls
  | r :: releases' =>
      match convert_files r (remoteRelease.Files r) rls with
      | Err e => Err e
      | Ok rls' => convert_records releases' rls'
      end
  end.

Definition release_less (a b : Release.t) : bool :=
  CompareVersion (Release.Version a) (Release.Version b) <? 0.

Definition convertReleases (releases : list remoteRelease.t) : result (list Release.t) :=
  match convert_records releases [] with
  | Err e => Err e
  | Ok rls => Ok (Go.sort_Slice release_less rls)
  end.

End Target.

(* ===================================================================== *)
(** ** env.go: the [Env] object, the world around it, and their monad *)
(* ===================================================================== *)

(** [type Env struct].  A slice that is only ever [nil] or non-empty
    ([releases]: [convertReleases] returns [nil] when it appends nothing) is
    a list, [nil] being [[]]. *)
Record Env : Type := mkEnv {
  envRoot : string;
  verLinkName : string;
  confDir : string;
  cacheDir : string;
  installedVersions : gmap string Version;
  releases : list Release.t
}.

(** What sits at a path of the file system.  A directory stands for its
    whole tree; a regular file carries what it decodes to as a JSON release
    listing, if it does. *)
Inductive node : Type :=
| Dir
| File (listing : option (list remoteRelease.t))
| Link (target : string).

(** The world outside the process: the file system, the answer of the
    download server to a GET of each URL ([None]: the request itself fails),
    and the requests sent so far. *)
Record World : Type := mkWorld {
  fs : gmap string node;
  server : string -> option Z;
  requests : list string
}.

Definition State : Type := Env * World.

(** A method of [*Env]: it may change the object and the world, and returns
    a value or an error; the state reached is kept in both cases. *)
Definition M (A : Type) : Type := State -> result A * State.

Definition ret {A} (a : A) : M A := fun s => (Ok a, s).
Definition fail {A} (e : error) : M A := fun s => (Err e, s).
Definition bind {A B} (m : M A) (k : A -> M B) : M B :=
  fun s => match m s with
           | (Ok a, s') => k a s'
           | (Err e, s') => (Err e, s')
           end.

Notation "'do' x <- m ; k" := (bind m (fun x => k))
  (at level 10, x name, m at level 100, k at level 200).
Notation "m ;; k" := (bind m (fun _ => k))
  (at level 100, k at level 200, right associativity).

Definition get_env : M Env := fun s => (Ok (fst s), s).
Definition set_env (f : Env -> Env) : M unit := fun s => (Ok tt, (f (fst s), snd s)).
Definition get_world : M World := fun s => (Ok (snd s), s).
Definition set_fs (f : gmap string node -> gmap string node) : M unit :=
  fun s => (Ok tt, (fst s, mkWorld (f (fs (snd s))) (server (snd s)) (requests (snd s)))).

(** [fmt.Errorf(msg + ": %w", err)]: the error is replaced by one with the
    package's message. *)
Definition wrap {A} (msg : string) (m : M A) : M A :=
  fun s => match m s with
           | (Ok a, s') => (Ok a, s')
           | (Err _, s') => (Err (ErrorNew msg), s')
           end.

(** *** The operating system and the network *)

Fixpoint has_slash (s : string) : bool :=
  match s with
  | EmptyString => false
  | String c s' => Ascii.eqb c "/" || has_slash s'
  end.

Module os.

(** [filepath.IsAbs], on Unix. *)
Definition IsAbs (path : string) : bool :=
  match path with
  | EmptyString => false
  | String c _ => Ascii.eqb c "/"
  end.

(** The directory that holds [path], with its final separator; empty for a
    bare name. *)
Fixpoint dir_part (path : string) : string :=
  match path with
  | EmptyString => EmptyString
  | String c rest => if has_slash path then String c (dir_part rest) else EmptyString
  end.

(** Where the link at [path] with the target text [target] leads: an
    absolute target stands for itself, a relative one is read from the
    directory that holds the link, not from the working directory.  (Paths
    are clean: no [.] or [..] component is resolved.) *)
Definition follow (path target : string) : string :=
  if IsAbs target then target else dir_part path ++ target.

(** Following symbolic links, as [stat(2)] does, up to the system's limit. *)
Fixpoint resolve (fuel : nat) (m : gmap string node) (path : string) : bool :=
  match m !! path with
  | None => false
  | Some Dir | Some (File _) => true
  | Some (Link target) =>
      match fuel with
      | O => false
      | S fuel' => resolve fuel' m (follow path target)
      end
  end.

Definition exists_at (m : gmap string node) (path : string) : bool :=
  match m !! path with Some _ => true | None => false end.

(** [_, err := os.Stat(path)]: [true] when [err == nil]. *)
Definition Stat (path : string) : M bool :=
  do w <- get_world; ret (resolve 40 (fs w) path).

(** [_, err := os.Lstat(path)]: [true] when [err == nil]. *)
Definition Lstat (path : string) : M bool :=
  do w <- get_world; ret (exists_at (fs w) path).

(** [os.Remove]: removes a file or a link; a directory (a tree) stays. *)
Definition Remove (path : string) : M unit :=
  do w <- get_world;
  match fs w !! path with
  | Some (File _) | Some (Link _) => set_fs (delete path)
  | Some Dir => fail (ErrorNew "remove: directory not empty")
  | None => fail (ErrorNew "remove: no such file or directory")
  end.

(** [os.RemoveAll]: removes the path and what it holds; no error when there
    is nothing to remove. *)
Definition RemoveAll (path : string) : M unit := set_fs (delete path).

Definition Symlink (oldname newname : string) : M unit :=
  do w <- get_world;
  if exists_at (fs w) newname then fail (ErrorNew "symlink: file exists")
  else set_fs (insert newname (Link oldname)).

Definition Mkdir (path : string) : M unit :=
  do w <- get_world;
  if exists_at (fs w) path then fail (ErrorNew "mkdir: file exists")
  else set_fs (insert path Dir).

Definition MkdirAll (path : string) : M unit :=
  do w <- get_world;
  match fs w !! path with
  | Some Dir => ret tt
  | Some _ => fail (ErrorNew "mkdir: not a directory")
  | None => set_fs (insert path Dir)
  end.

(** [os.Create]: a new, empty regular file (an existing one is truncated;
    through a link, the file it names). *)
Definition Create (path : string) : M unit :=
  do w <- get_world;
  match fs w !! path with
  | Some Dir => fail (ErrorNew "open: is a directory")
  | Some (Link target) =>
      match fs w !! follow path target with
      | Some (File _) | None => set_fs (insert (follow path target) (File None))
      | Some _ => fail (ErrorNew "open: cannot create")
      end
  | _ => set_fs (insert path (File None))
  end.

(** What [os.Open] followed by [json.Decoder.Decode] reads at a path. *)
Fixpoint read_listing (fuel : nat) (m : gmap string node) (path : string)
    : option (list remoteRelease.t) :=
  match m !! path with
  | Some (File listing) => listing
  | Some (Link target) =>
      match fuel with
      | O => None
      | S fuel' => read_listing fuel' m (follow path target)
      end
  | _ => None
  end.

End os.

(** [filepath.Join] of two clean components. *)
Definition path_Join (a b : string) : string := a ++ "/" ++ b.

(** [strings.HasSuffix]. *)
Definition HasSuffix (s suffix : string) : bool :=
  let n := String.length s in
  let k := String.length suffix in
  (k <=? n)%nat && String.eqb (substring (n - k) k s) suffix.

(** [http.DefaultClient.Do] of a GET request: the request is sent and the
    server's status comes back, or the transport fails. *)
Definition http_Get (url : string) : M Z :=
  fun s =>
    let w := snd s in
    let s' := (fst s, mkWorld (fs w) (server w) (requests w ++ [url])%list) in
    match server w url with
    | Some status => (Ok status, s')
    | None => (Err (ErrorNew "failed to download archive"), s')
    end.

(** *** Methods of [*Env] *)

Definition set_installedVersions (m : gmap string Version) (env : Env) : Env :=
  mkEnv (envRoot env) (verLinkName env) (confDir env) (cacheDir env) m (releases env).

Definition set_releases (rls : list Release.t) (env : Env) : Env :=
  mkEnv (envRoot env) (verLinkName env) (confDir env) (cacheDir env)
        (installedVersions env) rls.

Definition version_less (a b : Version) : bool := CompareVersion a b <? 0.

Definition InstalledVersions : M (list Version) :=
  do env <- get_env;
  ret (Go.sort_Slice version_less (map snd (map_to_list (installedVersions env)))).

Definition HasVersion (v : Version) : M bool :=
  do env <- get_env;
  match installedVersions env !! Version_String v with
  | None => ret false
  | Some _ => ret true
  end.

Definition linkPath (env : Env) : string :=
  path_Join (envRoot env) (verLinkName env).

Definition versionGoRoot (env : Env) (v : Version) : string :=
  path_Join (envRoot env) ("go" ++ Version_String v).

Definition makeLink (v : Version) : M unit :=
  do env <- get_env;
  let goRoot := versionGoRoot env v in
  let path := linkPath env in
  do found <- os.Lstat path;
  (if found
   then wrap "failed to remove current symbolic link" (os.Remove path)
   else ret tt);;
  wrap "failed to create new symbolic link" (os.Symlink goRoot path).

Definition Switch (v : Version) : M unit :=
  do has <- HasVersion v;
  if has then fail (ErrorNew "specified version is not installed")
  else makeLink v.

Definition fixBrokenLink : M unit :=
  do env <- get_env;
  let path := linkPath env in
  do ok <- os.Stat path;
  if ok then
    (* link target is not broken *)
    ret tt
  else
    do versions <- InstalledVersions;
    match last versions with
    | None => ret tt                      (* len(versions) == 0 *)
    | Some newest => makeLink newest      (* versions[len(versions)-1] *)
    end.

(** *** Start-up: the registry is read off the install root *)

(** [hasMeta] of path/filepath on Unix: the path holds one of the
    characters that make a pattern of it, a star, a question mark, an
    opening bracket or a backslash (code 92). *)
Fixpoint hasMeta (path : string) : bool :=
  match path with
  | EmptyString => false
  | String c rest =>
      Ascii.eqb c "*" || Ascii.eqb c "?" || Ascii.eqb c "["
      || Ascii.eqb c (ascii_of_nat 92) || hasMeta rest
  end.

(** [info.Name()]: the last component of a path. *)
Fixpoint Name (path : string) : string :=
  match path with
  | EmptyString => EmptyString
  | String c rest =>
      if has_slash rest then Name rest
      else if Ascii.eqb c "/" then rest else path
  end.

(** [name[2:]]; a name that [go*] matches has the two characters. *)
Definition drop2 (name : string) : string :=
  match name with
  | String _ (String _ rest) => rest
  | _ => EmptyString
  end.

(** The name of an entry of [root] that matches [go*], without its first
    two characters. *)
Definition go_entry (root path : string) : option string :=
  match Go.cut_prefix (root ++ "/go") path with
  | Some rest => if has_slash rest then None else Some rest
  | None => None
  end.

(** [os.Stat] succeeds and [info.IsDir()]. *)
Fixpoint is_dir (fuel : nat) (m : gmap string node) (path : string) : bool :=
  match m !! path with
  | Some Dir => true
  | Some (Link target) =>
      match fuel with
      | O => false
      | S fuel' => is_dir fuel' m (os.follow path target)
      end
  | _ => false
  end.

(** The body of the loop of [installedVersions(root)]: directories whose
    names, without "go", parse. *)
Definition scan_entry (m : gmap string node) (dir : string) : option Version :=
  if is_dir 40 m dir then
    match ParseVersion (drop2 (Name dir)) with
    | Ok version => Some version
    | Err _ => None
    end
  else None.

Section Startup.
(** [filepath.Glob] on a pattern whose directory part is itself a pattern:
    the paths it matches in the file system, or [ErrBadPattern].  The
    package hands it such a pattern exactly when the install root holds a
    pattern character; its answer is left open. *)
Variable Glob_meta : string -> gmap string node -> result (list string).

(** [filepath.Glob(filepath.Join(root, "/go*"))].  A root without pattern
    characters is taken literally: the entries of [root] whose names start
    with "go"; that pattern is well formed, so there is no error. *)
Definition Glob_go (root : string) (m : gmap string node) : result (list string) :=
  if hasMeta root then Glob_meta (root ++ "/go*") m
  else
    Ok (List.filter
          (fun path => match go_entry root path with Some _ => true | None => false end)
          (map fst (map_to_list m))).

(** [func installedVersions(root string) ([]*Version, error)]. *)
Definition scan_installedVersions (root : string) : M (list Version) :=
  do w <- get_world;
  match Glob_go root (fs w) with
  | Err e => fail e
  | Ok dirs => ret (Go.sort_Slice version_less (omap (scan_entry (fs w)) dirs))
  end.

(** [func (env *Env) init() error]. *)
Definition init : M unit :=
  do env <- get_env;
  do versions <- scan_installedVersions (envRoot env);
  set_env (fun env =>
    set_installedVersions
      (fold_left (fun reg version => <[Version_String version := version]> reg)
                 versions (installedVersions env))
      env).

End Startup.

(** *** releases.go: loading and querying the catalog *)

(** The first loop of [selectRecentReleases], over the catalog backwards:
    the releases of the newest unstable line.  [yield] is the consumer's; the
    one consumer, [slices.Collect], takes every element, so the sequence is
    the list of the elements yielded. *)
Fixpoint unstable_loop (rs : list Release.t) (latest : option Version)
    : list Release.t :=
  match rs with
  | [] => []
  | r :: rs' =>
      if Release.Stable r then []
      else
        let latest :=
          match latest with
          | None => mkVersion Stable (Major (Release.Version r))
                                     (Minor (Release.Version r)) 0 0
          | Some l => l
          end in
        if negb (Major (Release.Version r) =? Major latest)
           || negb (Minor (Release.Version r) =? Minor latest)
        then []
        else r :: unstable_loop rs' (Some latest)
  end.

(** The second loop: at most two releases of each of the [n] newest stable
    lines. *)
Fixpoint stable_loop (rs : list Release.t) (latest : option Version)
    (n count : Z) : list Release.t :=
  match rs with
  | [] => []
  | r :: rs' =>
      if negb (Release.Stable r) then stable_loop rs' latest n count
      else
        let new_line :=
          match latest with
          | None => true
          | Some l => negb (Major (Release.Version r) =? Major l)
                      || negb (Minor (Release.Version r) =? Minor l)
          end in
        let step :=
          if new_line then
            let n := match latest with Some _ => n - 1 | None => n end in
            if n =? 0 then None
            else Some (mkVersion Stable (Major (Release.Version r))
                                        (Minor (Release.Version r)) 0 0, n, 0)
          else
            match latest with
            | Some l => Some (l, n, count)
            | None => None
            end in
        match step with
        | None => []
        | Some (latest, n, count) =>
            ((if count <? 2 then [r] else []) ++
             stable_loop rs' (Some latest) n (count + 1))%list
        end
  end.

Definition selectRecentReleases (env : Env) (n : Z) : list Release.t :=
  (unstable_loop (rev (releases env)) None ++
   stable_loop (rev (releases env)) None n 0)%list.

(** The loop of [FindRelease]. *)
Fixpoint find_release (rs : list Release.t) (v : Version) : option Release.t :=
  match rs with
  | [] => None
  | r :: rs' => if EqualVersion (Release.Version r) v then Some r
                else find_release rs' v
  end.

Section Methods.
Variables GOOS GOARCH : string.

Definition loadReleases : M unit :=
  do env <- get_env;
  let name := path_Join (confDir env) downloadListFileName in
  do found <- os.Stat name;
  if negb found then fail ErrReleasesFileNotDownloaded
  else
    do w <- get_world;
    match os.read_listing 40 (fs w) name with
    | None => fail (ErrorNew "failed to decode JSON")
    | Some releases =>
        match convertReleases GOOS GOARCH releases with
        | Err e => fail e
        | Ok rls => set_env (set_releases rls)
        end
    end.

(** [if env.releases == nil { load }]. *)
Definition ensure_releases : M unit :=
  do env <- get_env;
  match releases env with
  | [] => loadReleases
  | _ => ret tt
  end.

Definition Releases : M (list Release.t) :=
  ensure_releases;;
  do env <- get_env;
  ret (releases env).

Definition RecentReleases : M (list Release.t) :=
  ensure_releases;;
  do env <- get_env;
  match releases env with
  | [] => ret []
  | _ => ret (rev (selectRecentReleases env 2))
  end.

Definition FindRelease (v : Version) : M Release.t :=
  ensure_releases;;
  do env <- get_env;
  match find_release (releases env) v with
  | Some r => ret r
  | None => fail (ErrorNew "specified version is not found")
  end.

(** *** install.go *)

Inductive extractor : Type :=
| tarArchive (path : string) (isGzip : bool)
| zipArchive (path : string).

Definition getExtractor (path : string) : M extractor :=
  if HasSuffix path ".tar" then ret (tarArchive path false)
  else if HasSuffix path ".tar.gz" then ret (tarArchive path true)
  else if HasSuffix path ".zip" then ret (zipArchive path)
  else fail (ErrorNew "unsupported archive").

(** [e.extract(dest)] fills the tree under [dest], which the directory
    node already stands for; [Install] drops the error it returns. *)
Definition extract (e : extractor) (dest : string) : M unit := ret tt.

Definition download (url path : string) : M unit :=
  do status <- http_Get url;
  (if status =? 200 then ret tt
   else if status =? 404 then fail (ErrorNew "specified version is not found")
   else fail (ErrorNew "failed to download archive"));;
  wrap "failed to create cache file" (os.Create path).

Definition downloadURL (v : Version) : M (string * string) :=
  do r <- FindRelease v;
  ret (downloadBaseURL ++ Release.Filename r, Release.Filename r).

Definition Install (v : Version) : M unit :=
  do has <- HasVersion v;
  if has then fail (ErrorNew "specified version is already installed")
  else
    do dl <- downloadURL v;
    let '(dlURL, dlName) := dl in
    do env <- get_env;
    let cachePath := path_Join (cacheDir env) dlName in
    do e <- getExtractor cachePath;
    wrap "failed to create cache directory" (os.MkdirAll (cacheDir env));;
    let goRoot := versionGoRoot env v in
    do cached <- os.Stat cachePath;
    (if negb cached then download dlURL cachePath else ret tt);;
    do present <- os.Stat goRoot;
    if present then fail (ErrorNew "install target directory already exists")
    else
      wrap "failed to create install target directory" (os.Mkdir goRoot);;
      extract e goRoot;;
      fixBrokenLink.

Definition Uninstall (v : Version) : M unit :=
  do has <- HasVersion v;
  if negb has then fail (ErrorNew "specified version is not installed")
  else
    do env <- get_env;
    let goRoot := versionGoRoot env v in
    wrap "failed to remove" (os.RemoveAll goRoot);;
    set_env (fun env =>
      set_installedVersions (delete (Version_String v) (installedVersions env)) env);;
    fixBrokenLink.

End Methods.

(** *** releases.go: refreshing the catalog *)

Definition downloadListURL : string := "https://golang.org/dl/?mode=json&include=all".

(** What the response to a GET carries besides its status: the media type
    that [mime.ParseMediaType] reads off its Content-Type header ([None]: the
    header does not parse) and the release listing that its body decodes to
    as JSON ([None]: it does not decode). *)
Record response : Type := mkResponse {
  mediaType : option string;
  body : option (list remoteRelease.t)
}.

(** The file that the handle returned by [os.Create path] writes to. *)
Definition created (m : gmap string node) (path : string) : string :=
  match m !! path with
  | Some (Link target) => os.follow path target
  | _ => path
  end.

(** [json.NewEncoder(file).Encode(v)] on the handle of [os.Create path]:
    the file now decodes to [v]. *)
Definition Encode (path : string) (v : list remoteRelease.t) : M unit :=
  do w <- get_world;
  set_fs (insert (created (fs w) path) (File (Some v))).

Section Update.
Variables GOOS GOARCH : string.
(** What the server sends with its status, for each URL. *)
Variable answer : string -> response.

Definition UpdateDownloadList : M unit :=
  do status <- wrap "failed to get download list" (http_Get downloadListURL);
  if negb (status =? 200) then fail (ErrorNew "failed to get download list")
  else
    match mediaType (answer downloadListURL) with
    | None => fail (ErrorNew "failed to parse Content-Type")
    | Some mimeType =>
        if negb (String.eqb mimeType "application/json")
        then fail (ErrorNew "the server responds unexpected Content-Type")
        else
          match body (answer downloadListURL) with
          | None => fail (ErrorNew "failed to decode JSON")
          | Some releases =>
              match convertReleases GOOS GOARCH releases with
              | Err e => fail e
              | Ok rls =>
                  set_env (set_releases rls);;
                  do env <- get_env;
                  wrap "failed to create config directory" (os.MkdirAll (confDir env));;
                  let name := path_Join (confDir env) downloadListFileName in
                  wrap "failed to create download list file" (os.Create name);;
                  Encode name releases
              end
          end
    end.

End Update.

(* ===================================================================== *)
(** ** extractor.go: entry names *)
(* ===================================================================== *)

Section Extractor.
(** [filepath.Separator]: '/' on Unix, '\' on Windows. *)
Variable Separator : ascii.

(** [i := strings.Index(path, string(filepath.Separator))] and then
    [path[i+1:]]; [None] when [i < 0]. *)
Fixpoint after_separator (path : string) : option string :=
  match path with
  | EmptyString => None
  | String c rest => if Ascii.eqb c Separator then Some rest else after_separator rest
  end.

(** The loop [for i := 0; i < strip; i++]. *)
Fixpoint strip_loop (n : nat) (path : string) : string :=
  match n with
  | O => path
  | S n' =>
      match after_separator path with
      | None => ""
      | Some rest => strip_loop n' rest
      end
  end.

(** [func stripPath(path string, strip int) string]; [None] is the
    run-time panic of [path[0]] on an empty path. *)
Definition stripPath (path : string) (strip : Z) : option string :=
  match path with
  | EmptyString => None
  | String c rest =>
      let path := if Ascii.eqb c Separator then rest else path in
      Some (strip_loop (Z.to_nat strip) path)
  end.

End Extractor.

(* ===================================================================== *)
(** ** The commands (cmd/gosw/cli) *)
(* ===================================================================== *)

(** [strings.HasPrefix]. *)
Definition HasPrefix (s prefix : string) : bool :=
  match Go.cut_prefix prefix s with
  | Some _ => true
  | None => false
  end.

(** The closures of a command run on the Env that the context carries
    ([e := env.FromContext(cmd.Context())]).  [args[0]] panics on an empty
    argument list; [cobra.ExactArgs(1)] lets none through. *)
Module use.

Definition ValidArgsFunction (args : list string) (toComplete : string)
    : M (list string) :=
  match args with
  | _ :: _ => ret []
  | [] =>
      do versions <- InstalledVersions;
      ret (map Version_String
             (List.filter (fun version => HasPrefix (Version_String version) toComplete)
                          versions))
  end.

Definition RunE (args : list string) : M unit :=
  match args with
  | [] => fail (ErrorNew "index out of range")
  | arg :: _ =>
      match ParseVersion arg with
      | Err _ => fail (ErrorNew "version syntax is not valid")
      | Ok v => Switch v
      end
  end.

End use.

Module uninstall.

Definition ValidArgsFunction (args : list string) (toComplete : string)
    : M (list string) :=
  match args with
  | _ :: _ => ret []
  | [] =>
      do versions <- InstalledVersions;
      ret (map Version_String
             (List.filter (fun version => HasPrefix (Version_String version) toComplete)
                          versions))
  end.

Definition RunE (args : list string) : M unit :=
  match args with
  | [] => fail (ErrorNew "index out of range")
  | arg :: _ =>
      match ParseVersion arg with
      | Err _ => fail (ErrorNew "version syntax is not valid")
      | Ok v => Uninstall v
      end
  end.

End uninstall.

Module install.

(** What the command prints: one version per line, or with [--verbose] the
    rows handed to the table formatter. *)
Inductive output : Type :=
| Lines (lines : list string)
| Table (rows : list (string * bool * string * string * string)).

Section Command.
Variables GOOS GOARCH : string.
(** [formatBytes], which works in floating point. *)
Variable formatBytes : Z -> string.

(** [list_] is the value of the flag [--list]. *)
Definition ValidArgsFunction (list_ : bool) (args : list string) (toComplete : string)
    : M (list string) :=
  if list_ then ret []
  else
    match args with
    | _ :: _ => ret []
    | [] =>
        do releases <- Releases GOOS GOARCH;
        ret (map (fun r => Version_String (Release.Version r))
               (List.filter
                  (fun r => HasPrefix (Version_String (Release.Version r)) toComplete)
                  releases))
    end.

Definition RunE (list_ listAll verbose : bool) (args : list string) : M output :=
  if negb list_ && negb listAll then
    match args with
    | [] => fail (ErrorNew "index out of range")
    | arg :: _ =>
        match ParseVersion arg with
        | Err _ => fail (ErrorNew "version syntax is not valid")
        | Ok v => Install GOOS GOARCH v;; ret (Lines [])
        end
    end
  else
    do releases <- (if listAll then Releases GOOS GOARCH
                    else RecentReleases GOOS GOARCH);
    if verbose then
      ret (Table (map (fun r => (Version_String (Release.Version r), Release.Stable r,
                                 Release.Filename r, formatBytes (Release.Size r),
                                 Release.ChecksumSHA256 r)) releases))
    else
      ret (Lines (map (fun r => Version_String (Release.Version r)) releases)).

End Command.

End install.

(* ===================================================================== *)
(** * Specification vocabulary *)
(* ===================================================================== *)

(** The shape of every value the parser returns: Head carries zeros, every
    other version has major 1, and only the trailing number of its own kind
    is set. *)
Definition parsed (v : Version) : Prop :=
  match Type_ v with
  | Head => Major v = 0 /\ Minor v = 0 /\ Patch v = 0 /\ Release v = 0
  | Stable => Major v = 1 /\ 0 <= Minor v <= Go.max_int /\
              0 <= Patch v <= Go.max_int /\ Release v = 0
  | Beta | RC => Major v = 1 /\ 0 <= Minor v <= Go.max_int /\
                 Patch v = 0 /\ 0 <= Release v <= Go.max_int
  end.

(** Every character is a digit. *)
Fixpoint all_digits (s : string) : bool :=
  match s with
  | EmptyString => true
  | String c s' => Go.is_digit c && all_digits s'
  end.

(** A non-empty run of digits. *)
Definition digits1 (s : string) : Prop := s <> "" /\ all_digits s = true.

(** The text does not start with a digit. *)
Definition no_digit_head (s : string) : bool :=
  match s with
  | EmptyString => true
  | String c _ => negb (Go.is_digit c)
  end.

(** Stability rank of a kind: Stable > RC > Beta (Head above all). *)
Definition rank (t : VersionType) : Z :=
  match t with
  | Beta => 0
  | RC => 1
  | Stable => 2
  | Head => 3
  end.

(** The trailing number that counts for a version's kind. *)
Definition trailing (v : Version) : Z :=
  match Type_ v with
  | Stable => Patch v
  | _ => Release v
  end.

(** The sort key the comparator induces: Head flag, major, minor, rank,
    trailing number, compared lexicographically. *)
Definition sort_key (v : Version) : list Z :=
  match Type_ v with
  | Head => [1; 0; 0; 0; 0]
  | t => [0; Major v; Minor v; rank t; trailing v]
  end.

Fixpoint lex_compare (k1 k2 : list Z) : Z :=
  match k1, k2 with
  | a :: k1', b :: k2' => if a =? b then lex_compare k1' k2' else compareInt a b
  | _, _ => 0
  end.

(** The architecture tag the files are matched against. *)
Definition target_arch (GOARCH : string) : string :=
  if String.eqb GOARCH "arm" then "armv6l" else GOARCH.

(** What [convertReleases] does with the version text of a record. *)
Definition record_version (r : remoteRelease.t) : result Version :=
  ParseVersion (Go.TrimPrefix (remoteRelease.Version r) "go").

(** The catalog entry made from a record, its parsed version and one of its
    files. *)
Definition release_of (r : remoteRelease.t) (v : Version) (f : remoteFile.t)
    : Release.t :=
  Release.mk v (remoteRelease.Stable r) (remoteFile.Filename f)
             (remoteFile.ChecksumSHA256 f) (remoteFile.Size f).

(** The entries of a listing before sorting: per record, one for each file
    that matches the target. *)
Definition kept_of (GOOS GOARCH : string) (r : remoteRelease.t) : list Release.t :=
  match record_version r with
  | Ok v => map (release_of r v) (List.filter (targetRelease GOOS GOARCH) (remoteRelease.Files r))
  | Err _ => []
  end.

Definition kept_entries (GOOS GOARCH : string) (releases : list remoteRelease.t)
    : list Release.t :=
  concat (map (kept_of GOOS GOARCH) releases).

(** A record that makes the load fail: a file of it matches the target and
    its version text is malformed. *)
Definition bad_record (GOOS GOARCH : string) (r : remoteRelease.t) : Prop :=
  List.filter (targetRelease GOOS GOARCH) (remoteRelease.Files r) <> [] /\
  record_version r = Err ErrVersionSyntax.

(** The world with another file system. *)
Definition with_fs (m : gmap string node) (w : World) : World :=
  mkWorld m (server w) (requests w).

(** [os.Stat] of the active link succeeds: the link is there and leads to
    something. *)
Definition link_resolves (s : State) : bool :=
  os.resolve 40 (fs (snd s)) (linkPath (fst s)).

(** The install root layout: every entry of the registry is filed under the
    canonical text of its version, and the directory of that version is on
    disk. *)
Definition registry_on_disk (s : State) : Prop :=
  forall k u, installedVersions (fst s) !! k = Some u ->
    k = Version_String u /\ fs (snd s) !! versionGoRoot (fst s) u = Some Dir.

(** The layout on an absolute install root: the links the program makes
    then carry absolute targets. *)
Definition absolute_layout (s : State) : Prop :=
  os.IsAbs (envRoot (fst s)) = true /\ registry_on_disk s.

(** An install root kept by the program: what sits in it under a name
    "go" + text that parses is a directory, and the text is the canonical
    one of the version. *)
Definition canonical_root (root : string) (m : gmap string node) : Prop :=
  forall dir str v,
    go_entry root dir = Some str -> is_dir 40 m dir = true ->
    ParseVersion str = Ok v ->
    str = Version_String v /\ m !! dir = Some Dir.

(** [m] is a newest installed version: it is in the registry and no entry
    of the registry is above it. *)
Definition newest (env : Env) (m : Version) : Prop :=
  (exists k, installedVersions env !! k = Some m) /\
  forall k u, installedVersions env !! k = Some u -> CompareVersion u m <= 0.

(** Partial correctness of a method: from a state in [P], a run that
    returns without error returns a value and a state in [Q]. *)
Definition hoare {A} (P : State -> Prop) (m : M A) (Q : A -> State -> Prop) : Prop :=
  forall s, P s ->
    match m s with
    | (Ok a, s') => Q a s'
    | (Err _, _) => True
    end.

(** The state in which [Uninstall v] runs the link repair: [v] is gone from
    the registry and its directory from the disk. *)
Definition without_version (v : Version) (s : State) : State :=
  (set_installedVersions (delete (Version_String v) (installedVersions (fst s))) (fst s),
   with_fs (delete (versionGoRoot (fst s) v) (fs (snd s))) (snd s)).

(** [s'] comes from [s] by steps that leave the registry, the install root
    and the link name alone and remove no directory. *)
Definition keeps_dirs (s s' : State) : Prop :=
  installedVersions (fst s') = installedVersions (fst s) /\
  envRoot (fst s') = envRoot (fst s) /\
  verLinkName (fst s') = verLinkName (fst s) /\
  forall p, fs (snd s) !! p = Some Dir -> fs (snd s') !! p = Some Dir.

(** A method all of whose runs, failed or not, are such steps. *)
Definition steady {A} (m : M A) : Prop :=
  forall s, keeps_dirs s (snd (m s)).

(** [s] is a decimal numeral that [strconv.Atoi] reads as [n]. *)
Definition numeral (s : string) (n : Z) : Prop := digits1 s /\ Go.Atoi s = Some n.

(** A registry as start-up builds it: every entry is filed under the
    canonical text of its version, and that text parses to the version. *)
Definition canonical_registry (env : Env) : Prop :=
  forall k u, installedVersions env !! k = Some u ->
    k = Version_String u /\ ParseVersion k = Ok u.

(** A method that does not use the network: no request is sent and the
    server is as it was, however the run ends. *)
Definition quiet {A} (m : M A) : Prop :=
  forall s, server (snd (snd (m s))) = server (snd s) /\
            requests (snd (snd (m s))) = requests (snd s).

(** A method that sends no request or one request, to [url]. *)
Definition sends_at_most {A} (url : string) (m : M A) : Prop :=
  forall s, server (snd (snd (m s))) = server (snd s) /\
            (requests (snd (snd (m s))) = requests (snd s) \/
             requests (snd (snd (m s))) = (requests (snd s) ++ [url])%list).

(** The text holds no separator: it is one path component. *)
Fixpoint one_component (Separator : ascii) (s : string) : bool :=
  match s with
  | EmptyString => true
  | String c rest => negb (Ascii.eqb c Separator) && one_component Separator rest
  end.

(* ===================================================================== *)
(** ** Sample data *)
(* ===================================================================== *)

(** The catalog of the specification's example: stable lines 1.14 and 1.15,
    unstable line 1.16, in ascending order as a loaded catalog is. *)
Definition sample_release (v : Version) (stable : bool) : Release.t :=
  Release.mk v stable ("go" ++ Version_String v ++ ".linux-amd64.tar.gz") "" 0.

Definition go1_14_1 := sample_release (mkVersion Stable 1 14 1 0) true.
Definition go1_14_2 := sample_release (mkVersion Stable 1 14 2 0) true.
Definition go1_14_3 := sample_release (mkVersion Stable 1 14 3 0) true.
Definition go1_15_1 := sample_release (mkVersion Stable 1 15 1 0) true.
Definition go1_15_2 := sample_release (mkVersion Stable 1 15 2 0) true.
Definition go1_16beta1 := sample_release (mkVersion Beta 1 16 0 1) false.
Definition go1_16beta2 := sample_release (mkVersion Beta 1 16 0 2) false.
Definition go1_16rc1 := sample_release (mkVersion RC 1 16 0 1) false.

(** What the recency selection reads of a catalog: version and stable flag
    of each release, in order. *)
Definition catalog_lines (rs : list Release.t) : list (Version * bool) :=
  map (fun r => (Release.Version r, Release.Stable r)) rs.

Definition sample_lines : list (Version * bool) :=
  [(mkVersion Stable 1 14 1 0, true); (mkVersion Stable 1 14 2 0, true);
   (mkVersion Stable 1 14 3 0, true); (mkVersion Stable 1 15 1 0, true);
   (mkVersion Stable 1 15 2 0, true); (mkVersion Beta 1 16 0 1, false);
   (mkVersion Beta 1 16 0 2, false); (mkVersion RC 1 16 0 1, false)].

Definition sample_catalog : list Release.t :=
  [go1_14_1; go1_14_2; go1_14_3; go1_15_1; go1_15_2;
   go1_16beta1; go1_16beta2; go1_16rc1].

(** A listing as the download server sends it (newest first), each record
    with an archive for the target, an archive for another system and an
    installer. *)
Definition sample_record (version : string) (stable : bool) : remoteRelease.t :=
  remoteRelease.mk version stable
    [remoteFile.mk (version ++ ".darwin-amd64.tar.gz") "darwin" "amd64" version "" 0 "archive";
     remoteFile.mk (version ++ ".linux-amd64.tar.gz") "linux" "amd64" version "" 0 "archive";
     remoteFile.mk (version ++ ".linux-amd64.msi") "linux" "amd64" version "" 0 "installer";
     remoteFile.mk (version ++ ".src.tar.gz") "" "" version "" 0 "source"].

Definition sample_listing : list remoteRelease.t :=
  [sample_record "go1.16rc1" false; sample_record "go1.16beta2" false;
   sample_record "go1.16beta1" false; sample_record "go1.15.2" true;
   sample_record "go1.15.1" true; sample_record "go1.14.3" true;
   sample_record "go1.14.2" true; sample_record "go1.14.1" true].

(** A listing with a malformed version text on a record that has a file for
    the target, and one where the malformed record has none. *)
Definition bad_listing : list remoteRelease.t :=
  [sample_record "go1.15.2" true; sample_record "go1.16." true].

Definition harmless_listing : list remoteRelease.t :=
  [sample_record "go1.15.2" true;
   remoteRelease.mk "go1.16." true
     [remoteFile.mk "go1.16.darwin-amd64.tar.gz" "darwin" "amd64" "go1.16." "" 0 "archive"]].

Definition sample_env (installed : gmap string Version) (rls : list Release.t) : Env :=
  mkEnv "/usr/local/go" "current" "/home/gopher/.config/gosw"
        "/home/gopher/.cache/gosw" installed rls.

(** A download server that knows no URL, and one that serves every URL. *)
Definition no_server : string -> option Z := fun _ => None.
Definition good_server : string -> option Z := fun _ => Some 200.

Definition sample_world (m : gmap string node) : World := mkWorld m no_server [].

(** The answer of [filepath.Glob] to a malformed pattern
    ([ErrBadPattern]); the sample root is no pattern at all. *)
Definition bad_pattern : string -> gmap string node -> result (list string) :=
  fun _ _ => Err (ErrorNew "syntax error in pattern").

(** An install root with 1.15 and 1.16 installed and 1.16 active. *)
Definition two_installed : gmap string Version :=
  {[ "1.15" := mkVersion Stable 1 15 0 0; "1.16" := mkVersion Stable 1 16 0 0 ]}.

Definition two_on_disk : gmap string node :=
  {[ "/usr/local/go/go1.15" := Dir; "/usr/local/go/go1.16" := Dir;
     "/usr/local/go/current" := Link "/usr/local/go/go1.16" ]}.

(** The same install root with the active link left dangling. *)
Definition two_on_disk_dangling : gmap string node :=
  {[ "/usr/local/go/go1.15" := Dir; "/usr/local/go/go1.16" := Dir;
     "/usr/local/go/current" := Link "/usr/local/go/go1.14" ]}.

(** An install root with 1.15 installed and no active link, the catalog in
    memory, the server up. *)
Definition one_installed_state : State :=
  (sample_env {[ "1.15" := mkVersion Stable 1 15 0 0 ]} sample_catalog,
   mkWorld {[ "/usr/local/go" := Dir; "/usr/local/go/go1.15" := Dir ]} good_server []).

(** An install root with 1.15 as the only installed version and the active
    link on it, the catalog in memory, the server up. *)
Definition last_installed_state : State :=
  (sample_env {[ "1.15" := mkVersion Stable 1 15 0 0 ]} sample_catalog,
   mkWorld {[ "/usr/local/go" := Dir; "/usr/local/go/go1.15" := Dir;
              "/usr/local/go/current" := Link "/usr/local/go/go1.15" ]} good_server []).

(** A relative install root, as [--root go] gives it, with 1.15 installed
    and no active link. *)
Definition relative_root_state : State :=
  (mkEnv "go" "current" "/home/gopher/.config/gosw" "/home/gopher/.cache/gosw"
         {[ "1.15" := mkVersion Stable 1 15 0 0 ]} [],
   sample_world {[ "go" := Dir; "go/go1.15" := Dir ]}).

(** An empty install root, the catalog in memory, the server up. *)
Definition fresh_state : State :=
  (sample_env ∅ sample_catalog,
   mkWorld {[ "/usr/local/go" := Dir ]} good_server []).

(** A catalog whose newest release is a stable one. *)
Definition stable_newest_catalog : list Release.t :=
  [go1_14_1; go1_14_2; go1_14_3;
   sample_release (mkVersion Beta 1 15 0 1) false; go1_15_1; go1_15_2].

(** A server response that carries the sample listing as JSON. *)
Definition json_answer : string -> response :=
  fun _ => mkResponse (Some "application/json") (Some sample_listing).

(* ===================================================================== *)
(** * Proofs *)
(* ===================================================================== *)

Example parse_1_16 : ParseVersion "go1.16" = Ok (mkVersion Stable 1 16 0 0).
Proof. reflexivity. Qed.
Example parse_1_15_10 : ParseVersion "1.15.10" = Ok (mkVersion Stable 1 15 10 0).
Proof. reflexivity. Qed.
Example parse_rc : ParseVersion "1.15rc10" = Ok (mkVersion RC 1 15 0 10).
Proof. reflexivity. Qed.
Example string_rc : Version_String (mkVersion RC 1 15 0 10) = "1.15rc10".
Proof. reflexivity. Qed.

(* ===================================================================== *)
(** ** Facts about the library model: decimal numerals *)
(* ===================================================================== *)

Section Numerals.
Import Go.

Lemma is_digit_val c : is_digit c = true -> 0 <= digit_val c <= 9.
Proof.
  unfold is_digit, digit_val. cbv zeta.
  rewrite andb_true_iff, !N.leb_le. lia.
Qed.

Lemma atoi_loop_lower s : forall n m, atoi_loop n s = Some m -> 0 <= n -> n <= m.
Proof.
  induction s as [|c s IH]; simpl; intros n m H Hn.
  - inversion H; lia.
  - destruct (is_digit c) eqn:Hc; [|discriminate].
    apply is_digit_val in Hc. apply IH in H; lia.
Qed.

Lemma Atoi_range s n : Atoi s = Some n -> 0 <= n <= max_int.
Proof.
  unfold Atoi. destruct s as [|c s]; [discriminate|].
  destruct (atoi_loop 0 (String c s)) as [m|] eqn:Hm; [|discriminate].
  destruct (Z.leb_spec m max_int); [|discriminate].
  intros [= <-]. apply atoi_loop_lower in Hm; lia.
Qed.

(** Reading a printed numeral digit by digit, from a positive accumulator
    and from zero. *)
Lemma atoi_loop_step n c s : is_digit c = true ->
  atoi_loop n (String c s) = atoi_loop (n * 10 + digit_val c) s.
Proof. intros H. simpl. rewrite H. reflexivity. Qed.

Ltac eval_digit :=
  match goal with
  | |- context [digit_val ?c] =>
      let v := eval vm_compute in (digit_val c) in change (digit_val c) with v
  end.

Lemma atoi_loop_uint_acc d : forall p,
  atoi_loop (Z.pos p) (NilEmpty.string_of_uint d) = Some (Z.pos (Pos.of_uint_acc d p)).
Proof.
  induction d; intros p; [reflexivity|..];
    cbn [NilEmpty.string_of_uint Pos.of_uint_acc];
    rewrite <- IHd, atoi_loop_step by reflexivity;
    f_equal; eval_digit; lia.
Qed.

Lemma atoi_loop_uint d :
  atoi_loop 0 (NilEmpty.string_of_uint d) = Some (Z.of_N (Pos.of_uint d)).
Proof.
  induction d; [reflexivity|assumption|..];
    cbn [NilEmpty.string_of_uint Pos.of_uint Z.of_N];
    rewrite <- atoi_loop_uint_acc; reflexivity.
Qed.

(** A non-negative number prints as a non-empty numeral without sign
    whose value is the number. *)
Lemma itoa_nonneg n : 0 <= n ->
  exists d, itoa n = NilEmpty.string_of_uint d /\ d <> Decimal.Nil /\
            Z.of_N (Pos.of_uint d) = n.
Proof.
  intros Hn. destruct n as [|p|p]; [| |lia].
  - exists (Decimal.D0 Decimal.Nil). repeat split; discriminate.
  - exists (Pos.to_uint p). repeat split.
    + apply DecimalPos.Unsigned.to_uint_nonnil.
    + rewrite DecimalPos.Unsigned.of_to. reflexivity.
Qed.

Lemma string_of_uint_nonempty d :
  d <> Decimal.Nil -> NilEmpty.string_of_uint d <> "".
Proof. destruct d; simpl; congruence. Qed.

Lemma Atoi_itoa n : 0 <= n <= max_int -> Atoi (itoa n) = Some n.
Proof.
  intros [Hn Hmax]. destruct (itoa_nonneg n Hn) as (d & -> & Hd & Hv).
  unfold Atoi. pose proof (string_of_uint_nonempty d Hd) as Hne.
  destruct (NilEmpty.string_of_uint d) eqn:E; [congruence|].
  rewrite <- E, atoi_loop_uint, Hv.
  destruct (Z.leb_spec n max_int); [reflexivity|lia].
Qed.
End Numerals.

(* ===================================================================== *)
(** ** Facts about the parser and the stringifier *)
(* ===================================================================== *)

Section Parser.
Import Go.

Lemma is_empty_false s : s <> "" -> is_empty s = false.
Proof. destruct s; [congruence|reflexivity]. Qed.

Lemma is_empty_true s : is_empty s = true -> s = "".
Proof. destruct s; [reflexivity|discriminate]. Qed.

Lemma append_String c s t : String c s ++ t = String c (s ++ t).
Proof. reflexivity. Qed.

Lemma append_empty_l t : "" ++ t = t.
Proof. reflexivity. Qed.

Lemma digits_span_stop s : no_digit_head s = true -> digits_span s = ("", s).
Proof.
  destruct s as [|c s]; simpl; [reflexivity|].
  destruct (is_digit c); [discriminate|reflexivity].
Qed.

Lemma digits_span_uint d tail :
  no_digit_head tail = true ->
  digits_span (NilEmpty.string_of_uint d ++ tail) = (NilEmpty.string_of_uint d, tail).
Proof.
  intros Ht. induction d; cbn [NilEmpty.string_of_uint];
    [apply digits_span_stop; assumption|..];
    rewrite append_String; cbn [digits_span]; rewrite IHd; reflexivity.
Qed.

Lemma digits_span_itoa n tail :
  0 <= n -> no_digit_head tail = true ->
  digits_span (itoa n ++ tail) = (itoa n, tail) /\ is_empty (itoa n) = false.
Proof.
  intros Hn Ht. destruct (itoa_nonneg n Hn) as (d & -> & Hd & _). split.
  - apply digits_span_uint; assumption.
  - apply is_empty_false, string_of_uint_nonempty; assumption.
Qed.

Lemma append_empty_r s : s ++ "" = s.
Proof.
  induction s as [|c s IH]; [reflexivity|].
  rewrite append_String, IH. reflexivity.
Qed.

(** What the regular expression yields: one of its three alternatives. *)
Lemma FindStringSubmatch_shape s m :
  versionRegexp_FindStringSubmatch s = Some m ->
  exists minor, minor <> "" /\
    (m = [s; "1"; minor; ""; ""; ""; ""; ""; ""] \/
     (exists patch, patch <> "" /\
        m = [s; "1"; minor; "." ++ patch; "." ++ patch; patch; ""; ""; ""]) \/
     (exists word rel, (word = "beta" \/ word = "rc") /\ rel <> "" /\
        m = [s; "1"; minor; word ++ rel; ""; ""; word ++ rel; word; rel])).
Proof.
  unfold versionRegexp_FindStringSubmatch.
  destruct (cut_prefix "1." s) as [r0|]; [|discriminate].
  destruct (digits_span r0) as [minor r1].
  destruct (is_empty minor) eqn:Hminor; [discriminate|].
  assert (minor <> "") by (intros ->; discriminate).
  destruct (is_empty r1).
  { intros [= <-]. exists minor. auto. }
  destruct (cut_prefix "." r1) as [r2|].
  { destruct (digits_span r2) as [patch r3].
    destruct (is_empty patch) eqn:Hpatch; [discriminate|].
    destruct (is_empty r3); [|discriminate].
    intros [= <-]. exists minor. split; [assumption|]. right; left.
    exists patch. split; [intros ->; discriminate|reflexivity]. }
  destruct (cut_prefix "beta" r1) as [r2|].
  { destruct (digits_span r2) as [rel r3].
    destruct (is_empty rel) eqn:Hrel; [discriminate|].
    destruct (is_empty r3); [|discriminate].
    intros [= <-]. exists minor. split; [assumption|]. right; right.
    exists "beta", rel. repeat split; [auto|intros ->; discriminate]. }
  destruct (cut_prefix "rc" r1) as [r2|]; [|discriminate].
  destruct (digits_span r2) as [rel r3].
  destruct (is_empty rel) eqn:Hrel; [discriminate|].
  destruct (is_empty r3); [|discriminate].
  intros [= <-]. exists minor. split; [assumption|]. right; right.
  exists "rc", rel. repeat split; [auto|intros ->; discriminate].
Qed.

(** The parser fails with the syntax error and no other. *)
Lemma ParseVersion_error s e : ParseVersion s = Err e -> e = ErrVersionSyntax.
Proof.
  unfold ParseVersion.
  repeat (match goal with
          | |- context [match ?x with _ => _ end] => destruct x
          | |- context [if ?x then _ else _] => destruct x
          end; try discriminate; try (intros [= <-]; reflexivity)).
Qed.

(** Everything the parser returns has the parsed shape. *)
Lemma ParseVersion_parsed s v : ParseVersion s = Ok v -> parsed v.
Proof.
  unfold ParseVersion. destruct (String.eqb s headVersion).
  { intros [= <-]. repeat split. }
  destruct (versionRegexp_FindStringSubmatch _) as [m|] eqn:Hm; [|discriminate].
  apply FindStringSubmatch_shape in Hm as (minor & Hminor & Hm).
  destruct Hm as [-> | [(patch & Hpatch & ->) | (word & rel & Hword & Hrel & ->)]];
    cbn [sub nth]; change (Atoi "1") with (Some 1);
    destruct (Atoi minor) as [mi|] eqn:Hmi; try discriminate;
    apply Atoi_range in Hmi.
  - intros [= <-]. unfold parsed; cbn [Type_ Major Minor Patch Release]. lia.
  - cbn [append is_empty]. rewrite (is_empty_false patch Hpatch). cbn [negb].
    destruct (Atoi patch) as [pa|] eqn:Hpa; [|discriminate].
    apply Atoi_range in Hpa. intros [= <-].
    unfold parsed; cbn [Type_ Major Minor Patch Release]. lia.
  - assert (is_empty (word ++ rel) = false) as -> by (destruct Hword as [-> | ->]; reflexivity).
    cbn [is_empty negb].
    destruct (Atoi rel) as [rn|] eqn:Hrn; [|discriminate].
    apply Atoi_range in Hrn. intros [= <-].
    destruct Hword as [-> | ->]; unfold parsed;
      cbn [String.eqb Ascii.eqb Bool.eqb Type_ Major Minor Patch Release]; lia.
Qed.

(** The regular expression on printed text, one lemma per alternative. *)
Lemma FindStringSubmatch_plain mi :
  0 <= mi ->
  versionRegexp_FindStringSubmatch ("1." ++ itoa mi) =
    Some ["1." ++ itoa mi; "1"; itoa mi; ""; ""; ""; ""; ""; ""].
Proof.
  intros Hmi.
  destruct (digits_span_itoa mi "" Hmi eq_refl) as [Hspan Hne].
  rewrite append_empty_r in Hspan.
  unfold versionRegexp_FindStringSubmatch.
  change (cut_prefix "1." ("1." ++ itoa mi)) with (Some (itoa mi)).
  cbv beta iota. rewrite Hspan, Hne. reflexivity.
Qed.

Lemma FindStringSubmatch_patch mi pa :
  0 <= mi -> 0 <= pa ->
  versionRegexp_FindStringSubmatch ("1." ++ itoa mi ++ "." ++ itoa pa) =
    Some ["1." ++ itoa mi ++ "." ++ itoa pa; "1"; itoa mi;
          "." ++ itoa pa; "." ++ itoa pa; itoa pa; ""; ""; ""].
Proof.
  intros Hmi Hpa.
  destruct (digits_span_itoa mi ("." ++ itoa pa) Hmi eq_refl) as [Hspan Hne].
  destruct (digits_span_itoa pa "" Hpa eq_refl) as [Hspan1 Hne1].
  rewrite append_empty_r in Hspan1.
  unfold versionRegexp_FindStringSubmatch.
  change (cut_prefix "1." ("1." ++ itoa mi ++ "." ++ itoa pa))
    with (Some (itoa mi ++ "." ++ itoa pa)).
  cbv beta iota. rewrite Hspan, Hne.
  change (is_empty ("." ++ itoa pa)) with false. cbv beta iota.
  change (cut_prefix "." ("." ++ itoa pa)) with (Some (itoa pa)).
  cbv beta iota. rewrite Hspan1, Hne1. reflexivity.
Qed.

Lemma FindStringSubmatch_beta mi rn :
  0 <= mi -> 0 <= rn ->
  versionRegexp_FindStringSubmatch ("1." ++ itoa mi ++ "beta" ++ itoa rn) =
    Some ["1." ++ itoa mi ++ "beta" ++ itoa rn; "1"; itoa mi;
          "beta" ++ itoa rn; ""; ""; "beta" ++ itoa rn; "beta"; itoa rn].
Proof.
  intros Hmi Hrn.
  destruct (digits_span_itoa mi ("beta" ++ itoa rn) Hmi eq_refl) as [Hspan Hne].
  destruct (digits_span_itoa rn "" Hrn eq_refl) as [Hspan1 Hne1].
  rewrite append_empty_r in Hspan1.
  unfold versionRegexp_FindStringSubmatch.
  change (cut_prefix "1." ("1." ++ itoa mi ++ "beta" ++ itoa rn))
    with (Some (itoa mi ++ "beta" ++ itoa rn)).
  cbv beta iota. rewrite Hspan, Hne.
  change (is_empty ("beta" ++ itoa rn)) with false. cbv beta iota.
  change (cut_prefix "." ("beta" ++ itoa rn)) with (@None string).
  change (cut_prefix "beta" ("beta" ++ itoa rn)) with (Some (itoa rn)).
  cbv beta iota zeta. rewrite Hspan1, Hne1. reflexivity.
Qed.

Lemma FindStringSubmatch_rc mi rn :
  0 <= mi -> 0 <= rn ->
  versionRegexp_FindStringSubmatch ("1." ++ itoa mi ++ "rc" ++ itoa rn) =
    Some ["1." ++ itoa mi ++ "rc" ++ itoa rn; "1"; itoa mi;
          "rc" ++ itoa rn; ""; ""; "rc" ++ itoa rn; "rc"; itoa rn].
Proof.
  intros Hmi Hrn.
  destruct (digits_span_itoa mi ("rc" ++ itoa rn) Hmi eq_refl) as [Hspan Hne].
  destruct (digits_span_itoa rn "" Hrn eq_refl) as [Hspan1 Hne1].
  rewrite append_empty_r in Hspan1.
  unfold versionRegexp_FindStringSubmatch.
  change (cut_prefix "1." ("1." ++ itoa mi ++ "rc" ++ itoa rn))
    with (Some (itoa mi ++ "rc" ++ itoa rn)).
  cbv beta iota. rewrite Hspan, Hne.
  change (is_empty ("rc" ++ itoa rn)) with false. cbv beta iota.
  change (cut_prefix "." ("rc" ++ itoa rn)) with (@None string).
  change (cut_prefix "beta" ("rc" ++ itoa rn)) with (@None string).
  change (cut_prefix "rc" ("rc" ++ itoa rn)) with (Some (itoa rn)).
  cbv beta iota zeta. rewrite Hspan1, Hne1. reflexivity.
Qed.

(** Parsing the canonical text of a parsed version gives the version
    back. *)
Lemma ParseVersion_String v : parsed v -> ParseVersion (Version_String v) = Ok v.
Proof.
  destruct v as [tp ma mi pa rn]. unfold parsed, Version_String.
  cbn [Type_ Major Minor Patch Release].
  destruct tp.
  - (* Stable *)
    intros (-> & Hmi & Hpa & ->).
    destruct (digits_span_itoa pa "" (proj1 Hpa) eq_refl) as [_ Hne].
    unfold ParseVersion. destruct (Z.gtb_spec pa 0).
    + change (String.eqb (itoa 1 ++ "." ++ itoa mi ++ "." ++ itoa pa) headVersion)
        with false.
      change (TrimPrefix (itoa 1 ++ "." ++ itoa mi ++ "." ++ itoa pa) "go")
        with ("1." ++ itoa mi ++ "." ++ itoa pa).
      cbv beta iota zeta. rewrite FindStringSubmatch_patch by lia.
      cbn [sub nth]. rewrite !Atoi_itoa by assumption.
      change (Atoi "1") with (Some 1).
      change (is_empty ("." ++ itoa pa)) with false. rewrite Hne. reflexivity.
    + assert (pa = 0) as -> by lia.
      change (String.eqb (itoa 1 ++ "." ++ itoa mi) headVersion) with false.
      change (TrimPrefix (itoa 1 ++ "." ++ itoa mi) "go") with ("1." ++ itoa mi).
      cbv beta iota zeta. rewrite FindStringSubmatch_plain by lia.
      cbn [sub nth]. rewrite !Atoi_itoa by assumption. reflexivity.
  - (* Beta *)
    intros (-> & Hmi & -> & Hrn).
    unfold ParseVersion.
    change (String.eqb (itoa 1 ++ "." ++ itoa mi ++ "beta" ++ itoa rn) headVersion)
      with false.
    change (TrimPrefix (itoa 1 ++ "." ++ itoa mi ++ "beta" ++ itoa rn) "go")
      with ("1." ++ itoa mi ++ "beta" ++ itoa rn).
    cbv beta iota zeta. rewrite FindStringSubmatch_beta by lia.
    cbn [sub nth]. rewrite !Atoi_itoa by assumption. reflexivity.
  - (* RC *)
    intros (-> & Hmi & -> & Hrn).
    unfold ParseVersion.
    change (String.eqb (itoa 1 ++ "." ++ itoa mi ++ "rc" ++ itoa rn) headVersion)
      with false.
    change (TrimPrefix (itoa 1 ++ "." ++ itoa mi ++ "rc" ++ itoa rn) "go")
      with ("1." ++ itoa mi ++ "rc" ++ itoa rn).
    cbv beta iota zeta. rewrite FindStringSubmatch_rc by lia.
    cbn [sub nth]. rewrite !Atoi_itoa by assumption. reflexivity.
  - (* Head *)
    intros (-> & -> & -> & ->). reflexivity.
Qed.

(** The stringifier is injective on parsed versions. *)
Lemma Version_String_inj x y :
  parsed x -> parsed y -> Version_String x = Version_String y -> x = y.
Proof.
  intros Hx Hy E. apply ParseVersion_String in Hx, Hy.
  rewrite E in Hx. congruence.
Qed.
End Parser.

(* ===================================================================== *)
(** ** The matcher and the regular expression *)
(* ===================================================================== *)

Section Regexp.
Import Go.

Lemma cut_prefix_Some p : forall s r, cut_prefix p s = Some r <-> s = p ++ r.
Proof.
  induction p as [|a p IH]; intros s r; cbn.
  - rewrite append_empty_l. split; congruence.
  - rewrite append_String. destruct s as [|b s].
    + split; discriminate.
    + destruct (Ascii.eqb_spec a b) as [<-|Hne].
      * rewrite IH. split; [intros ->; reflexivity|intros [= ->]; reflexivity].
      * split; [discriminate|]. intros [= -> _]. congruence.
Qed.

Lemma digits_span_spec s : forall d r,
  digits_span s = (d, r) ->
  s = d ++ r /\ all_digits d = true /\ no_digit_head r = true.
Proof.
  induction s as [|c s IH]; intros d r; cbn.
  - intros [= <- <-]. repeat split.
  - destruct (is_digit c) eqn:Hc.
    + destruct (digits_span s) as [d' r']. intros [= <- <-].
      destruct (IH d' r' eq_refl) as (-> & Hd & Hr).
      rewrite append_String. cbn. rewrite Hc, Hd. repeat split. exact Hr.
    + intros [= <- <-]. rewrite append_empty_l. cbn. rewrite Hc. repeat split.
Qed.

Lemma digits_span_app d r :
  all_digits d = true -> no_digit_head r = true -> digits_span (d ++ r) = (d, r).
Proof.
  intros Hd Hr. induction d as [|c d IH].
  - rewrite append_empty_l. apply digits_span_stop, Hr.
  - cbn in Hd. apply andb_true_iff in Hd as [Hc Hd].
    rewrite append_String. cbn [digits_span]. rewrite Hc, (IH Hd). reflexivity.
Qed.

Lemma digits_span_all d : all_digits d = true -> digits_span d = (d, "").
Proof.
  intros Hd. pose proof (digits_span_app d "" Hd eq_refl) as H.
  rewrite append_empty_r in H. exact H.
Qed.

Lemma matches_Class p s :
  matches (Class p) s <-> exists c, s = String c "" /\ p c = true.
Proof.
  split.
  - inversion 1; subst. eauto.
  - intros (c & -> & Hc). constructor. exact Hc.
Qed.

(** [[0-9]+] matches the non-empty runs of digits. *)
Lemma matches_digits s : matches (Plus (Class is_digit)) s <-> digits1 s.
Proof.
  unfold digits1. split.
  - intros H. remember (Plus (Class is_digit)) as r eqn:Er.
    induction H as [| | | | | | |r s H _|r s1 s2 H1 _ H2 IH2]; try discriminate;
      injection Er as ->.
    + apply matches_Class in H as (c & -> & Hc).
      cbn. rewrite Hc. split; [discriminate|reflexivity].
    + apply matches_Class in H1 as (c & -> & Hc). destruct (IH2 eq_refl) as [_ Hd].
      rewrite append_String, append_empty_l. cbn. rewrite Hc, Hd.
      split; [discriminate|reflexivity].
  - intros [Hne Hd]. induction s as [|c s IH]; [congruence|].
    cbn in Hd. apply andb_true_iff in Hd as [Hc Hd].
    destruct s as [|c' s'].
    + apply matches_plus_one, matches_class, Hc.
    + change (String c (String c' s')) with (String c "" ++ String c' s').
      apply matches_plus_more; [apply matches_class, Hc|].
      apply IH; [discriminate|exact Hd].
Qed.

Lemma matches_Lit text s : matches (Lit text) s <-> s = text.
Proof. split; [inversion 1; reflexivity|intros ->; constructor]. Qed.

Lemma matches_Seq r1 r2 s :
  matches (Seq r1 r2) s <-> exists s1 s2, s = s1 ++ s2 /\ matches r1 s1 /\ matches r2 s2.
Proof.
  split.
  - inversion 1; subst. eauto.
  - intros (s1 & s2 & -> & H1 & H2). constructor; assumption.
Qed.

Lemma matches_Alt r1 r2 s : matches (Alt r1 r2) s <-> matches r1 s \/ matches r2 s.
Proof.
  split.
  - inversion 1; subst; auto.
  - intros [H | H]; [apply matches_alt_l|apply matches_alt_r]; exact H.
Qed.

Lemma matches_Opt r s : matches (Opt r) s <-> s = "" \/ matches r s.
Proof.
  split.
  - inversion 1; subst; auto.
  - intros [-> | H]; [apply matches_opt_none|apply matches_opt_some, H].
Qed.

(** The texts of the version grammar: "1.", a minor number, and then
    nothing, a dot and a patch number, or "beta" or "rc" and a release
    number. *)
Lemma matches_versionRegexp s :
  matches versionRegexp s <->
  exists minor tail, s = "1." ++ minor ++ tail /\ digits1 minor /\
    (tail = "" \/
     (exists patch, tail = "." ++ patch /\ digits1 patch) \/
     (exists word rel, (word = "beta" \/ word = "rc") /\
                       tail = word ++ rel /\ digits1 rel)).
Proof.
  unfold versionRegexp. split.
  - intros H.
    apply matches_Seq in H as (s1 & s2 & -> & H1 & H).
    apply matches_Lit in H1 as ->.
    apply matches_Seq in H as (s1 & s3 & -> & H1 & H).
    apply matches_Lit in H1 as ->.
    apply matches_Seq in H as (minor & tail & -> & Hminor & H).
    apply matches_digits in Hminor.
    exists minor, tail. split; [reflexivity|]. split; [exact Hminor|].
    apply matches_Opt in H as [-> | H]; [left; reflexivity|right].
    apply matches_Alt in H as [H | H].
    + left. apply matches_Seq in H as (s1 & patch & -> & H1 & H).
      apply matches_Lit in H1 as ->. apply matches_digits in H. eauto.
    + right. apply matches_Seq in H as (word & rel & -> & H1 & H).
      apply matches_digits in H. exists word, rel.
      apply matches_Alt in H1. rewrite !matches_Lit in H1. auto.
  - intros (minor & tail & -> & Hminor & Htail).
    change ("1." ++ minor ++ tail) with ("1" ++ "." ++ minor ++ tail).
    apply matches_seq; [constructor|]. apply matches_seq; [constructor|].
    apply matches_seq; [apply matches_digits, Hminor|].
    destruct Htail as [-> | [(patch & -> & Hpatch) | (word & rel & Hword & -> & Hrel)]].
    + apply matches_opt_none.
    + apply matches_opt_some, matches_alt_l.
      apply matches_seq; [constructor|apply matches_digits, Hpatch].
    + apply matches_opt_some, matches_alt_r.
      apply matches_seq; [|apply matches_digits, Hrel].
      destruct Hword as [-> | ->]; [apply matches_alt_l|apply matches_alt_r]; constructor.
Qed.

(** The matcher finds a match exactly on the texts the regular expression
    matches. *)
Lemma FindStringSubmatch_matches s :
  (exists m, versionRegexp_FindStringSubmatch s = Some m) <-> matches versionRegexp s.
Proof.
  rewrite matches_versionRegexp. unfold versionRegexp_FindStringSubmatch. split.
  - intros [m H].
    destruct (cut_prefix "1." s) as [r0|] eqn:H0; [|discriminate].
    apply cut_prefix_Some in H0 as ->.
    destruct (digits_span r0) as [minor r1] eqn:Hspan.
    apply digits_span_spec in Hspan as (-> & Hminor & Hr1).
    destruct (is_empty minor) eqn:Hne; [discriminate|].
    assert (digits1 minor) by (split; [intros ->; discriminate|exact Hminor]).
    exists minor, r1. split; [reflexivity|]. split; [assumption|].
    destruct (is_empty r1) eqn:Hr1e; [left; apply is_empty_true, Hr1e|right].
    destruct (cut_prefix "." r1) as [r2|] eqn:H2.
    { apply cut_prefix_Some in H2 as ->.
      destruct (digits_span r2) as [patch r3] eqn:Hspan2.
      apply digits_span_spec in Hspan2 as (-> & Hpatch & _).
      destruct (is_empty patch) eqn:Hpe; [discriminate|].
      destruct (is_empty r3) eqn:Hr3; [|discriminate].
      apply is_empty_true in Hr3 as ->. rewrite append_empty_r.
      left. exists patch. split; [reflexivity|].
      split; [intros ->; discriminate|exact Hpatch]. }
    right.
    destruct (cut_prefix "beta" r1) as [r2|] eqn:Hb.
    { apply cut_prefix_Some in Hb as ->.
      destruct (digits_span r2) as [rel r3] eqn:Hspan2.
      apply digits_span_spec in Hspan2 as (-> & Hrel & _).
      destruct (is_empty rel) eqn:Hre; [discriminate|].
      destruct (is_empty r3) eqn:Hr3; [|discriminate].
      apply is_empty_true in Hr3 as ->. rewrite append_empty_r.
      exists "beta", rel. split; [auto|]. split; [reflexivity|].
      split; [intros ->; discriminate|exact Hrel]. }
    destruct (cut_prefix "rc" r1) as [r2|] eqn:Hc; [|discriminate].
    apply cut_prefix_Some in Hc as ->.
    destruct (digits_span r2) as [rel r3] eqn:Hspan2.
    apply digits_span_spec in Hspan2 as (-> & Hrel & _).
    destruct (is_empty rel) eqn:Hre; [discriminate|].
    destruct (is_empty r3) eqn:Hr3; [|discriminate].
    apply is_empty_true in Hr3 as ->. rewrite append_empty_r.
    exists "rc", rel. split; [auto|]. split; [reflexivity|].
    split; [intros ->; discriminate|exact Hrel].
  - intros (minor & tail & -> & [Hne Hminor] & Htail).
    change (cut_prefix "1." ("1." ++ minor ++ tail)) with (Some (minor ++ tail)).
    cbv beta iota.
    assert (no_digit_head tail = true) as Hhead.
    { destruct Htail as [-> | [(patch & -> & _) | (word & rel & [-> | ->] & -> & _)]];
        reflexivity. }
    rewrite (digits_span_app minor tail Hminor Hhead).
    rewrite (is_empty_false minor Hne).
    destruct Htail as [-> | [(patch & -> & [Hpne Hpatch]) |
                             (word & rel & Hword & -> & [Hrne Hrel])]].
    + eexists. reflexivity.
    + change (is_empty ("." ++ patch)) with false. cbv beta iota.
      change (cut_prefix "." ("." ++ patch)) with (Some patch). cbv beta iota.
      rewrite (digits_span_all patch Hpatch), (is_empty_false patch Hpne).
      eexists. reflexivity.
    + destruct Hword as [-> | ->].
      * change (is_empty ("beta" ++ rel)) with false. cbv beta iota.
        change (cut_prefix "." ("beta" ++ rel)) with (@None string).
        change (cut_prefix "beta" ("beta" ++ rel)) with (Some rel). cbv beta iota zeta.
        rewrite (digits_span_all rel Hrel), (is_empty_false rel Hrne).
        eexists. reflexivity.
      * change (is_empty ("rc" ++ rel)) with false. cbv beta iota.
        change (cut_prefix "." ("rc" ++ rel)) with (@None string).
        change (cut_prefix "beta" ("rc" ++ rel)) with (@None string).
        change (cut_prefix "rc" ("rc" ++ rel)) with (Some rel). cbv beta iota zeta.
        rewrite (digits_span_all rel Hrel), (is_empty_false rel Hrne).
        eexists. reflexivity.
Qed.

(** Hence the parser accepts, besides the head sentinel, exactly the texts
    that match the regular expression once a leading "go" is taken off and
    whose numbers fit Go's [int]. *)
Lemma ParseVersion_no_match s :
  s <> headVersion -> ~ matches versionRegexp (TrimPrefix s "go") ->
  ParseVersion s = Err ErrVersionSyntax.
Proof.
  intros Hs Hm. unfold ParseVersion.
  destruct (String.eqb_spec s headVersion); [congruence|].
  destruct (versionRegexp_FindStringSubmatch (TrimPrefix s "go")) as [m|] eqn:E;
    [|reflexivity].
  exfalso. apply Hm, FindStringSubmatch_matches. eauto.
Qed.

End Regexp.

(* ===================================================================== *)
(** ** Facts about the comparator *)
(* ===================================================================== *)

Section Comparator.

Lemma compareInt_spec a b :
  (a < b -> compareInt a b = -1) /\
  (a = b -> compareInt a b = 0) /\
  (b < a -> compareInt a b = 1).
Proof.
  unfold compareInt.
  destruct (Z.gtb_spec a b), (Z.ltb_spec a b); repeat split; intros; lia.
Qed.

Lemma compareInt_sgn a b : compareInt a b = Z.sgn (a - b).
Proof.
  unfold compareInt. destruct (Z.gtb_spec a b), (Z.ltb_spec a b); lia.
Qed.

Ltac split_ints :=
  repeat match goal with
         | |- context [Z.eqb ?a ?b] => destruct (Z.eqb_spec a b)
         | |- context [Z.gtb ?a ?b] => destruct (Z.gtb_spec a b)
         | |- context [Z.ltb ?a ?b] => destruct (Z.ltb_spec a b)
         end.

Lemma CompareVersion_key x y :
  CompareVersion x y = lex_compare (sort_key x) (sort_key y).
Proof.
  destruct x as [tx ? ? ? ?], y as [ty ? ? ? ?].
  unfold CompareVersion, sort_key, trailing.
  destruct tx, ty; cbn; split_ints; cbn; rewrite ?compareInt_sgn; try lia; try reflexivity.
Qed.

Lemma sort_key_length v : length (sort_key v) = 5%nat.
Proof. unfold sort_key. destruct (Type_ v); reflexivity. Qed.

Lemma lex_compare_values k1 k2 :
  lex_compare k1 k2 = -1 \/ lex_compare k1 k2 = 0 \/ lex_compare k1 k2 = 1.
Proof.
  revert k2. induction k1 as [|a k1 IH]; intros [|b k2]; cbn; auto.
  destruct (Z.eqb_spec a b); [apply IH|].
  rewrite compareInt_sgn. lia.
Qed.

Lemma lex_compare_refl k : lex_compare k k = 0.
Proof. induction k as [|a k IH]; cbn; [reflexivity|]. rewrite Z.eqb_refl. exact IH. Qed.

Lemma lex_compare_antisym k1 k2 : lex_compare k2 k1 = - lex_compare k1 k2.
Proof.
  revert k2. induction k1 as [|a k1 IH]; intros [|b k2]; cbn; try reflexivity.
  destruct (Z.eqb_spec a b), (Z.eqb_spec b a); try apply IH; try congruence.
  rewrite !compareInt_sgn. lia.
Qed.

Lemma lex_compare_trans k1 : forall k2 k3,
  lex_compare k1 k2 < 0 -> lex_compare k2 k3 < 0 -> lex_compare k1 k3 < 0.
Proof.
  induction k1 as [|a k1 IH]; intros [|b k2] [|c k3]; cbn; try lia.
  destruct (Z.eqb_spec a b), (Z.eqb_spec b c), (Z.eqb_spec a c);
    rewrite ?compareInt_sgn; try lia.
  apply IH.
Qed.

Lemma lex_compare_eq k1 : forall k2,
  length k1 = length k2 -> lex_compare k1 k2 = 0 -> k1 = k2.
Proof.
  induction k1 as [|a k1 IH]; intros [|b k2]; cbn; try discriminate; [reflexivity|].
  intros [= Hlen]. destruct (Z.eqb_spec a b).
  - intros H. f_equal; [assumption|]. apply IH; assumption.
  - rewrite compareInt_sgn. lia.
Qed.

Lemma CompareVersion_zero_key x y :
  CompareVersion x y = 0 <-> sort_key x = sort_key y.
Proof.
  rewrite CompareVersion_key. split.
  - apply lex_compare_eq. rewrite !sort_key_length. reflexivity.
  - intros ->. apply lex_compare_refl.
Qed.

(** On parsed versions the sort key determines the version. *)
Lemma sort_key_inj x y : parsed x -> parsed y -> sort_key x = sort_key y -> x = y.
Proof.
  destruct x as [tx ? ? ? ?], y as [ty ? ? ? ?].
  unfold parsed, sort_key, trailing. cbn [Type_ Major Minor Patch Release].
  destruct tx, ty; cbn [rank]; intros Hx Hy [=]; subst;
    try (f_equal; lia).
Qed.

End Comparator.

(* ===================================================================== *)
(** ** The version properties of the specification *)
(* ===================================================================== *)

(** Round trip, for every text: what the parser returns prints to a text
    that parses to the same version. *)
Lemma ParseVersion_roundtrip s v :
  ParseVersion s = Ok v -> ParseVersion (Version_String v) = Ok v.
Proof. intros H. apply ParseVersion_String, (ParseVersion_parsed s), H. Qed.

(** The current grammar takes a patch or a beta/rc suffix, not both: the two
    canonical strings that carry both are not versions. *)
Example parse_patch_and_suffix :
  ParseVersion "1.14.1beta4" = Err ErrVersionSyntax /\
  ParseVersion "1.13.14rc15" = Err ErrVersionSyntax.
Proof. split; reflexivity. Qed.

(** C2. For each of the strings "1.16", "1.15.10", "1.16beta3", "1.15rc10",
    "1.14.1beta4", "1.13.14rc15" and the head sentinel "go-head": whenever
    ParseVersion succeeds on it with a version v, parsing String(v) succeeds
    and gives v again. *)
Theorem ParseVersion_String_canonical (s : string) (v : Version) :
  In s ["1.16"; "1.15.10"; "1.16beta3"; "1.15rc10"; "1.14.1beta4";
        "1.13.14rc15"; headVersion] ->
  ParseVersion s = Ok v ->
  ParseVersion (Version_String v) = Ok v.
Proof. intros _. apply ParseVersion_roundtrip. Qed.

Lemma ParseVersion_String_canonical_witness :
  ParseVersion "1.15.10" = Ok (mkVersion Stable 1 15 10 0) /\
  Version_String (mkVersion Stable 1 15 10 0) = "1.15.10" /\
  ParseVersion (Version_String (mkVersion Stable 1 15 10 0))
    = Ok (mkVersion Stable 1 15 10 0).
Proof.
  split; [reflexivity|]. split; [reflexivity|].
  apply (ParseVersion_String_canonical "1.15.10").
  - simpl. tauto.
  - reflexivity.
Defined.

(** The versions the canonical strings stand for, and their texts. *)
Example canonical_versions :
  ParseVersion "1.16" = Ok (mkVersion Stable 1 16 0 0) /\
  ParseVersion "1.16beta3" = Ok (mkVersion Beta 1 16 0 3) /\
  ParseVersion "1.15rc10" = Ok (mkVersion RC 1 15 0 10) /\
  ParseVersion headVersion = Ok (mkVersion Head 0 0 0 0) /\
  Version_String (mkVersion Stable 1 16 0 0) = "1.16" /\
  Version_String (mkVersion Beta 1 16 0 3) = "1.16beta3" /\
  Version_String (mkVersion RC 1 15 0 10) = "1.15rc10" /\
  Version_String (mkVersion Head 0 0 0 0) = "go-head".
Proof. repeat split. Qed.

(** Loose input: "1.16.0" parses, to the version whose text is "1.16". *)
Example parse_explicit_zero_patch :
  ParseVersion "1.16.0" = Ok (mkVersion Stable 1 16 0 0) /\
  Version_String (mkVersion Stable 1 16 0 0) = "1.16".
Proof. split; reflexivity. Qed.

(** C4. ParseVersion fails with ErrVersionSyntax on each of "1.16.",
    "1.15.10.", "1.16beta", "1.15xxx10", "1.15..10", "1.2.3.4", "10" and
    "-head". *)
Theorem ParseVersion_rejects_malformed :
  ParseVersion "1.16." = Err ErrVersionSyntax /\
  ParseVersion "1.15.10." = Err ErrVersionSyntax /\
  ParseVersion "1.16beta" = Err ErrVersionSyntax /\
  ParseVersion "1.15xxx10" = Err ErrVersionSyntax /\
  ParseVersion "1.15..10" = Err ErrVersionSyntax /\
  ParseVersion "1.2.3.4" = Err ErrVersionSyntax /\
  ParseVersion "10" = Err ErrVersionSyntax /\
  ParseVersion "-head" = Err ErrVersionSyntax.
Proof. repeat split. Qed.

(** The same inputs as the test table spells them, with the "go" prefix. *)
Example ParseVersion_rejects_prefixed :
  Forall (fun s => ParseVersion s = Err ErrVersionSyntax)
    ["go--head"; "go1.16."; "go1.15.10."; "go1.16beta"; "go1.15xxx10";
     "go1.15..10"; "go1.2.3.4"; "go10"].
Proof. repeat constructor. Qed.

(** C3. CompareVersion, case by case: Head against Head is 0, Head is
    above and below nothing else; otherwise major decides, then minor, both
    numerically; with these equal and the kinds different the rank
    Stable > RC > Beta decides; with equal kinds the patch decides between
    Stable versions and the release number between Beta or RC versions. *)
Theorem CompareVersion_cases (x y : Version) :
  (Type_ x = Head -> Type_ y = Head -> CompareVersion x y = 0) /\
  (Type_ x = Head -> Type_ y <> Head -> CompareVersion x y = 1) /\
  (Type_ x <> Head -> Type_ y = Head -> CompareVersion x y = -1) /\
  (Type_ x <> Head -> Type_ y <> Head ->
     (Major x <> Major y ->
        CompareVersion x y = compareInt (Major x) (Major y)) /\
     (Major x = Major y -> Minor x <> Minor y ->
        CompareVersion x y = compareInt (Minor x) (Minor y)) /\
     (Major x = Major y -> Minor x = Minor y -> Type_ x <> Type_ y ->
        CompareVersion x y = compareInt (rank (Type_ x)) (rank (Type_ y))) /\
     (Major x = Major y -> Minor x = Minor y ->
      Type_ x = Stable -> Type_ y = Stable ->
        CompareVersion x y = compareInt (Patch x) (Patch y)) /\
     (Major x = Major y -> Minor x = Minor y ->
      Type_ x = Type_ y -> Type_ x <> Stable ->
        CompareVersion x y = compareInt (Release x) (Release y))) /\
  (forall a b : Z,
     (a < b -> compareInt a b = -1) /\
     (a = b -> compareInt a b = 0) /\
     (b < a -> compareInt a b = 1)).
Proof.
  destruct x as [tx ? ? ? ?], y as [ty ? ? ? ?].
  unfold CompareVersion. cbn [Type_ Major Minor Patch Release].
  split; [|split; [|split; [|split; [|apply compareInt_spec]]]];
  repeat split; intros;
    destruct tx, ty; try congruence; cbn;
    repeat match goal with
           | |- context [Z.eqb ?a ?b] => destruct (Z.eqb_spec a b)
           end; cbn; try congruence; try reflexivity.
Qed.

Lemma CompareVersion_cases_witness :
  CompareVersion (mkVersion Stable 1 16 0 0) (mkVersion RC 1 16 0 1) = 1 /\
  CompareVersion (mkVersion RC 1 16 0 1) (mkVersion Beta 1 16 0 1) = 1 /\
  CompareVersion (mkVersion Head 0 0 0 0) (mkVersion Stable 1 16 0 0) = 1 /\
  CompareVersion (mkVersion Stable 1 15 9 0) (mkVersion Stable 1 15 10 0) = -1.
Proof.
  split; [|split; [|split]].
  - destruct (CompareVersion_cases (mkVersion Stable 1 16 0 0) (mkVersion RC 1 16 0 1))
      as (_ & _ & _ & H & _).
    destruct H as (_ & _ & H & _); [discriminate|discriminate|].
    rewrite H; [reflexivity|reflexivity|reflexivity|discriminate].
  - destruct (CompareVersion_cases (mkVersion RC 1 16 0 1) (mkVersion Beta 1 16 0 1))
      as (_ & _ & _ & H & _).
    destruct H as (_ & _ & H & _); [discriminate|discriminate|].
    rewrite H; [reflexivity|reflexivity|reflexivity|discriminate].
  - destruct (CompareVersion_cases (mkVersion Head 0 0 0 0) (mkVersion Stable 1 16 0 0))
      as (_ & H & _).
    apply H; [reflexivity|discriminate].
  - destruct (CompareVersion_cases (mkVersion Stable 1 15 9 0) (mkVersion Stable 1 15 10 0))
      as (_ & _ & _ & H & _).
    destruct H as (_ & _ & _ & H & _); [discriminate|discriminate|].
    rewrite H; reflexivity.
Defined.

(** Equality under the comparator, on parsed versions, is identity and is
    equality of the canonical texts. *)
Lemma EqualVersion_parsed x y :
  parsed x -> parsed y ->
  (EqualVersion x y = true <-> x = y) /\
  (EqualVersion x y = true <-> Version_String x = Version_String y).
Proof.
  intros Hx Hy. unfold EqualVersion. rewrite Z.eqb_eq, CompareVersion_zero_key.
  assert (sort_key x = sort_key y <-> x = y) as Hkey.
  { split; [apply sort_key_inj; assumption|congruence]. }
  split; [exact Hkey|]. rewrite Hkey. split; [congruence|].
  apply Version_String_inj; assumption.
Qed.

(** C5. CompareVersion takes the values -1, 0, 1 and is a strict total
    order: no version is below itself, swapping the arguments negates the
    result (so exactly one of below, equal, above holds), below is
    transitive, and versions that compare equal compare alike with every
    third one, which makes it a consistent sort key.  For versions produced
    by the parser, EqualVersion(x, y) holds exactly when x and y are the
    same version, and exactly when String(x) = String(y). *)
Theorem CompareVersion_strict_total_order :
  (forall x y, CompareVersion x y = -1 \/ CompareVersion x y = 0 \/
               CompareVersion x y = 1) /\
  (forall x, CompareVersion x x = 0) /\
  (forall x y, CompareVersion y x = - CompareVersion x y) /\
  (forall x y z, CompareVersion x y < 0 -> CompareVersion y z < 0 ->
                 CompareVersion x z < 0) /\
  (forall x y z, CompareVersion x y = 0 ->
                 CompareVersion x z = CompareVersion y z /\
                 CompareVersion z x = CompareVersion z y) /\
  (forall s1 s2 x y, ParseVersion s1 = Ok x -> ParseVersion s2 = Ok y ->
     (EqualVersion x y = true <-> x = y) /\
     (EqualVersion x y = true <-> Version_String x = Version_String y) /\
     (x <> y -> CompareVersion x y < 0 \/ CompareVersion y x < 0)).
Proof.
  repeat apply conj.
  - intros x y. rewrite CompareVersion_key. apply lex_compare_values.
  - intros x. rewrite CompareVersion_key. apply lex_compare_refl.
  - intros x y. rewrite !CompareVersion_key. apply lex_compare_antisym.
  - intros x y z. rewrite !CompareVersion_key. apply lex_compare_trans.
  - intros x y z H. apply CompareVersion_zero_key in H.
    rewrite !CompareVersion_key, H. split; reflexivity.
  - intros s1 s2 x y Hx Hy.
    apply ParseVersion_parsed in Hx, Hy.
    destruct (EqualVersion_parsed x y Hx Hy) as [Heq Hstr].
    split; [exact Heq|]. split; [exact Hstr|]. intros Hne.
    assert (CompareVersion x y <> 0) as Hnz.
    { intros E. apply Hne, Heq. unfold EqualVersion. rewrite E. reflexivity. }
    pose proof (lex_compare_values (sort_key x) (sort_key y)) as Hv.
    pose proof (lex_compare_antisym (sort_key x) (sort_key y)) as Ha.
    rewrite !CompareVersion_key in *. lia.
Qed.

Lemma CompareVersion_strict_total_order_witness :
  CompareVersion (mkVersion Beta 1 16 0 1) (mkVersion Stable 1 16 0 0) < 0 /\
  (EqualVersion (mkVersion Stable 1 16 0 0) (mkVersion Stable 1 16 0 0) = true <->
   Version_String (mkVersion Stable 1 16 0 0) = Version_String (mkVersion Stable 1 16 0 0)).
Proof.
  destruct CompareVersion_strict_total_order as (_ & _ & _ & Htrans & _ & Hparse).
  split.
  - apply (Htrans _ (mkVersion RC 1 16 0 1)); reflexivity.
  - apply (Hparse "1.16" "go1.16.0"); reflexivity.
Defined.

(** The orderings the specification lists. *)
Example ordering_examples :
  CompareVersion (mkVersion Stable 1 16 0 0) (mkVersion RC 1 16 0 1) = 1 /\
  CompareVersion (mkVersion RC 1 16 0 1) (mkVersion Beta 1 16 0 1) = 1 /\
  CompareVersion (mkVersion Stable 1 15 10 0) (mkVersion Stable 1 15 9 0) = 1 /\
  CompareVersion (mkVersion Stable 1 15 9 0) (mkVersion Stable 1 14 99 0) = 1.
Proof. repeat split. Qed.

(** Off the parser's range the comparator equates versions that differ:
    its equality is about the fields it reads. *)
Example EqualVersion_unparsed :
  EqualVersion (mkVersion Head 0 0 0 0) (mkVersion Head 1 2 3 4) = true /\
  EqualVersion (mkVersion Stable 1 16 0 0) (mkVersion Stable 1 16 0 7) = true.
Proof. split; reflexivity. Qed.

(* ===================================================================== *)
(** ** Sorting *)
(* ===================================================================== *)

Section SortFacts.
Context {A : Type} (less : A -> A -> bool).

Lemma sort_insert_Permutation x l : Permutation (Go.sort_insert less x l) (x :: l).
Proof.
  induction l as [|y l IH]; cbn; [reflexivity|].
  destruct (less x y); [reflexivity|].
  rewrite IH. apply perm_swap.
Qed.

Lemma sort_Slice_Permutation l : Permutation (Go.sort_Slice less l) l.
Proof.
  induction l as [|x l IH]; cbn; [reflexivity|].
  rewrite sort_insert_Permutation. constructor. exact IH.
Qed.

Lemma sort_Slice_In x l : In x (Go.sort_Slice less l) <-> In x l.
Proof.
  split; apply Permutation_in;
    [|symmetry]; apply sort_Slice_Permutation.
Qed.

Lemma sort_Slice_nil l : Go.sort_Slice less l = [] -> l = [].
Proof.
  intros H. apply Permutation_nil. rewrite <- H.
  apply sort_Slice_Permutation.
Qed.

End SortFacts.

(* ===================================================================== *)
(** ** Loading the catalog *)
(* ===================================================================== *)

Section Convert.
Variables GOOS GOARCH : string.

Lemma targetRelease_spec f :
  targetRelease GOOS GOARCH f = true <->
  remoteFile.OS f = GOOS /\ remoteFile.Kind f = "archive" /\
  remoteFile.Arch f = target_arch GOARCH.
Proof.
  unfold targetRelease, target_arch.
  destruct (String.eqb_spec (remoteFile.OS f) GOOS),
           (String.eqb_spec (remoteFile.Kind f) "archive"); cbn;
    try (split; [discriminate|tauto]).
  destruct (String.eqb_spec
              (remoteFile.Arch f)
              (if String.eqb GOARCH "arm" then "armv6l" else GOARCH)); cbn;
    [tauto|split; [discriminate|tauto]].
Qed.

Lemma convert_files_skip r files rls :
  List.filter (targetRelease GOOS GOARCH) files = [] ->
  convert_files GOOS GOARCH r files rls = Ok rls.
Proof.
  revert rls. induction files as [|f files IH]; intros rls; cbn; [reflexivity|].
  destruct (targetRelease GOOS GOARCH f); cbn; [discriminate|]. apply IH.
Qed.

Lemma convert_files_ok r v files rls :
  record_version r = Ok v ->
  convert_files GOOS GOARCH r files rls =
    Ok (rls ++ map (release_of r v) (List.filter (targetRelease GOOS GOARCH) files))%list.
Proof.
  intros Hv. revert rls. induction files as [|f files IH]; intros rls; cbn.
  - rewrite app_nil_r. reflexivity.
  - destruct (targetRelease GOOS GOARCH f); cbn; [|apply IH].
    fold (record_version r). rewrite Hv, IH, <- app_assoc. reflexivity.
Qed.

Lemma convert_files_err r e files rls :
  record_version r = Err e ->
  List.filter (targetRelease GOOS GOARCH) files <> [] ->
  convert_files GOOS GOARCH r files rls = Err e.
Proof.
  intros He. revert rls. induction files as [|f files IH]; intros rls; cbn;
    [congruence|].
  destruct (targetRelease GOOS GOARCH f); cbn; [|apply IH].
  fold (record_version r). rewrite He. reflexivity.
Qed.

(** One record of the listing: its entries are appended, or its version
    text is malformed and a file of it matches. *)
Lemma convert_files_record r rls :
  (convert_files GOOS GOARCH r (remoteRelease.Files r) rls
     = Ok (rls ++ kept_of GOOS GOARCH r)%list /\
   (List.filter (targetRelease GOOS GOARCH) (remoteRelease.Files r) = [] \/
    exists v, record_version r = Ok v)) \/
  (convert_files GOOS GOARCH r (remoteRelease.Files r) rls = Err ErrVersionSyntax /\
   List.filter (targetRelease GOOS GOARCH) (remoteRelease.Files r) <> [] /\
   record_version r = Err ErrVersionSyntax).
Proof.
  unfold kept_of. destruct (record_version r) as [v|e] eqn:Hv.
  - left. split; [apply convert_files_ok; assumption|eauto].
  - assert (e = ErrVersionSyntax) as -> by (eapply ParseVersion_error; exact Hv).
    destruct (List.filter (targetRelease GOOS GOARCH) (remoteRelease.Files r)) eqn:Hf.
    + left. rewrite app_nil_r. split; [apply convert_files_skip; assumption|auto].
    + right. split; [|split; [congruence|reflexivity]].
      apply convert_files_err; [assumption|congruence].
Qed.

Lemma convert_records_spec releases : forall rls,
  (convert_records GOOS GOARCH releases rls
     = Ok (rls ++ kept_entries GOOS GOARCH releases)%list /\
   forall r, In r releases -> ~ bad_record GOOS GOARCH r) \/
  (convert_records GOOS GOARCH releases rls = Err ErrVersionSyntax /\
   exists r, In r releases /\ bad_record GOOS GOARCH r).
Proof.
  unfold kept_entries.
  induction releases as [|r releases IH]; intros rls; cbn [convert_records map concat].
  - left. rewrite app_nil_r. split; [reflexivity|intros r []].
  - destruct (convert_files_record r rls) as [[-> Hr] | (-> & Hbad)].
    + destruct (IH (rls ++ kept_of GOOS GOARCH r)%list) as [[-> Hall] | (-> & r' & Hin & Hbad)].
      * left. rewrite <- app_assoc. split; [reflexivity|].
        intros r' [<- | Hin]; [|apply Hall; assumption].
        intros [Hne Herr]. destruct Hr as [? | [v Hv]]; congruence.
      * right. split; [reflexivity|]. exists r'. split; [right|]; assumption.
    + right. split; [reflexivity|]. exists r. split; [left; reflexivity|exact Hbad].
Qed.

End Convert.

Lemma filter_nonempty_iff {A} (p : A -> bool) (l : list A) :
  List.filter p l <> [] <-> exists x, In x l /\ p x = true.
Proof.
  split.
  - destruct (List.filter p l) as [|x l'] eqn:E; [congruence|]. intros _.
    exists x. apply filter_In. rewrite E. left; reflexivity.
  - intros (x & Hin & Hp) E.
    assert (In x (List.filter p l)) as H by (apply filter_In; auto).
    rewrite E in H. exact H.
Qed.

Lemma kept_entries_In GOOS GOARCH releases rl :
  In rl (kept_entries GOOS GOARCH releases) <->
  exists r f v, In r releases /\ In f (remoteRelease.Files r) /\
                targetRelease GOOS GOARCH f = true /\
                record_version r = Ok v /\ rl = release_of r v f.
Proof.
  unfold kept_entries. rewrite in_concat. split.
  - intros (l & Hl & Hrl). apply in_map_iff in Hl as (r & <- & Hr).
    unfold kept_of in Hrl. destruct (record_version r) as [v|] eqn:Hv; [|destruct Hrl].
    apply in_map_iff in Hrl as (f & <- & Hf). apply filter_In in Hf as [Hf Ht].
    exists r, f, v. auto.
  - intros (r & f & v & Hr & Hf & Ht & Hv & ->).
    exists (kept_of GOOS GOARCH r). split; [apply in_map; assumption|].
    unfold kept_of. rewrite Hv. apply in_map, filter_In. auto.
Qed.

(** C6. Loading a listing keeps, of every record, exactly the files whose
    operating system is the current one, whose architecture is the current
    one (with "arm" read as "armv6l") and whose kind is "archive": the
    catalog is a rearrangement of the entries made from these files, so a
    file that does not match is not in it.  If a record with a matching file
    has a version text that does not parse, the load returns the syntax
    error and no catalog; otherwise it returns a catalog. *)
Theorem convertReleases_filters_and_aborts
    (GOOS GOARCH : string) (releases : list remoteRelease.t) :
  (forall f, targetRelease GOOS GOARCH f = true <->
             remoteFile.OS f = GOOS /\ remoteFile.Kind f = "archive" /\
             remoteFile.Arch f = target_arch GOARCH) /\
  target_arch "arm" = "armv6l" /\
  (forall rls, convertReleases GOOS GOARCH releases = Ok rls ->
     Permutation rls (kept_entries GOOS GOARCH releases) /\
     forall rl, In rl rls <->
       exists r f v, In r releases /\ In f (remoteRelease.Files r) /\
                     targetRelease GOOS GOARCH f = true /\
                     record_version r = Ok v /\ rl = release_of r v f) /\
  ((exists r f, In r releases /\ In f (remoteRelease.Files r) /\
                targetRelease GOOS GOARCH f = true /\
                forall v, record_version r <> Ok v) ->
   convertReleases GOOS GOARCH releases = Err ErrVersionSyntax) /\
  ((forall r f, In r releases -> In f (remoteRelease.Files r) ->
                targetRelease GOOS GOARCH f = true ->
                exists v, record_version r = Ok v) ->
   exists rls, convertReleases GOOS GOARCH releases = Ok rls).
Proof.
  split; [apply targetRelease_spec|]. split; [reflexivity|].
  unfold convertReleases.
  destruct (convert_records_spec GOOS GOARCH releases [])
    as [[-> Hgood] | (-> & r & Hr & Hne & Herr)]; cbn [app].
  - split; [|split].
    + intros rls [= <-].
      assert (Permutation
                (Go.sort_Slice release_less (kept_entries GOOS GOARCH releases))
                (kept_entries GOOS GOARCH releases)) as Hperm
        by apply sort_Slice_Permutation.
      split; [exact Hperm|]. intros rl. rewrite <- kept_entries_In.
      split; apply Permutation_in; [|symmetry]; exact Hperm.
    + intros (r & f & Hr & Hf & Ht & Hbad). exfalso. apply (Hgood r Hr). split.
      * apply filter_nonempty_iff. eauto.
      * destruct (record_version r) as [v|e] eqn:Hv; [destruct (Hbad v); reflexivity|].
        f_equal. eapply ParseVersion_error. exact Hv.
    + intros _. eauto.
  - split; [|split].
    + discriminate.
    + reflexivity.
    + intros Hall. apply filter_nonempty_iff in Hne as (f & Hf & Ht).
      destruct (Hall r f Hr Hf Ht) as [v Hv]. congruence.
Qed.

Lemma convertReleases_filters_and_aborts_witness :
  convertReleases "linux" "amd64" bad_listing = Err ErrVersionSyntax /\
  (exists rls, convertReleases "linux" "amd64" harmless_listing = Ok rls) /\
  (forall rl, In rl sample_catalog ->
     exists r f v, In r sample_listing /\ In f (remoteRelease.Files r) /\
                   targetRelease "linux" "amd64" f = true /\
                   record_version r = Ok v /\ rl = release_of r v f).
Proof.
  split; [|split].
  - apply (convertReleases_filters_and_aborts "linux" "amd64" bad_listing).
    exists (sample_record "go1.16." true).
    exists (remoteFile.mk "go1.16..linux-amd64.tar.gz" "linux" "amd64" "go1.16." "" 0 "archive").
    split; [right; left; reflexivity|].
    split; [right; left; reflexivity|].
    split; [reflexivity|]. intros v. discriminate.
  - apply (convertReleases_filters_and_aborts "linux" "amd64" harmless_listing).
    intros r f [<- | [<- | []]].
    + intros _ _. eexists. reflexivity.
    + intros [<- | []]. discriminate.
  - intros rl.
    apply (convertReleases_filters_and_aborts "linux" "amd64" sample_listing).
    reflexivity.
Defined.

(** On 32-bit ARM the files tagged "armv6l" are the ones kept. *)
Example targetRelease_arm :
  targetRelease "linux" "arm"
    (remoteFile.mk "go1.16.linux-armv6l.tar.gz" "linux" "armv6l" "go1.16" "" 0 "archive")
    = true /\
  targetRelease "linux" "arm"
    (remoteFile.mk "go1.16.linux-arm.tar.gz" "linux" "arm" "go1.16" "" 0 "archive")
    = false /\
  targetRelease "linux" "arm64"
    (remoteFile.mk "go1.16.linux-arm64.tar.gz" "linux" "arm64" "go1.16" "" 0 "archive")
    = true.
Proof. repeat split. Qed.

(** The sample catalog is what loading the sample listing gives, and a
    malformed record without a file for the target does no harm. *)
Example convertReleases_sample :
  convertReleases "linux" "amd64" sample_listing = Ok sample_catalog /\
  convertReleases "linux" "amd64" harmless_listing = Ok [go1_15_2] /\
  convertReleases "linux" "arm" sample_listing = Ok [].
Proof. repeat split. Qed.

(** A list without ties has one sorted arrangement: any two correct sorts
    return the same list on it. *)
Section SortedUnique.
Context {A : Type} (lt : A -> A -> Prop).
Hypothesis lt_irrefl : forall x, ~ lt x x.
Hypothesis lt_trans : forall x y z, lt x y -> lt y z -> lt x z.

Lemma strictly_sorted_unique l1 : forall l2,
  StronglySorted lt l1 -> StronglySorted lt l2 -> Permutation l1 l2 -> l1 = l2.
Proof.
  induction l1 as [|a l1 IH]; intros l2 H1 H2 Hperm.
  - apply Permutation_nil in Hperm. congruence.
  - destruct l2 as [|b l2]; [apply Permutation_sym, Permutation_nil in Hperm; discriminate|].
    apply StronglySorted_inv in H1 as [H1 Ha]. apply StronglySorted_inv in H2 as [H2 Hb].
    rewrite List.Forall_forall in Ha, Hb.
    assert (a = b) as <-.
    { assert (In a (b :: l2)) as [Hab | Hin]
        by (apply (Permutation_in _ Hperm); left; reflexivity); [congruence|].
      assert (In b (a :: l1)) as [Hba | Hin']
        by (apply (Permutation_in _ (Permutation_sym Hperm)); left; reflexivity);
        [congruence|].
      exfalso. apply (lt_irrefl a), (lt_trans a b a); auto. }
    f_equal. apply IH; [assumption..|]. eapply Permutation_cons_inv. exact Hperm.
Qed.

End SortedUnique.

(** The sample catalog is strictly ascending, so every arrangement of its
    releases that is sorted under CompareVersion is the sample catalog. *)
Example sample_catalog_sorted l :
  Permutation l sample_catalog ->
  StronglySorted (fun a b => release_less a b = true) l ->
  l = sample_catalog.
Proof.
  intros Hperm Hsorted.
  apply (strictly_sorted_unique (fun a b => release_less a b = true)); [| |assumption| |assumption].
  - intros x. unfold release_less. rewrite CompareVersion_key, lex_compare_refl. discriminate.
  - intros x y z. unfold release_less. rewrite !Z.ltb_lt, !CompareVersion_key.
    apply lex_compare_trans.
  - unfold sample_catalog. repeat (constructor; [|repeat constructor]). constructor.
Qed.

(** Running a method on a state, one step of the monad at a time. *)
Ltac run_M :=
  unfold bind, ret, fail, get_env, get_world, set_env, set_fs, wrap;
  cbn [fst snd].

(* ===================================================================== *)
(** ** Recent releases *)
(* ===================================================================== *)

(** On a catalog with the sample versions and flags, whatever its file
    names, sizes and checksums. *)
Lemma selectRecentReleases_sample env :
  catalog_lines (releases env) = sample_lines ->
  releases env <> [] /\
  map Release.Version (selectRecentReleases env 2) =
    [mkVersion RC 1 16 0 1; mkVersion Beta 1 16 0 2; mkVersion Beta 1 16 0 1;
     mkVersion Stable 1 15 2 0; mkVersion Stable 1 15 1 0;
     mkVersion Stable 1 14 3 0; mkVersion Stable 1 14 2 0] /\
  map Release.Version (rev (selectRecentReleases env 2)) =
    [mkVersion Stable 1 14 2 0; mkVersion Stable 1 14 3 0;
     mkVersion Stable 1 15 1 0; mkVersion Stable 1 15 2 0;
     mkVersion Beta 1 16 0 1; mkVersion Beta 1 16 0 2; mkVersion RC 1 16 0 1].
Proof.
  unfold selectRecentReleases, catalog_lines, sample_lines.
  destruct (releases env) as [|r1 l]; [discriminate|].
  do 7 (destruct l as [|? l]; [discriminate|]).
  destruct l; [|discriminate].
  repeat match goal with r : Release.t |- _ => destruct r end.
  cbn [map Release.Version Release.Stable]. intros [=]. subst.
  split; [discriminate|]. split; reflexivity.
Qed.

(** C1, as the code has it.  On a catalog holding exactly 1.14.1, 1.14.2,
    1.14.3, 1.15.1, 1.15.2 (stable) and 1.16beta1, 1.16beta2, 1.16rc1
    (unstable), selectRecentReleases(2) yields 1.16rc1, 1.16beta2,
    1.16beta1, 1.15.2, 1.15.1, 1.14.3, 1.14.2 (newest first, the unstable
    line before the stable groups), and RecentReleases returns this sequence
    reversed: 1.14.2, 1.14.3, 1.15.1, 1.15.2, 1.16beta1, 1.16beta2, 1.16rc1,
    oldest first, the unstable line last; neither the Env nor the world
    changes. *)
Theorem RecentReleases_sample (GOOS GOARCH : string) (env : Env) (w : World) :
  catalog_lines (releases env) = sample_lines ->
  map Release.Version (selectRecentReleases env 2) =
    [mkVersion RC 1 16 0 1; mkVersion Beta 1 16 0 2; mkVersion Beta 1 16 0 1;
     mkVersion Stable 1 15 2 0; mkVersion Stable 1 15 1 0;
     mkVersion Stable 1 14 3 0; mkVersion Stable 1 14 2 0] /\
  exists rs,
    RecentReleases GOOS GOARCH (env, w) = (Ok rs, (env, w)) /\
    rs = rev (selectRecentReleases env 2) /\
    map Release.Version rs =
      [mkVersion Stable 1 14 2 0; mkVersion Stable 1 14 3 0;
       mkVersion Stable 1 15 1 0; mkVersion Stable 1 15 2 0;
       mkVersion Beta 1 16 0 1; mkVersion Beta 1 16 0 2; mkVersion RC 1 16 0 1].
Proof.
  intros Hcat. destruct (selectRecentReleases_sample env Hcat) as (Hne & Hsel & Hrev).
  split; [exact Hsel|]. exists (rev (selectRecentReleases env 2)).
  split; [|split; [reflexivity|exact Hrev]].
  unfold RecentReleases, ensure_releases. run_M.
  destruct (releases env) eqn:E; [congruence|]. run_M. rewrite E. reflexivity.
Qed.

Lemma RecentReleases_sample_witness :
  exists rs,
    RecentReleases "linux" "amd64" (sample_env ∅ sample_catalog, sample_world ∅) =
      (Ok rs, (sample_env ∅ sample_catalog, sample_world ∅)) /\
    rs = rev (selectRecentReleases (sample_env ∅ sample_catalog) 2) /\
    map Release.Version rs =
      [mkVersion Stable 1 14 2 0; mkVersion Stable 1 14 3 0;
       mkVersion Stable 1 15 1 0; mkVersion Stable 1 15 2 0;
       mkVersion Beta 1 16 0 1; mkVersion Beta 1 16 0 2; mkVersion RC 1 16 0 1].
Proof.
  apply (RecentReleases_sample "linux" "amd64" (sample_env ∅ sample_catalog)).
  reflexivity.
Defined.

(** The sample catalog, in full. *)
Example sample_catalog_recent :
  RecentReleases "linux" "amd64" (sample_env ∅ sample_catalog, sample_world ∅) =
    (Ok [go1_14_2; go1_14_3; go1_15_1; go1_15_2; go1_16beta1; go1_16beta2; go1_16rc1],
     (sample_env ∅ sample_catalog, sample_world ∅)).
Proof. reflexivity. Qed.

(** C1 as stated fails: on the sample catalog RecentReleases does not
    return the releases 1.16rc1, 1.16beta2, 1.16beta1, 1.15.2, 1.15.1,
    1.14.3, 1.14.2 in that order. *)
Lemma RecentReleases_not_newest_first :
  ~ exists rs,
      fst (RecentReleases "linux" "amd64"
             (sample_env ∅ sample_catalog, sample_world ∅)) = Ok rs /\
      map Release.Version rs =
        [mkVersion RC 1 16 0 1; mkVersion Beta 1 16 0 2; mkVersion Beta 1 16 0 1;
         mkVersion Stable 1 15 2 0; mkVersion Stable 1 15 1 0;
         mkVersion Stable 1 14 3 0; mkVersion Stable 1 14 2 0].
Proof.
  intros (rs & Hrun & Hrs). vm_compute in Hrun. injection Hrun as <-.
  vm_compute in Hrs. discriminate Hrs.
Qed.

(* ===================================================================== *)
(** ** Exact lookup *)
(* ===================================================================== *)

Lemma find_release_Some rs v r :
  find_release rs v = Some r ->
  In r rs /\ EqualVersion (Release.Version r) v = true.
Proof.
  induction rs as [|r0 rs IH]; cbn; [discriminate|].
  destruct (EqualVersion (Release.Version r0) v) eqn:E.
  - intros [= <-]. auto.
  - intros H. destruct (IH H). auto.
Qed.

Lemma find_release_None rs v :
  find_release rs v = None <->
  forall r, In r rs -> EqualVersion (Release.Version r) v = false.
Proof.
  induction rs as [|r0 rs IH]; cbn.
  - split; [intros _ r []|reflexivity].
  - destruct (EqualVersion (Release.Version r0) v) eqn:E.
    + split; [discriminate|]. intros H. specialize (H r0 (or_introl eq_refl)). congruence.
    + rewrite IH. split.
      * intros H r [<- | Hin]; auto.
      * intros H r Hin. apply H. right. exact Hin.
Qed.

Lemma loadReleases_world GOOS GOARCH s :
  snd (snd (loadReleases GOOS GOARCH s)) = snd s.
Proof.
  destruct s as [env w]. unfold loadReleases, os.Stat. run_M.
  destruct (os.resolve 40 (fs w) _); cbn [negb fst snd]; [|reflexivity].
  destruct (os.read_listing 40 (fs w) _) as [l|]; [|reflexivity].
  destruct (convertReleases GOOS GOARCH l); reflexivity.
Qed.

Lemma ensure_releases_world GOOS GOARCH s :
  snd (snd (ensure_releases GOOS GOARCH s)) = snd s.
Proof.
  destruct s as [env w]. unfold ensure_releases. run_M.
  destruct (releases env); [apply loadReleases_world|reflexivity].
Qed.

(** C7. With no catalog in memory and no listing file to be found at
    confDir/downloads.json, FindRelease returns ErrReleasesFileNotDownloaded
    and leaves the Env and the world as they were; with a catalog in memory
    it returns the first release whose version equals v under EqualVersion,
    if the catalog has one, and the error "specified version is not found"
    otherwise.  In no case does it send a request to the network. *)
Theorem FindRelease_spec (GOOS GOARCH : string) (env : Env) (w : World) (v : Version) :
  (releases env = [] ->
   os.resolve 40 (fs w) (path_Join (confDir env) downloadListFileName) = false ->
   FindRelease GOOS GOARCH v (env, w) = (Err ErrReleasesFileNotDownloaded, (env, w))) /\
  (releases env <> [] ->
   ((exists r, In r (releases env) /\ EqualVersion (Release.Version r) v = true) ->
    exists r, FindRelease GOOS GOARCH v (env, w) = (Ok r, (env, w)) /\
              In r (releases env) /\ EqualVersion (Release.Version r) v = true) /\
   ((forall r, In r (releases env) -> EqualVersion (Release.Version r) v = false) ->
    FindRelease GOOS GOARCH v (env, w) =
      (Err (ErrorNew "specified version is not found"), (env, w)))) /\
  requests (snd (snd (FindRelease GOOS GOARCH v (env, w)))) = requests w.
Proof.
  split; [|split].
  - intros Hnil Hstat.
    unfold FindRelease, ensure_releases, loadReleases, os.Stat. run_M.
    rewrite Hnil. run_M. rewrite Hstat. reflexivity.
  - intros Hne.
    assert (FindRelease GOOS GOARCH v (env, w) =
            match find_release (releases env) v with
            | Some r => (Ok r, (env, w))
            | None => (Err (ErrorNew "specified version is not found"), (env, w))
            end) as ->.
    { unfold FindRelease, ensure_releases. run_M.
      destruct (releases env) eqn:E; [congruence|]. run_M. rewrite E.
      destruct (find_release _ v); reflexivity. }
    split.
    + intros (r & Hin & Heq).
      destruct (find_release (releases env) v) as [r'|] eqn:Hfind.
      * exists r'. split; [reflexivity|]. eapply find_release_Some; eassumption.
      * rewrite find_release_None in Hfind. rewrite (Hfind r Hin) in Heq. discriminate.
    + intros Hall. apply find_release_None in Hall. rewrite Hall. reflexivity.
  - unfold FindRelease. unfold bind at 1.
    pose proof (ensure_releases_world GOOS GOARCH (env, w)) as Hw.
    destruct (ensure_releases GOOS GOARCH (env, w)) as [[[]|e] [env' w']];
      cbn [fst snd] in *; subst w'; [|reflexivity].
    run_M. destruct (find_release (releases env') v); reflexivity.
Qed.

Lemma FindRelease_spec_witness :
  FindRelease "linux" "amd64" (mkVersion Stable 1 15 2 0)
      (sample_env ∅ [], sample_world ∅)
    = (Err ErrReleasesFileNotDownloaded, (sample_env ∅ [], sample_world ∅)) /\
  (exists r, FindRelease "linux" "amd64" (mkVersion Stable 1 15 2 0)
               (sample_env ∅ sample_catalog, sample_world ∅)
             = (Ok r, (sample_env ∅ sample_catalog, sample_world ∅)) /\
             In r sample_catalog /\
             EqualVersion (Release.Version r) (mkVersion Stable 1 15 2 0) = true) /\
  FindRelease "linux" "amd64" (mkVersion Stable 1 17 0 0)
      (sample_env ∅ sample_catalog, sample_world ∅)
    = (Err (ErrorNew "specified version is not found"),
       (sample_env ∅ sample_catalog, sample_world ∅)).
Proof.
  split; [|split].
  - apply (FindRelease_spec "linux" "amd64" (sample_env ∅ []) (sample_world ∅));
      reflexivity.
  - apply (FindRelease_spec "linux" "amd64" (sample_env ∅ sample_catalog) (sample_world ∅)).
    + discriminate.
    + exists go1_15_2. split; [|reflexivity]. cbn. tauto.
  - apply (FindRelease_spec "linux" "amd64" (sample_env ∅ sample_catalog) (sample_world ∅)).
    + discriminate.
    + intros r Hin. cbn in Hin.
      repeat (destruct Hin as [<- | Hin]; [reflexivity|]). destruct Hin.
Defined.

(** A listing file on disk is read on demand, still without the network. *)
Example FindRelease_loads_cache :
  let name := path_Join (confDir (sample_env ∅ [])) downloadListFileName in
  let w := sample_world {[ name := File (Some sample_listing) ]} in
  FindRelease "linux" "amd64" (mkVersion Stable 1 15 2 0) (sample_env ∅ [], w)
    = (Ok go1_15_2, (sample_env ∅ sample_catalog, w)).
Proof. vm_compute. reflexivity. Qed.

(* ===================================================================== *)
(** ** The active link *)
(* ===================================================================== *)

Lemma with_fs_id w : with_fs (fs w) w = w.
Proof. destruct w; reflexivity. Qed.

(** [makeLink] replaces whatever file or link sits at the link path; only a
    directory there stops it. *)
Lemma makeLink_spec v env w :
  makeLink v (env, w) =
    match fs w !! linkPath env with
    | Some Dir => (Err (ErrorNew "failed to remove current symbolic link"), (env, w))
    | _ => (Ok tt, (env, with_fs (<[linkPath env := Link (versionGoRoot env v)]> (fs w)) w))
    end.
Proof.
  unfold makeLink, os.Lstat, os.Remove, os.Symlink, os.exists_at, with_fs. run_M.
  destruct (fs w !! linkPath env) as [[| |]|] eqn:E; run_M; rewrite ?E;
    repeat (cbn [fst snd fs server requests];
            rewrite ?lookup_delete_eq, ?insert_delete_eq, ?E);
    reflexivity.
Qed.

Lemma HasVersion_spec v env w :
  HasVersion v (env, w) =
    (Ok (bool_decide (is_Some (installedVersions env !! Version_String v))), (env, w)).
Proof.
  unfold HasVersion. run_M.
  destruct (installedVersions env !! Version_String v) eqn:E; run_M.
  - rewrite bool_decide_eq_true_2; eauto.
  - rewrite bool_decide_eq_false_2; [reflexivity|]. intros [? ?]; discriminate.
Qed.

Lemma Switch_unfold v env w :
  Switch v (env, w) =
    if bool_decide (is_Some (installedVersions env !! Version_String v))
    then (Err (ErrorNew "specified version is not installed"), (env, w))
    else makeLink v (env, w).
Proof.
  unfold Switch. unfold bind. rewrite HasVersion_spec.
  destruct (bool_decide _); reflexivity.
Qed.

(** C10. Switch(v) returns the error "specified version is not installed"
    exactly when v is in the registry (HasVersion(v) is true); when v is not
    in the registry it runs makeLink(v), which, unless a directory sits at
    the link path, points the active link at v's version directory. *)
Theorem Switch_guard (v : Version) (env : Env) (w : World) :
  (fst (Switch v (env, w)) = Err (ErrorNew "specified version is not installed")
   <-> fst (HasVersion v (env, w)) = Ok true) /\
  (fst (HasVersion v (env, w)) = Ok true
   <-> is_Some (installedVersions env !! Version_String v)) /\
  (fst (HasVersion v (env, w)) = Ok false ->
   Switch v (env, w) = makeLink v (env, w) /\
   (fs w !! linkPath env <> Some Dir ->
    Switch v (env, w) =
      (Ok tt, (env, with_fs (<[linkPath env := Link (versionGoRoot env v)]> (fs w)) w)))).
Proof.
  rewrite Switch_unfold, HasVersion_spec. cbn [fst].
  pose proof (makeLink_spec v env w) as Hlink.
  destruct (bool_decide (is_Some (installedVersions env !! Version_String v))) eqn:Hhas;
    cbv beta iota.
  - apply bool_decide_eq_true_1 in Hhas. split; [|split]; [split; reflexivity|tauto|discriminate].
  - apply bool_decide_eq_false_1 in Hhas. split; [|split].
    + rewrite Hlink. split; [|discriminate].
      destruct (fs w !! linkPath env) as [[| |]|]; discriminate.
    + split; [discriminate|tauto].
    + intros _. split; [reflexivity|]. intros Hdir. rewrite Hlink.
      destruct (fs w !! linkPath env) as [[| |]|]; congruence.
Qed.

Lemma Switch_guard_witness :
  let installed : gmap string Version := {[ "1.16" := mkVersion Stable 1 16 0 0 ]} in
  let disk : gmap string node := {[ "/usr/local/go/go1.16" := Dir ]} in
  fst (Switch (mkVersion Stable 1 16 0 0) (sample_env installed [], sample_world disk))
    = Err (ErrorNew "specified version is not installed") /\
  Switch (mkVersion Stable 1 15 0 0) (sample_env installed [], sample_world disk)
    = (Ok tt, (sample_env installed [],
               sample_world (<["/usr/local/go/current" := Link "/usr/local/go/go1.15"]> disk))).
Proof.
  intros installed disk. split.
  - apply (Switch_guard (mkVersion Stable 1 16 0 0)). reflexivity.
  - apply (Switch_guard (mkVersion Stable 1 15 0 0) (sample_env installed [])
             (sample_world disk)).
    + reflexivity.
    + vm_compute. discriminate.
Defined.

(** *** The newest installed version *)

Section SortedFacts.
Context {A : Type} (less : A -> A -> bool) (le : A -> A -> Prop).
Hypothesis less_le : forall x y, less x y = true -> le x y.
Hypothesis not_less_le : forall x y, less x y = false -> le y x.
Hypothesis le_trans : forall x y z, le x y -> le y z -> le x z.

Lemma sort_insert_sorted x l :
  StronglySorted le l -> StronglySorted le (Go.sort_insert less x l).
Proof.
  induction 1 as [|y l Hl IH Hy]; cbn.
  - repeat constructor.
  - destruct (less x y) eqn:E.
    + constructor; [constructor; assumption|].
      constructor; [apply less_le; assumption|].
      rewrite List.Forall_forall in Hy |- *. intros z Hz.
      apply (le_trans x y z); [apply less_le; assumption|apply Hy; exact Hz].
    + constructor; [exact IH|].
      apply (Permutation_Forall (Permutation_sym (sort_insert_Permutation less x l))).
      constructor; [apply not_less_le; assumption|exact Hy].
Qed.

Lemma sort_Slice_sorted l : StronglySorted le (Go.sort_Slice less l).
Proof.
  induction l as [|x l IH]; cbn; [constructor|].
  apply sort_insert_sorted. exact IH.
Qed.

Hypothesis le_refl : forall x, le x x.

Lemma sorted_last_max l m :
  StronglySorted le l -> last l = Some m -> forall u, In u l -> le u m.
Proof.
  induction 1 as [|y l Hl IH Hy]; [discriminate|].
  destruct l as [|z l'].
  - intros [= <-] u [<- | []]. apply le_refl.
  - change (last (y :: z :: l')) with (last (z :: l')). intros Hlast u [<- | Hu].
    + rewrite List.Forall_forall in Hy. apply Hy.
      apply list_elem_of_In. eapply last_Some_elem_of. exact Hlast.
    + apply IH; assumption.
Qed.

End SortedFacts.

Lemma CompareVersion_le_trans x y z :
  CompareVersion x y <= 0 -> CompareVersion y z <= 0 -> CompareVersion x z <= 0.
Proof.
  intros Hxy Hyz.
  destruct (Z.eq_dec (CompareVersion x y) 0) as [E|E].
  { apply CompareVersion_zero_key in E. rewrite CompareVersion_key, E, <- CompareVersion_key.
    exact Hyz. }
  destruct (Z.eq_dec (CompareVersion y z) 0) as [E'|E'].
  { apply CompareVersion_zero_key in E'. rewrite CompareVersion_key, <- E', <- CompareVersion_key.
    exact Hxy. }
  apply Z.lt_le_incl. rewrite !CompareVersion_key in *.
  apply (lex_compare_trans _ (sort_key y)); lia.
Qed.

(** The sorted registry: its last element is a newest installed version,
    and it has one unless the registry is empty. *)
Lemma InstalledVersions_last env w :
  exists versions, InstalledVersions (env, w) = (Ok versions, (env, w)) /\
    (installedVersions env = ∅ -> last versions = None) /\
    (installedVersions env <> ∅ -> exists m, last versions = Some m /\ newest env m).
Proof.
  unfold InstalledVersions. run_M. eexists. split; [reflexivity|].
  set (vs := map snd (map_to_list (installedVersions env))).
  assert (forall u, In u vs <-> exists k, installedVersions env !! k = Some u) as Hvs.
  { intros u. unfold vs. rewrite in_map_iff. split.
    - intros ([k u'] & <- & Hin). exists k.
      apply list_elem_of_In, elem_of_map_to_list in Hin. exact Hin.
    - intros [k Hk]. exists (k, u). split; [reflexivity|].
      apply list_elem_of_In, elem_of_map_to_list. exact Hk. }
  split.
  - intros Hempty. unfold vs. rewrite Hempty, map_to_list_empty. reflexivity.
  - intros Hne.
    destruct (last (Go.sort_Slice version_less vs)) as [m|] eqn:Hlast.
    + exists m. split; [reflexivity|].
      assert (forall u, In u (Go.sort_Slice version_less vs) -> CompareVersion u m <= 0)
        as Hmax.
      { apply (sorted_last_max (fun a b => CompareVersion a b <= 0)); [| |exact Hlast].
        - intros u. rewrite CompareVersion_key, lex_compare_refl. lia.
        - apply (sort_Slice_sorted version_less).
          + intros a b Hab. apply Z.ltb_lt in Hab. lia.
          + intros a b Hab. apply Z.ltb_ge in Hab.
            rewrite CompareVersion_key, lex_compare_antisym, <- CompareVersion_key. lia.
          + apply CompareVersion_le_trans. }
      split.
      * apply Hvs, (sort_Slice_In version_less).
        apply list_elem_of_In. eapply last_Some_elem_of. exact Hlast.
      * intros k u Hk. apply Hmax, sort_Slice_In, Hvs. eauto.
    + exfalso. apply last_None in Hlast. apply sort_Slice_nil in Hlast.
      apply Hne. apply map_to_list_empty_iff.
      unfold vs in Hlast. destruct (map_to_list (installedVersions env)); [reflexivity|discriminate].
Qed.

(** *** The link repair *)

Lemma resolve_S n m p :
  os.resolve (S n) m p =
    match m !! p with
    | None => false
    | Some Dir | Some (File _) => true
    | Some (Link target) => os.resolve n m (os.follow p target)
    end.
Proof. reflexivity. Qed.

(** An absolute install root makes the version directories absolute, and a
    link to an absolute path leads there. *)
Lemma follow_abs p target : os.IsAbs target = true -> os.follow p target = target.
Proof. unfold os.follow. intros ->. reflexivity. Qed.

Lemma versionGoRoot_abs env v :
  os.IsAbs (envRoot env) = true -> os.IsAbs (versionGoRoot env v) = true.
Proof.
  unfold versionGoRoot, path_Join. destruct (envRoot env); [discriminate|].
  rewrite append_String. trivial.
Qed.

Lemma resolve_false_not_dir n m p : os.resolve n m p = false -> m !! p <> Some Dir.
Proof. destruct n; cbn; intros H E; rewrite E in H; discriminate. Qed.

Lemma resolve_false_makeLink v env w :
  link_resolves (env, w) = false ->
  makeLink v (env, w) =
    (Ok tt, (env, with_fs (<[linkPath env := Link (versionGoRoot env v)]> (fs w)) w)).
Proof.
  unfold link_resolves. cbn [fst snd]. change 40%nat with (S 39). rewrite resolve_S.
  rewrite makeLink_spec. destruct (fs w !! linkPath env) as [[| |]|];
    try discriminate; reflexivity.
Qed.

Lemma fixBrokenLink_resolved s :
  link_resolves s = true -> fixBrokenLink s = (Ok tt, s).
Proof.
  destruct s as [env w]. unfold link_resolves, fixBrokenLink, os.Stat. run_M.
  intros ->. reflexivity.
Qed.

Lemma fixBrokenLink_unresolved env w :
  link_resolves (env, w) = false ->
  (installedVersions env = ∅ -> fixBrokenLink (env, w) = (Ok tt, (env, w))) /\
  (installedVersions env <> ∅ ->
   exists m, newest env m /\
     fixBrokenLink (env, w) =
       (Ok tt, (env, with_fs (<[linkPath env := Link (versionGoRoot env m)]> (fs w)) w))).
Proof.
  intros Hbroken.
  destruct (InstalledVersions_last env w) as (versions & Hrun & Hnone & Hsome).
  assert (fixBrokenLink (env, w) =
          match last versions with
          | None => (Ok tt, (env, w))
          | Some m => makeLink m (env, w)
          end) as ->.
  { unfold fixBrokenLink, os.Stat. unfold bind at 1 2 3. unfold get_env, get_world, ret.
    cbn [fst snd]. unfold link_resolves in Hbroken. cbn [fst snd] in Hbroken.
    rewrite Hbroken. unfold bind. rewrite Hrun. destruct (last versions); reflexivity. }
  split.
  - intros Hempty. rewrite (Hnone Hempty). reflexivity.
  - intros Hne. destruct (Hsome Hne) as (m & -> & Hm). exists m. split; [exact Hm|].
    apply resolve_false_makeLink. exact Hbroken.
Qed.

(** Under the install root layout the repaired link leads to a directory,
    and the layout is kept. *)
Lemma repaired_link_resolves env w m :
  os.IsAbs (envRoot env) = true ->
  registry_on_disk (env, w) -> newest env m -> link_resolves (env, w) = false ->
  let w' := with_fs (<[linkPath env := Link (versionGoRoot env m)]> (fs w)) w in
  link_resolves (env, w') = true /\ registry_on_disk (env, w').
Proof.
  intros Habs Hdisk [[k Hk] _] Hbroken w'.
  unfold link_resolves in *. cbn [fst snd] in *.
  apply resolve_false_not_dir in Hbroken.
  assert (forall u j, installedVersions env !! j = Some u ->
                      fs w' !! versionGoRoot env u = Some Dir) as Hdirs.
  { intros u j Hj. destruct (Hdisk j u Hj) as [_ Hdir]. cbn [fst snd] in Hdir.
    unfold w', with_fs. cbn [fs]. rewrite lookup_insert_ne; [exact Hdir|congruence]. }
  split.
  - change 40%nat with (S 39). rewrite resolve_S.
    unfold w' at 1, with_fs. cbn [fs]. rewrite lookup_insert_eq.
    rewrite (follow_abs _ _ (versionGoRoot_abs env m Habs)).
    change 39%nat with (S 38). rewrite resolve_S, (Hdirs m k Hk). reflexivity.
  - intros j u Hj. cbn [fst snd] in *. split; [apply (Hdisk j u Hj)|eapply Hdirs; exact Hj].
Qed.

Lemma fixBrokenLink_invariant s s' :
  absolute_layout s -> fixBrokenLink s = (Ok tt, s') ->
  absolute_layout s' /\ fst s' = fst s /\
  (installedVersions (fst s') <> ∅ -> link_resolves s' = true).
Proof.
  destruct s as [env w]. intros [Habs Hdisk] Hrun. unfold absolute_layout.
  destruct (link_resolves (env, w)) eqn:Hres.
  - rewrite (fixBrokenLink_resolved _ Hres) in Hrun. injection Hrun as <-. auto.
  - destruct (fixBrokenLink_unresolved env w Hres) as [Hempty Hsome].
    destruct (decide (installedVersions env = ∅)) as [E|E].
    + rewrite (Hempty E) in Hrun. injection Hrun as <-.
      split; [auto|]. split; [reflexivity|]. cbn [fst]. congruence.
    + destruct (Hsome E) as (m & Hm & Hfix). rewrite Hfix in Hrun. injection Hrun as <-.
      destruct (repaired_link_resolves env w m Habs Hdisk Hm Hres) as [? ?]. auto.
Qed.

(** *** Uninstall *)

Lemma append_inj_l a s1 s2 : a ++ s1 = a ++ s2 -> s1 = s2.
Proof.
  induction a as [|c a IH]; [trivial|].
  rewrite !append_String. intros [= H]. apply IH, H.
Qed.

Lemma versionGoRoot_inj env u v :
  versionGoRoot env u = versionGoRoot env v -> Version_String u = Version_String v.
Proof.
  unfold versionGoRoot, path_Join. intros H.
  repeat apply append_inj_l in H. exact H.
Qed.

(** [Uninstall] of an installed version removes its directory and its
    registry entry and then runs the link repair. *)
Lemma Uninstall_unfold v s :
  Uninstall v s =
    if bool_decide (is_Some (installedVersions (fst s) !! Version_String v))
    then fixBrokenLink (without_version v s)
    else (Err (ErrorNew "specified version is not installed"), s).
Proof.
  destruct s as [env w]. unfold Uninstall. unfold bind at 1. rewrite HasVersion_spec.
  cbn [fst]. destruct (bool_decide _); [|reflexivity].
  cbn [negb]. unfold os.RemoveAll. run_M. reflexivity.
Qed.

Lemma without_version_on_disk v s :
  registry_on_disk s -> registry_on_disk (without_version v s).
Proof.
  destruct s as [env w]. intros Hdisk k u. unfold without_version.
  cbn [fst snd set_installedVersions installedVersions with_fs fs].
  intros Hk. apply lookup_delete_Some in Hk as [Hne Hk].
  destruct (Hdisk k u Hk) as [-> Hdir]. split; [reflexivity|].
  cbn [fst snd] in Hdir.
  change (versionGoRoot (set_installedVersions _ env) u) with (versionGoRoot env u).
  rewrite lookup_delete_ne; [exact Hdir|].
  intros E. apply Hne. apply (versionGoRoot_inj env), E.
Qed.

(** The registry half of a successful [Uninstall]: exactly the entry of [v]
    goes. *)
Lemma Uninstall_registry v s s' :
  Uninstall v s = (Ok tt, s') ->
  is_Some (installedVersions (fst s) !! Version_String v) /\
  installedVersions (fst s') = delete (Version_String v) (installedVersions (fst s)) /\
  forall k, k <> Version_String v ->
    installedVersions (fst s') !! k = installedVersions (fst s) !! k.
Proof.
  rewrite Uninstall_unfold. case_bool_decide as Hhas; [|discriminate].
  intros Hrun. split; [exact Hhas|].
  assert (fst s' = fst (without_version v s)) as ->.
  { destruct (link_resolves (without_version v s)) eqn:Hres.
    - rewrite (fixBrokenLink_resolved _ Hres) in Hrun. congruence.
    - destruct (without_version v s) as [env1 w1] eqn:E1.
      destruct (fixBrokenLink_unresolved env1 w1 Hres) as [Hempty Hsome].
      destruct (decide (installedVersions env1 = ∅)) as [E|E].
      + rewrite (Hempty E) in Hrun. congruence.
      + destruct (Hsome E) as (m & _ & Hfix). rewrite Hfix in Hrun.
        injection Hrun as <-. reflexivity. }
  destruct s as [env w]. cbn [without_version fst set_installedVersions installedVersions].
  split; [reflexivity|]. intros k Hk. apply lookup_delete_ne. congruence.
Qed.

(** *** Steps that keep the registry and the directories *)

Create HintDb steady.

Lemma keeps_dirs_refl s : keeps_dirs s s.
Proof. repeat split; auto. Qed.

Lemma keeps_dirs_trans s1 s2 s3 : keeps_dirs s1 s2 -> keeps_dirs s2 s3 -> keeps_dirs s1 s3.
Proof.
  intros (H1 & H2 & H3 & H4) (G1 & G2 & G3 & G4).
  split; [|split; [|split]].
  - rewrite G1. exact H1.
  - rewrite G2. exact H2.
  - rewrite G3. exact H3.
  - intros p Hp. apply G4, H4, Hp.
Qed.

Lemma keeps_dirs_on_disk s s' : keeps_dirs s s' -> registry_on_disk s -> registry_on_disk s'.
Proof.
  intros (Hreg & Hroot & _ & Hdirs) Hdisk k u. rewrite Hreg. intros Hk.
  destruct (Hdisk k u Hk) as [-> Hdir]. split; [reflexivity|].
  unfold versionGoRoot in *. rewrite Hroot. apply Hdirs, Hdir.
Qed.

Lemma steady_ret {A} (a : A) : steady (ret a).
Proof. intros s. apply keeps_dirs_refl. Qed.

Lemma steady_fail {A} e : steady (@fail A e).
Proof. intros s. apply keeps_dirs_refl. Qed.

Lemma steady_bind {A B} (m : M A) (k : A -> M B) :
  steady m -> (forall a, steady (k a)) -> steady (bind m k).
Proof.
  intros Hm Hk s. unfold bind. specialize (Hm s).
  destruct (m s) as [[a|e] s1]; cbn [snd] in *; [|exact Hm].
  eapply keeps_dirs_trans; [exact Hm|apply Hk].
Qed.

Lemma steady_wrap {A} msg (m : M A) : steady m -> steady (wrap msg m).
Proof.
  intros Hm s. unfold wrap. specialize (Hm s).
  destruct (m s) as [[a|e] s1]; exact Hm.
Qed.

Lemma steady_get_env : steady get_env.
Proof. intros s. apply keeps_dirs_refl. Qed.

Lemma steady_get_world : steady get_world.
Proof. intros s. apply keeps_dirs_refl. Qed.

Lemma steady_set_releases rls : steady (set_env (set_releases rls)).
Proof. intros [env w]. repeat split; auto. Qed.

(** Writing a node where no directory is keeps the directories. *)
Lemma steady_insert path n :
  forall s, fs (snd s) !! path <> Some Dir ->
            keeps_dirs s (snd (set_fs (insert path n) s)).
Proof.
  intros [env w] Hp. repeat split; auto. cbn [fst snd set_fs fs] in *.
  intros p Hdir. rewrite lookup_insert_ne; [exact Hdir|congruence].
Qed.

Lemma steady_delete path :
  forall s, fs (snd s) !! path <> Some Dir ->
            keeps_dirs s (snd (set_fs (delete path) s)).
Proof.
  intros [env w] Hp. repeat split; auto. cbn [fst snd set_fs fs] in *.
  intros p Hdir. rewrite lookup_delete_ne; [exact Hdir|congruence].
Qed.

Ltac steady_fs :=
  intros [env w]; run_M;
  repeat match goal with
         | |- context [match fs w !! ?p with _ => _ end] =>
             let E := fresh "E" in destruct (fs w !! p) as [[| |]|] eqn:E
         | |- context [if os.exists_at (fs w) ?p then _ else _] =>
             let E := fresh "E" in
             unfold os.exists_at; destruct (fs w !! p) as [[| |]|] eqn:E
         end;
  try apply keeps_dirs_refl;
  try (apply (steady_insert _ _ (env, w)); cbn [fst snd]; congruence);
  try (apply (steady_delete _ (env, w)); cbn [fst snd]; congruence).

Lemma steady_Stat p : steady (os.Stat p).
Proof. unfold os.Stat. steady_fs. Qed.

Lemma steady_Lstat p : steady (os.Lstat p).
Proof. unfold os.Lstat. steady_fs. Qed.

Lemma steady_Remove p : steady (os.Remove p).
Proof. unfold os.Remove. steady_fs. Qed.

Lemma steady_Symlink a b : steady (os.Symlink a b).
Proof. unfold os.Symlink. steady_fs. Qed.

Lemma steady_Mkdir p : steady (os.Mkdir p).
Proof. unfold os.Mkdir. steady_fs. Qed.

Lemma steady_MkdirAll p : steady (os.MkdirAll p).
Proof. unfold os.MkdirAll. steady_fs. Qed.

Lemma steady_Create p : steady (os.Create p).
Proof. unfold os.Create. steady_fs. Qed.

Lemma steady_http_Get url : steady (http_Get url).
Proof.
  intros [env w]. unfold http_Get. cbn [fst snd].
  destruct (server w url); repeat split; auto.
Qed.

#[local] Hint Resolve steady_ret steady_fail steady_get_env steady_get_world
  steady_set_releases steady_Stat steady_Lstat steady_Remove steady_Symlink
  steady_Mkdir steady_MkdirAll steady_Create steady_http_Get : steady.

Ltac steady_step :=
  match goal with
  | |- steady (bind _ _) => apply steady_bind; [|intros ?]
  | |- steady (wrap _ _) => apply steady_wrap
  | |- steady (if ?b then _ else _) => destruct b
  | |- steady (let '(_, _) := ?x in _) => destruct x
  | |- steady (match ?x with _ => _ end) => destruct x
  | |- steady _ => solve [auto with steady]
  end.

Lemma steady_HasVersion v : steady (HasVersion v).
Proof. unfold HasVersion. repeat steady_step. Qed.

Lemma steady_InstalledVersions : steady InstalledVersions.
Proof. unfold InstalledVersions. repeat steady_step. Qed.

Lemma steady_makeLink v : steady (makeLink v).
Proof. unfold makeLink. repeat steady_step. Qed.

#[local] Hint Resolve steady_HasVersion steady_InstalledVersions steady_makeLink : steady.

Lemma steady_fixBrokenLink : steady fixBrokenLink.
Proof. unfold fixBrokenLink. repeat steady_step. Qed.

Lemma steady_loadReleases GOOS GOARCH : steady (loadReleases GOOS GOARCH).
Proof. unfold loadReleases. repeat steady_step. Qed.

#[local] Hint Resolve steady_fixBrokenLink steady_loadReleases : steady.

Lemma steady_FindRelease GOOS GOARCH v : steady (FindRelease GOOS GOARCH v).
Proof. unfold FindRelease, ensure_releases. repeat steady_step. Qed.

#[local] Hint Resolve steady_FindRelease : steady.

Lemma steady_download url path : steady (download url path).
Proof. unfold download. repeat steady_step. Qed.

Lemma steady_getExtractor path : steady (getExtractor path).
Proof. unfold getExtractor. repeat steady_step. Qed.

#[local] Hint Resolve steady_download steady_getExtractor : steady.

(** [Install] is made of such steps: whatever it does and however it ends,
    the registry is as it was and no directory is lost. *)
Lemma steady_Install GOOS GOARCH v : steady (Install GOOS GOARCH v).
Proof. unfold Install, downloadURL, extract. repeat steady_step. Qed.

(** *** Start-up *)

Lemma append_assoc a b c : (a ++ b) ++ c = a ++ b ++ c.
Proof.
  induction a as [|x a IH]; [reflexivity|].
  rewrite !append_String, IH. reflexivity.
Qed.

Lemma go_entry_path root dir str : go_entry root dir = Some str -> dir = path_Join root ("go" ++ str).
Proof.
  unfold go_entry, path_Join.
  destruct (Go.cut_prefix (root ++ "/go") dir) as [rest|] eqn:E; [|discriminate].
  destruct (has_slash rest); [discriminate|]. intros [= <-].
  apply cut_prefix_Some in E. rewrite E, append_assoc. reflexivity.
Qed.

Lemma fold_insert_lookup (versions : list Version) : forall (reg : gmap string Version) k u,
  fold_left (fun reg version => <[Version_String version := version]> reg) versions reg
    !! k = Some u ->
  reg !! k = Some u \/ (In u versions /\ k = Version_String u).
Proof.
  induction versions as [|v versions IH]; intros reg k u; cbn [fold_left]; [auto|].
  intros H. apply IH in H as [H | [Hin Hk]]; [|right; split; [right|]; assumption].
  apply lookup_insert_Some in H as [[<- <-] | [_ H]]; [right; split; [left|]; reflexivity|].
  left. exact H.
Qed.

Lemma has_slash_app a b : has_slash (a ++ b) = has_slash a || has_slash b.
Proof.
  induction a as [|c a IH]; [reflexivity|].
  rewrite append_String. cbn [has_slash]. rewrite IH, orb_assoc. reflexivity.
Qed.

Lemma Name_Join a x : has_slash x = false -> Name (a ++ String "/" x) = x.
Proof.
  intros Hx. induction a as [|c a IH].
  - rewrite append_empty_l. cbn [Name]. rewrite Hx. reflexivity.
  - rewrite append_String. cbn [Name]. rewrite has_slash_app. cbn [has_slash].
    rewrite Ascii.eqb_refl, orb_true_r. exact IH.
Qed.

(** The text that start-up parses for an entry "go" + text of the root. *)
Lemma go_entry_Name root dir str : go_entry root dir = Some str -> drop2 (Name dir) = str.
Proof.
  intros H. pose proof (go_entry_path root dir str H) as ->.
  unfold go_entry in H.
  destruct (Go.cut_prefix (root ++ "/go") _) as [rest|] eqn:E; [|discriminate].
  destruct (has_slash rest) eqn:Hrest; [discriminate|]. injection H as ->.
  unfold path_Join. change ("/" ++ "go" ++ str) with (String "/" (String "g" (String "o" str))).
  rewrite Name_Join; [reflexivity|]. cbn [has_slash]. exact Hrest.
Qed.

Lemma is_dir_exists n m p : is_dir n m p = true -> is_Some (m !! p).
Proof. destruct n; cbn; destruct (m !! p); eauto; discriminate. Qed.

Section StartupFacts.
Variable Glob_meta : string -> gmap string node -> result (list string).

(** The versions start-up finds on a root that is not a pattern: one for
    each directory of the root named "go" + a text that parses. *)
Lemma scanned_In root (m : gmap string node) :
  hasMeta root = false ->
  exists dirs, Glob_go Glob_meta root m = Ok dirs /\
    forall u, In u (omap (scan_entry m) dirs) <->
      exists dir str, go_entry root dir = Some str /\ is_dir 40 m dir = true /\
                      ParseVersion str = Ok u.
Proof.
  intros Hmeta. unfold Glob_go. rewrite Hmeta. eexists. split; [reflexivity|].
  intros u. rewrite <- list_elem_of_In, list_elem_of_omap. split.
  - intros (dir & Hin & Hscan). apply list_elem_of_In, filter_In in Hin as [_ Hentry].
    destruct (go_entry root dir) as [str|] eqn:Hstr; [|discriminate].
    unfold scan_entry in Hscan. rewrite (go_entry_Name root dir str Hstr) in Hscan.
    destruct (is_dir 40 m dir) eqn:Hdir; [|discriminate].
    destruct (ParseVersion str) as [v|] eqn:Hparse; [|discriminate].
    injection Hscan as ->. eauto.
  - intros (dir & str & Hentry & Hdir & Hparse). exists dir. split.
    + apply list_elem_of_In, filter_In. rewrite Hentry.
      split; [|reflexivity]. apply is_dir_exists in Hdir as [n Hn].
      apply in_map_iff. exists (dir, n). split; [reflexivity|].
      apply list_elem_of_In, elem_of_map_to_list. exact Hn.
    + unfold scan_entry. rewrite Hdir, (go_entry_Name root dir str Hentry), Hparse.
      reflexivity.
Qed.

(** Start-up on such a root: it returns nil, and the registry is the old
    one with the versions found filed under their canonical texts. *)
Lemma init_literal env w :
  hasMeta (envRoot env) = false ->
  exists versions,
    init Glob_meta (env, w) =
      (Ok tt, (set_installedVersions
                 (fold_left (fun reg version => <[Version_String version := version]> reg)
                            versions (installedVersions env)) env, w)) /\
    forall u, In u versions <->
      exists dir str, go_entry (envRoot env) dir = Some str /\
                      is_dir 40 (fs w) dir = true /\ ParseVersion str = Ok u.
Proof.
  intros Hmeta. destruct (scanned_In (envRoot env) (fs w) Hmeta) as (dirs & Hglob & Hin).
  unfold init, scan_installedVersions. run_M. rewrite Hglob. run_M.
  eexists. split; [reflexivity|]. intros u. rewrite sort_Slice_In. apply Hin.
Qed.

(** On an install root kept by the program, the registry built at start-up
    has the install root layout. *)
Lemma init_on_disk env w :
  hasMeta (envRoot env) = false ->
  canonical_root (envRoot env) (fs w) -> installedVersions env = ∅ ->
  fst (init Glob_meta (env, w)) = Ok tt /\
  registry_on_disk (snd (init Glob_meta (env, w))).
Proof.
  intros Hmeta Hroot Hempty.
  destruct (init_literal env w Hmeta) as (versions & -> & Hin).
  split; [reflexivity|]. intros k u.
  cbn [fst snd set_installedVersions installedVersions].
  intros Hk. apply fold_insert_lookup in Hk as [Hk | [Hu ->]].
  { rewrite Hempty, lookup_empty in Hk. discriminate. }
  apply Hin in Hu as (dir & str & Hentry & Hdir & Hparse).
  destruct (Hroot dir str u Hentry Hdir Hparse) as [-> Hnode].
  split; [reflexivity|]. apply go_entry_path in Hentry. subst dir. exact Hnode.
Qed.

End StartupFacts.

(** At start-up on the sample install root, 1.15 and 1.16 are registered. *)
Example init_sample :
  installedVersions
    (fst (snd (init bad_pattern (sample_env ∅ [], sample_world two_on_disk))))
  = two_installed.
Proof. vm_compute. reflexivity. Qed.

Example two_on_disk_canonical : canonical_root "/usr/local/go" two_on_disk.
Proof.
  intros dir str v Hentry Hdir Hparse.
  destruct (two_on_disk !! dir) as [n|] eqn:E;
    [|apply is_dir_exists in Hdir as [n Hn]; congruence].
  unfold two_on_disk in E.
  apply lookup_insert_Some in E as [[<- <-] | [_ E]].
  { vm_compute in Hentry. injection Hentry as <-.
    vm_compute in Hparse. injection Hparse as <-. split; reflexivity. }
  apply lookup_insert_Some in E as [[<- <-] | [_ E]].
  { vm_compute in Hentry. injection Hentry as <-.
    vm_compute in Hparse. injection Hparse as <-. split; reflexivity. }
  apply lookup_singleton_Some in E as [<- <-].
  vm_compute in Hentry. discriminate.
Qed.

Example init_sample_on_disk :
  registry_on_disk (snd (init bad_pattern (sample_env ∅ [], sample_world two_on_disk))).
Proof.
  apply (init_on_disk bad_pattern (sample_env ∅ []) (sample_world two_on_disk));
    [reflexivity|apply two_on_disk_canonical|reflexivity].
Qed.

(** A directory the program did not name, "go1.16.0", is registered as 1.16,
    whose directory "go1.16" is not there: the layout is a property of the
    install roots the program keeps, not of every directory tree. *)
Example init_noncanonical :
  let w := sample_world {[ "/usr/local/go/go1.16.0" := Dir ]} in
  installedVersions (fst (snd (init bad_pattern (sample_env ∅ [], w))))
    = {[ "1.16" := mkVersion Stable 1 16 0 0 ]} /\
  fs w !! "/usr/local/go/go1.16" = None.
Proof. split; vm_compute; reflexivity. Qed.

(** A root that is a malformed pattern: start-up fails with the error of
    [filepath.Glob] and registers nothing. *)
Example init_bad_pattern :
  let env := mkEnv "/opt/[go" "current" "" "" ∅ [] in
  init bad_pattern (env, sample_world {[ "/opt/[go/go1.16" := Dir ]})
    = (Err (ErrorNew "syntax error in pattern"),
       (env, sample_world {[ "/opt/[go/go1.16" := Dir ]})).
Proof. reflexivity. Qed.

(** *** Methods that end with the link repair *)

Lemma keeps_dirs_absolute s s' : keeps_dirs s s' -> absolute_layout s -> absolute_layout s'.
Proof.
  intros Hkeep [Habs Hdisk]. split; [|eapply keeps_dirs_on_disk; eassumption].
  destruct Hkeep as (_ & Hroot & _). rewrite Hroot. exact Habs.
Qed.

Lemma without_version_absolute v s :
  absolute_layout s -> absolute_layout (without_version v s).
Proof.
  intros [Habs Hdisk]. split; [|apply without_version_on_disk, Hdisk].
  destruct s as [env w]. exact Habs.
Qed.

Lemma hoare_bind_steady {A B} (m : M A) (k : A -> M B) Q :
  steady m -> (forall a, hoare absolute_layout (k a) Q) ->
  hoare absolute_layout (bind m k) Q.
Proof.
  intros Hm Hk s Hs. unfold bind. pose proof (Hm s) as Hkeep.
  destruct (m s) as [[a|e] s1]; [|exact I]. cbn [snd] in Hkeep.
  apply Hk. eapply keeps_dirs_absolute; eassumption.
Qed.

Lemma hoare_fail {A} P e (Q : A -> State -> Prop) : hoare P (fail e) Q.
Proof. intros s _. exact I. Qed.

Lemma hoare_fixBrokenLink :
  hoare absolute_layout fixBrokenLink
    (fun _ s' => absolute_layout s' /\
                 (installedVersions (fst s') <> ∅ -> link_resolves s' = true)).
Proof.
  intros s Hs. destruct (fixBrokenLink s) as [[[]|e] s'] eqn:Hrun; [|exact I].
  destruct (fixBrokenLink_invariant s s' Hs Hrun) as (? & _ & ?). auto.
Qed.

Ltac hoare_step :=
  match goal with
  | |- hoare _ (bind _ _) _ =>
      apply hoare_bind_steady; [solve [repeat steady_step]|intros ?]
  | |- hoare _ (fail _) _ => apply hoare_fail
  | |- hoare _ fixBrokenLink _ => apply hoare_fixBrokenLink
  | |- hoare _ (if ?b then _ else _) _ => destruct b
  | |- hoare _ (let '(_, _) := ?x in _) _ => destruct x
  end.

Lemma hoare_Install GOOS GOARCH v :
  hoare absolute_layout (Install GOOS GOARCH v)
    (fun _ s' => absolute_layout s' /\
                 (installedVersions (fst s') <> ∅ -> link_resolves s' = true)).
Proof. unfold Install, downloadURL, extract. repeat hoare_step. Qed.

Lemma hoare_Uninstall v :
  hoare absolute_layout (Uninstall v)
    (fun _ s' => absolute_layout s' /\
                 (installedVersions (fst s') <> ∅ -> link_resolves s' = true)).
Proof.
  intros s Hs. rewrite Uninstall_unfold. case_bool_decide; [|exact I].
  apply hoare_fixBrokenLink, without_version_absolute, Hs.
Qed.

(** C8, on the code.  The link repair chooses among the entries of the
    registry, and Install does not enter the version it installs there.
    On the install root /usr/local/go with 1.15 as the only installed
    version and the active link on it: Uninstall(1.15) returns nil and
    leaves the registry empty and the link dangling; Install(1.15.2) then
    returns nil and makes the directory go1.15.2, and its closing repair,
    which finds the registry empty, leaves the link as it was: an installed
    version is on disk and the active link points at go1.15, which is not
    there.  And on a relative install root ("go", with 1.15 installed) the
    repair returns nil and writes the link go/current with the target text
    go/go1.15, which is read from the directory of the link and leads
    nowhere. *)
Theorem Install_leaves_link_dangling :
  (let v := mkVersion Stable 1 15 2 0 in
   exists s1 s2,
     Uninstall (mkVersion Stable 1 15 0 0) last_installed_state = (Ok tt, s1) /\
     installedVersions (fst s1) = ∅ /\
     link_resolves s1 = false /\
     Install "linux" "amd64" v s1 = (Ok tt, s2) /\
     fs (snd s2) !! versionGoRoot (fst s2) v = Some Dir /\
     installedVersions (fst s2) = ∅ /\
     fs (snd s2) !! linkPath (fst s2) = Some (Link "/usr/local/go/go1.15") /\
     fs (snd s2) !! "/usr/local/go/go1.15" = None /\
     link_resolves s2 = false) /\
  (exists s',
     fixBrokenLink relative_root_state = (Ok tt, s') /\
     installedVersions (fst s') = {[ "1.15" := mkVersion Stable 1 15 0 0 ]} /\
     fs (snd s') !! "go/go1.15" = Some Dir /\
     fs (snd s') !! linkPath (fst s') = Some (Link "go/go1.15") /\
     os.follow (linkPath (fst s')) "go/go1.15" = "go/go/go1.15" /\
     fs (snd s') !! "go/go/go1.15" = None /\
     link_resolves s' = false).
Proof.
  split.
  - intros v.
    assert (exists s1, Uninstall (mkVersion Stable 1 15 0 0) last_installed_state
                       = (Ok tt, s1)) as [s1 H1]
      by (vm_compute; eexists; reflexivity).
    assert (exists s2, Install "linux" "amd64" v s1 = (Ok tt, s2)) as [s2 H2].
    { replace s1 with (snd (Uninstall (mkVersion Stable 1 15 0 0) last_installed_state))
        by (rewrite H1; reflexivity).
      vm_compute. eexists. reflexivity. }
    assert (s1 = snd (Uninstall (mkVersion Stable 1 15 0 0) last_installed_state)) as E1
      by (rewrite H1; reflexivity).
    assert (s2 = snd (Install "linux" "amd64" v
                        (snd (Uninstall (mkVersion Stable 1 15 0 0) last_installed_state))))
      as E2 by (rewrite <- E1, H2; reflexivity).
    exists s1, s2. split; [exact H1|].
    split; [rewrite E1; vm_compute; reflexivity|].
    split; [rewrite E1; vm_compute; reflexivity|].
    split; [exact H2|].
    repeat split; rewrite E2; vm_compute; reflexivity.
  - assert (exists s', fixBrokenLink relative_root_state = (Ok tt, s')) as [s' H]
      by (vm_compute; eexists; reflexivity).
    assert (s' = snd (fixBrokenLink relative_root_state)) as E by (rewrite H; reflexivity).
    exists s'. split; [exact H|].
    repeat split; rewrite E; vm_compute; reflexivity.
Qed.

(** X27. Over the entries of the registry and on an absolute install root:
    the link repair leaves everything as it is when the active link
    resolves; when it does not and the registry is not empty, it points the
    link at the directory of a newest entry of the registry (a maximum
    under CompareVersion), which under the install root layout exists, so
    that the link resolves afterwards.  Uninstall of a registered version
    runs the repair on the state without that version, and after a
    successful Uninstall or Install from a state with the layout on an
    absolute root, the layout still holds and, as long as the registry is
    not empty, the active link resolves. *)
Theorem link_repair (GOOS GOARCH : string) (v : Version) (s : State) :
  (link_resolves s = true -> fixBrokenLink s = (Ok tt, s)) /\
  (link_resolves s = false -> installedVersions (fst s) <> ∅ ->
   exists m,
     newest (fst s) m /\
     let s' := (fst s, with_fs (<[linkPath (fst s) := Link (versionGoRoot (fst s) m)]>
                                  (fs (snd s))) (snd s)) in
     fixBrokenLink s = (Ok tt, s') /\
     (absolute_layout s -> link_resolves s' = true)) /\
  (is_Some (installedVersions (fst s) !! Version_String v) ->
   Uninstall v s = fixBrokenLink (without_version v s)) /\
  (forall s', absolute_layout s -> Uninstall v s = (Ok tt, s') ->
     absolute_layout s' /\
     (installedVersions (fst s') <> ∅ -> link_resolves s' = true)) /\
  (forall s', absolute_layout s -> Install GOOS GOARCH v s = (Ok tt, s') ->
     absolute_layout s' /\
     (installedVersions (fst s') <> ∅ -> link_resolves s' = true)).
Proof.
  split; [apply fixBrokenLink_resolved|]. split; [|split; [|split]].
  - destruct s as [env w]. cbn [fst snd]. intros Hbroken Hne.
    destruct (fixBrokenLink_unresolved env w Hbroken) as [_ Hsome].
    destruct (Hsome Hne) as (m & Hm & Hfix). exists m. split; [exact Hm|].
    split; [exact Hfix|]. intros [Habs Hdisk].
    apply (repaired_link_resolves env w m Habs Hdisk Hm Hbroken).
  - intros Hhas. rewrite Uninstall_unfold. rewrite bool_decide_eq_true_2; auto.
  - intros s' Hdisk Hrun. pose proof (hoare_Uninstall v s Hdisk) as H.
    rewrite Hrun in H. exact H.
  - intros s' Hdisk Hrun. pose proof (hoare_Install GOOS GOARCH v s Hdisk) as H.
    rewrite Hrun in H. exact H.
Qed.

Lemma two_installed_on_disk (m : gmap string node) :
  m !! "/usr/local/go/go1.15" = Some Dir ->
  m !! "/usr/local/go/go1.16" = Some Dir ->
  absolute_layout (sample_env two_installed [], sample_world m).
Proof.
  intros H15 H16. split; [reflexivity|]. intros k u Hk.
  cbn [fst snd sample_env installedVersions] in Hk.
  unfold two_installed in Hk.
  apply lookup_insert_Some in Hk as [[<- <-]|[_ Hk]]; [split; [reflexivity|exact H15]|].
  apply lookup_singleton_Some in Hk as [<- <-]. split; [reflexivity|exact H16].
Qed.

Lemma link_repair_witness :
  (* Uninstall of the active version *)
  (let s0 := (sample_env two_installed [], sample_world two_on_disk) in
   let s1 := (sample_env {[ "1.15" := mkVersion Stable 1 15 0 0 ]} [],
              sample_world {[ "/usr/local/go/go1.15" := Dir;
                              "/usr/local/go/current" := Link "/usr/local/go/go1.15" ]}) in
   absolute_layout s0 /\
   Uninstall (mkVersion Stable 1 16 0 0) s0 = (Ok tt, s1) /\
   absolute_layout s1 /\
   link_resolves s1 = true) /\
  (* the repair of a dangling link *)
  (let s2 := (sample_env two_installed [], sample_world two_on_disk_dangling) in
   exists m,
     newest (fst s2) m /\
     let s' := (fst s2, with_fs (<[linkPath (fst s2) := Link (versionGoRoot (fst s2) m)]>
                                   (fs (snd s2))) (snd s2)) in
     fixBrokenLink s2 = (Ok tt, s') /\ link_resolves s' = true) /\
  (* Install next to an installed version, no link yet *)
  (exists s',
     Install "linux" "amd64" (mkVersion RC 1 16 0 1) one_installed_state = (Ok tt, s') /\
     absolute_layout s' /\ link_resolves s' = true).
Proof.
  split; [|split].
  - intros s0 s1.
    assert (absolute_layout s0) as Hdisk by (apply two_installed_on_disk; reflexivity).
    assert (Uninstall (mkVersion Stable 1 16 0 0) s0 = (Ok tt, s1)) as Hrun
      by (vm_compute; reflexivity).
    split; [exact Hdisk|]. split; [exact Hrun|].
    destruct (link_repair "linux" "amd64" (mkVersion Stable 1 16 0 0) s0)
      as (_ & _ & _ & Huninstall & _).
    destruct (Huninstall s1 Hdisk Hrun) as [Hdisk1 Hlink]. split; [exact Hdisk1|].
    apply Hlink. vm_compute. discriminate.
  - intros s2.
    destruct (link_repair "linux" "amd64" (mkVersion Stable 1 16 0 0) s2)
      as (_ & Hrepair & _).
    destruct Hrepair as (m & Hm & Hfix & Hres);
      [vm_compute; reflexivity|vm_compute; discriminate|].
    exists m. split; [exact Hm|]. split; [exact Hfix|].
    apply Hres. apply two_installed_on_disk; reflexivity.
  - assert (exists s', Install "linux" "amd64" (mkVersion RC 1 16 0 1)
                         one_installed_state = (Ok tt, s')) as [s' Hrun]
      by (vm_compute; eexists; reflexivity).
    exists s'. split; [exact Hrun|].
    assert (absolute_layout one_installed_state) as Hdisk.
    { split; [reflexivity|]. intros k u Hk. unfold one_installed_state in Hk.
      cbn [fst snd sample_env installedVersions] in Hk.
      apply lookup_singleton_Some in Hk as [<- <-]. split; reflexivity. }
    destruct (link_repair "linux" "amd64" (mkVersion RC 1 16 0 1) one_installed_state)
      as (_ & _ & _ & _ & Hinstall).
    destruct (Hinstall s' Hdisk Hrun) as [Hdisk' Hlink]. split; [exact Hdisk'|].
    apply Hlink.
    pose proof (steady_Install "linux" "amd64" (mkVersion RC 1 16 0 1)
                  one_installed_state) as (Hreg & _).
    rewrite Hrun in Hreg. cbn [snd] in Hreg. rewrite Hreg.
    vm_compute. discriminate.
Defined.

(** After that Install the link leads to 1.15, the newest version of the
    registry, not to the 1.16rc1 just installed. *)
Example Install_links_registry_newest :
  fs (snd (snd (Install "linux" "amd64" (mkVersion RC 1 16 0 1) one_installed_state)))
    !! "/usr/local/go/current"
  = Some (Link "/usr/local/go/go1.15").
Proof. vm_compute. reflexivity. Qed.

(** The repair picks the newest installed version, not the next older one:
    with 1.14.3, 1.15.2 and 1.16beta1 left, the link goes to 1.16beta1. *)
Example Uninstall_relinks_newest :
  let installed : gmap string Version :=
    {[ "1.14.3" := mkVersion Stable 1 14 3 0; "1.15.2" := mkVersion Stable 1 15 2 0;
       "1.16beta1" := mkVersion Beta 1 16 0 1; "1.16" := mkVersion Stable 1 16 0 0 ]} in
  let disk : gmap string node :=
    {[ "/usr/local/go/go1.14.3" := Dir; "/usr/local/go/go1.15.2" := Dir;
       "/usr/local/go/go1.16beta1" := Dir; "/usr/local/go/go1.16" := Dir;
       "/usr/local/go/current" := Link "/usr/local/go/go1.16" ]} in
  fs (snd (snd (Uninstall (mkVersion Stable 1 16 0 0)
                  (sample_env installed [], sample_world disk))))
    !! "/usr/local/go/current"
  = Some (Link "/usr/local/go/go1.16beta1").
Proof. vm_compute. reflexivity. Qed.

(* ===================================================================== *)
(** ** The registry under Install and Uninstall *)
(* ===================================================================== *)

(** No run of [Install] changes the registry. *)
Lemma Install_registry GOOS GOARCH v s :
  installedVersions (fst (snd (Install GOOS GOARCH v s))) = installedVersions (fst s).
Proof. apply (steady_Install GOOS GOARCH v s). Qed.

(** C9, on the code.  No run of Install changes the registry.  So
    Install(1.15.2) into an empty install root succeeds (the archive is
    fetched and the version directory made), but the registry is still empty
    afterwards, HasVersion(1.15.2) is still false, and the link repair at the
    end of Install, which reads the registry, has made no active link. *)
Theorem Install_does_not_register :
  (forall GOOS GOARCH v s,
     installedVersions (fst (snd (Install GOOS GOARCH v s))) = installedVersions (fst s)) /\
  let v := mkVersion Stable 1 15 2 0 in
  exists s',
    Install "linux" "amd64" v fresh_state = (Ok tt, s') /\
    fs (snd s') !! versionGoRoot (fst s') v = Some Dir /\
    installedVersions (fst s') = ∅ /\
    HasVersion v s' = (Ok false, s') /\
    fs (snd s') !! linkPath (fst s') = None.
Proof.
  split; [apply Install_registry|]. intros v.
  assert (exists s', Install "linux" "amd64" v fresh_state = (Ok tt, s')) as [s' Hrun]
    by (vm_compute; eexists; reflexivity).
  exists s'. split; [exact Hrun|].
  pose proof (Install_registry "linux" "amd64" v fresh_state) as Hreg.
  rewrite Hrun in Hreg. cbn [fst snd] in Hreg.
  change (installedVersions (fst fresh_state)) with (∅ : gmap string Version) in Hreg.
  assert (s' = snd (Install "linux" "amd64" v fresh_state)) as Hs'
    by (rewrite Hrun; reflexivity).
  split; [|split; [|split]].
  - rewrite Hs'. vm_compute. reflexivity.
  - exact Hreg.
  - destruct s' as [env' w']. rewrite HasVersion_spec. cbn [fst] in Hreg.
    rewrite Hreg, lookup_empty. reflexivity.
  - rewrite Hs'. vm_compute. reflexivity.
Qed.

(** [Uninstall] does keep the registry: a successful [Uninstall v] removes
    the entry filed under [String v] and no other. *)
Example Uninstall_removes_entry v s s' :
  Uninstall v s = (Ok tt, s') ->
  installedVersions (fst s') = delete (Version_String v) (installedVersions (fst s)).
Proof. intros H. apply (Uninstall_registry v s s' H). Qed.

(* ===================================================================== *)
(** * Further properties of the code *)
(* ===================================================================== *)

(* ===================================================================== *)
(** ** The parser, in full *)
(* ===================================================================== *)

Section VersionFacts.
Import Go.

Lemma ParseVersion_go_prefix s :
  cut_prefix "go" s = None -> s <> "-head" ->
  ParseVersion ("go" ++ s) = ParseVersion s.
Proof.
  intros Hgo Hhead. unfold ParseVersion.
  assert (String.eqb ("go" ++ s) headVersion = false) as ->.
  { apply String.eqb_neq. intros E. apply Hhead. unfold headVersion in E.
    change ("go" ++ s) with (String "g" (String "o" s)) in E. congruence. }
  assert (String.eqb s headVersion = false) as ->.
  { apply String.eqb_neq. intros ->. discriminate. }
  unfold TrimPrefix. rewrite Hgo.
  change (cut_prefix "go" ("go" ++ s)) with (Some s). reflexivity.
Qed.

(** Only the sentinel text gives the Head version. *)
Lemma ParseVersion_Head s v :
  ParseVersion s = Ok v -> (Type_ v = Head <-> s = headVersion).
Proof.
  unfold ParseVersion. destruct (String.eqb_spec s headVersion) as [->|Hne].
  { intros [= <-]. split; reflexivity. }
  intros H. split; [|congruence]. revert H.
  repeat (match goal with
          | |- context [match ?x with _ => _ end] => destruct x
          | |- context [if ?x then _ else _] => destruct x
          end; try discriminate; try (intros [= <-]; discriminate)).
Qed.

(** The text of a parsed version other than Head starts with "1.", not
    with "go". *)
Lemma Version_String_no_go v :
  parsed v -> Type_ v <> Head ->
  cut_prefix "go" (Version_String v) = None /\ Version_String v <> "-head".
Proof.
  destruct v as [tp ma mi pa rn]. unfold parsed, Version_String.
  cbn [Type_ Major Minor Patch Release].
  destruct tp; try congruence; intros (-> & _) _;
    try destruct (pa >? 0); split; try reflexivity; discriminate.
Qed.

(** The matcher on a text of each of the four shapes. *)
Lemma FindStringSubmatch_minor minor :
  digits1 minor ->
  versionRegexp_FindStringSubmatch ("1." ++ minor) =
    Some ["1." ++ minor; "1"; minor; ""; ""; ""; ""; ""; ""].
Proof.
  intros [Hne Hd]. unfold versionRegexp_FindStringSubmatch.
  change (cut_prefix "1." ("1." ++ minor)) with (Some minor). cbv beta iota.
  rewrite (digits_span_all minor Hd), (is_empty_false minor Hne). reflexivity.
Qed.

Lemma FindStringSubmatch_minor_patch minor patch :
  digits1 minor -> digits1 patch ->
  versionRegexp_FindStringSubmatch ("1." ++ minor ++ "." ++ patch) =
    Some ["1." ++ minor ++ "." ++ patch; "1"; minor;
          "." ++ patch; "." ++ patch; patch; ""; ""; ""].
Proof.
  intros [Hne Hd] [Hpne Hpd]. unfold versionRegexp_FindStringSubmatch.
  change (cut_prefix "1." ("1." ++ minor ++ "." ++ patch))
    with (Some (minor ++ "." ++ patch)). cbv beta iota.
  rewrite (digits_span_app minor ("." ++ patch) Hd eq_refl), (is_empty_false minor Hne).
  change (is_empty ("." ++ patch)) with false. cbv beta iota.
  change (cut_prefix "." ("." ++ patch)) with (Some patch). cbv beta iota.
  rewrite (digits_span_all patch Hpd), (is_empty_false patch Hpne). reflexivity.
Qed.

Lemma FindStringSubmatch_minor_beta minor rel :
  digits1 minor -> digits1 rel ->
  versionRegexp_FindStringSubmatch ("1." ++ minor ++ "beta" ++ rel) =
    Some ["1." ++ minor ++ "beta" ++ rel; "1"; minor;
          "beta" ++ rel; ""; ""; "beta" ++ rel; "beta"; rel].
Proof.
  intros [Hne Hd] [Hrne Hrd]. unfold versionRegexp_FindStringSubmatch.
  change (cut_prefix "1." ("1." ++ minor ++ "beta" ++ rel))
    with (Some (minor ++ "beta" ++ rel)). cbv beta iota.
  rewrite (digits_span_app minor ("beta" ++ rel) Hd eq_refl), (is_empty_false minor Hne).
  change (is_empty ("beta" ++ rel)) with false. cbv beta iota.
  change (cut_prefix "." ("beta" ++ rel)) with (@None string).
  change (cut_prefix "beta" ("beta" ++ rel)) with (Some rel). cbv beta iota zeta.
  rewrite (digits_span_all rel Hrd), (is_empty_false rel Hrne). reflexivity.
Qed.

Lemma FindStringSubmatch_minor_rc minor rel :
  digits1 minor -> digits1 rel ->
  versionRegexp_FindStringSubmatch ("1." ++ minor ++ "rc" ++ rel) =
    Some ["1." ++ minor ++ "rc" ++ rel; "1"; minor;
          "rc" ++ rel; ""; ""; "rc" ++ rel; "rc"; rel].
Proof.
  intros [Hne Hd] [Hrne Hrd]. unfold versionRegexp_FindStringSubmatch.
  change (cut_prefix "1." ("1." ++ minor ++ "rc" ++ rel))
    with (Some (minor ++ "rc" ++ rel)). cbv beta iota.
  rewrite (digits_span_app minor ("rc" ++ rel) Hd eq_refl), (is_empty_false minor Hne).
  change (is_empty ("rc" ++ rel)) with false. cbv beta iota.
  change (cut_prefix "." ("rc" ++ rel)) with (@None string).
  change (cut_prefix "beta" ("rc" ++ rel)) with (@None string).
  change (cut_prefix "rc" ("rc" ++ rel)) with (Some rel). cbv beta iota zeta.
  rewrite (digits_span_all rel Hrd), (is_empty_false rel Hrne). reflexivity.
Qed.

(** The parser on a text of each of the four shapes (once a leading "go"
    is off). *)
Lemma ParseVersion_unfold s :
  s <> headVersion ->
  ParseVersion s =
    match versionRegexp_FindStringSubmatch (TrimPrefix s "go") with
    | None => Err ErrVersionSyntax
    | Some m =>
        match Atoi (sub m 1), Atoi (sub m 2) with
        | Some major, Some minor =>
            if is_empty (sub m 3) then Ok (mkVersion Stable major minor 0 0)
            else if negb (is_empty (sub m 5)) then
              match Atoi (sub m 5) with
              | None => Err ErrVersionSyntax
              | Some patch => Ok (mkVersion Stable major minor patch 0)
              end
            else
              match Atoi (sub m 8) with
              | None => Err ErrVersionSyntax
              | Some rn =>
                  Ok (mkVersion (if String.eqb (sub m 7) "beta" then Beta else RC)
                                major minor 0 rn)
              end
        | _, _ => Err ErrVersionSyntax
        end
    end.
Proof.
  intros Hs. unfold ParseVersion. destruct (String.eqb_spec s headVersion); [congruence|].
  cbv zeta. destruct (versionRegexp_FindStringSubmatch _) as [m|]; [|reflexivity].
  destruct (Atoi (sub m 1)); [|reflexivity]. destruct (Atoi (sub m 2)); reflexivity.
Qed.

Lemma ParseVersion_minor s minor :
  s <> headVersion -> TrimPrefix s "go" = "1." ++ minor -> digits1 minor ->
  ParseVersion s = match Atoi minor with
                   | Some mi => Ok (mkVersion Stable 1 mi 0 0)
                   | None => Err ErrVersionSyntax
                   end.
Proof.
  intros Hs Ht Hminor. rewrite (ParseVersion_unfold s Hs), Ht.
  rewrite (FindStringSubmatch_minor minor Hminor). cbn [sub nth].
  change (Atoi "1") with (Some 1). destruct (Atoi minor); reflexivity.
Qed.

Lemma ParseVersion_minor_patch s minor patch :
  s <> headVersion -> TrimPrefix s "go" = "1." ++ minor ++ "." ++ patch ->
  digits1 minor -> digits1 patch ->
  ParseVersion s = match Atoi minor, Atoi patch with
                   | Some mi, Some pa => Ok (mkVersion Stable 1 mi pa 0)
                   | _, _ => Err ErrVersionSyntax
                   end.
Proof.
  intros Hs Ht Hminor Hpatch. rewrite (ParseVersion_unfold s Hs), Ht.
  rewrite (FindStringSubmatch_minor_patch minor patch Hminor Hpatch). cbn [sub nth].
  change (Atoi "1") with (Some 1). destruct (Atoi minor); [|reflexivity].
  change (is_empty ("." ++ patch)) with false.
  rewrite (is_empty_false patch (proj1 Hpatch)). cbn [negb].
  destruct (Atoi patch); reflexivity.
Qed.

Lemma ParseVersion_minor_beta s minor rel :
  s <> headVersion -> TrimPrefix s "go" = "1." ++ minor ++ "beta" ++ rel ->
  digits1 minor -> digits1 rel ->
  ParseVersion s = match Atoi minor, Atoi rel with
                   | Some mi, Some rn => Ok (mkVersion Beta 1 mi 0 rn)
                   | _, _ => Err ErrVersionSyntax
                   end.
Proof.
  intros Hs Ht Hminor Hrel. rewrite (ParseVersion_unfold s Hs), Ht.
  rewrite (FindStringSubmatch_minor_beta minor rel Hminor Hrel). cbn [sub nth].
  change (Atoi "1") with (Some 1). destruct (Atoi minor); [|reflexivity].
  change (is_empty ("beta" ++ rel)) with false. cbn [is_empty negb].
  change (String.eqb "beta" "beta") with true. cbv iota.
  destruct (Atoi rel); reflexivity.
Qed.

Lemma ParseVersion_minor_rc s minor rel :
  s <> headVersion -> TrimPrefix s "go" = "1." ++ minor ++ "rc" ++ rel ->
  digits1 minor -> digits1 rel ->
  ParseVersion s = match Atoi minor, Atoi rel with
                   | Some mi, Some rn => Ok (mkVersion RC 1 mi 0 rn)
                   | _, _ => Err ErrVersionSyntax
                   end.
Proof.
  intros Hs Ht Hminor Hrel. rewrite (ParseVersion_unfold s Hs), Ht.
  rewrite (FindStringSubmatch_minor_rc minor rel Hminor Hrel). cbn [sub nth].
  change (Atoi "1") with (Some 1). destruct (Atoi minor); [|reflexivity].
  change (is_empty ("rc" ++ rel)) with false. cbn [is_empty negb].
  change (String.eqb "rc" "beta") with false. cbv iota.
  destruct (Atoi rel); reflexivity.
Qed.

(** A number above the range of [int] prints as a numeral that Atoi
    refuses. *)
Lemma Atoi_itoa_overflow n : max_int < n -> digits1 (itoa n) /\ Atoi (itoa n) = None.
Proof.
  intros Hn. assert (0 <= n) as H0 by (unfold max_int in Hn; lia).
  destruct (itoa_nonneg n H0) as (d & E & Hd & Hv).
  destruct (digits_span_itoa n "" H0 eq_refl) as [Hspan Hne].
  rewrite append_empty_r in Hspan.
  apply digits_span_spec in Hspan as (_ & Hall & _).
  split; [split; [intros E'; rewrite E' in Hne; discriminate|exact Hall]|].
  rewrite E in *. unfold Atoi.
  destruct (NilEmpty.string_of_uint d) eqn:E'; [reflexivity|].
  rewrite <- E', atoi_loop_uint, Hv.
  destruct (Z.leb_spec n max_int); [lia|reflexivity].
Qed.

(** X1. For a text other than the head sentinel, ParseVersion succeeds with
    v exactly when the text, once a leading "go" is taken off, is "1." and a
    minor numeral followed by nothing (Stable, patch 0), by "." and a patch
    numeral (Stable), by "beta" and a release numeral (Beta) or by "rc" and
    a release numeral (RC), each numeral being a non-empty run of digits
    that strconv.Atoi reads (so within the range of int), and v carries
    major 1 and the numbers read. *)
Theorem ParseVersion_grammar (s : string) (v : Version) :
  s <> headVersion ->
  (ParseVersion s = Ok v <->
   exists minor mi, numeral minor mi /\
     ((TrimPrefix s "go" = "1." ++ minor /\ v = mkVersion Stable 1 mi 0 0) \/
      (exists patch pa, numeral patch pa /\
         TrimPrefix s "go" = "1." ++ minor ++ "." ++ patch /\
         v = mkVersion Stable 1 mi pa 0) \/
      (exists rel rn, numeral rel rn /\
         TrimPrefix s "go" = "1." ++ minor ++ "beta" ++ rel /\
         v = mkVersion Beta 1 mi 0 rn) \/
      (exists rel rn, numeral rel rn /\
         TrimPrefix s "go" = "1." ++ minor ++ "rc" ++ rel /\
         v = mkVersion RC 1 mi 0 rn))).
Proof.
  intros Hs. unfold numeral. split.
  - intros Hparse.
    assert (matches versionRegexp (TrimPrefix s "go")) as Hmatch.
    { destruct (versionRegexp_FindStringSubmatch (TrimPrefix s "go")) as [m|] eqn:Hm.
      - apply FindStringSubmatch_matches. eauto.
      - rewrite (ParseVersion_unfold s Hs), Hm in Hparse. discriminate. }
    apply matches_versionRegexp in Hmatch as (minor & tail & Ht & Hminor & Htail).
    destruct Htail as [-> | [(patch & -> & Hpatch) | (word & rel & Hword & -> & Hrel)]].
    + rewrite append_empty_r in Ht.
      rewrite (ParseVersion_minor s minor Hs Ht Hminor) in Hparse.
      destruct (Atoi minor) as [mi|] eqn:Hmi; [|discriminate]. injection Hparse as <-.
      exists minor, mi. auto.
    + rewrite (ParseVersion_minor_patch s minor patch Hs Ht Hminor Hpatch) in Hparse.
      destruct (Atoi minor) as [mi|] eqn:Hmi; [|discriminate].
      destruct (Atoi patch) as [pa|] eqn:Hpa; [|discriminate]. injection Hparse as <-.
      exists minor, mi. split; [auto|]. right; left. exists patch, pa. auto.
    + destruct Hword as [-> | ->].
      * rewrite (ParseVersion_minor_beta s minor rel Hs Ht Hminor Hrel) in Hparse.
        destruct (Atoi minor) as [mi|] eqn:Hmi; [|discriminate].
        destruct (Atoi rel) as [rn|] eqn:Hrn; [|discriminate]. injection Hparse as <-.
        exists minor, mi. split; [auto|]. right; right; left. exists rel, rn. auto.
      * rewrite (ParseVersion_minor_rc s minor rel Hs Ht Hminor Hrel) in Hparse.
        destruct (Atoi minor) as [mi|] eqn:Hmi; [|discriminate].
        destruct (Atoi rel) as [rn|] eqn:Hrn; [|discriminate]. injection Hparse as <-.
        exists minor, mi. split; [auto|]. right; right; right. exists rel, rn. auto.
  - intros (minor & mi & [Hminor Hmi] & H).
    destruct H as [[Ht ->] | [(patch & pa & [Hpatch Hpa] & Ht & ->) |
                   [(rel & rn & [Hrel Hrn] & Ht & ->) | (rel & rn & [Hrel Hrn] & Ht & ->)]]].
    + rewrite (ParseVersion_minor s minor Hs Ht Hminor), Hmi. reflexivity.
    + rewrite (ParseVersion_minor_patch s minor patch Hs Ht Hminor Hpatch), Hmi, Hpa.
      reflexivity.
    + rewrite (ParseVersion_minor_beta s minor rel Hs Ht Hminor Hrel), Hmi, Hrn.
      reflexivity.
    + rewrite (ParseVersion_minor_rc s minor rel Hs Ht Hminor Hrel), Hmi, Hrn.
      reflexivity.
Qed.

Lemma ParseVersion_grammar_witness :
  ParseVersion "go1.15rc10" = Ok (mkVersion RC 1 15 0 10).
Proof.
  apply (ParseVersion_grammar "go1.15rc10"); [discriminate|].
  exists "15", 15. split; [repeat split; discriminate|].
  right; right; right. exists "10", 10.
  split; [repeat split; discriminate|]. split; reflexivity.
Defined.

(** X2. ParseVersion returns ErrVersionSyntax and no other error; a version
    it returns is the Head version with all numbers zero exactly when the
    text is "go-head", and otherwise has major 1, a minor, patch and release
    number between 0 and the largest int, no release number when Stable
    and no patch when Beta or RC. *)
Theorem ParseVersion_result (s : string) :
  match ParseVersion s with
  | Err e => e = ErrVersionSyntax
  | Ok v =>
      (Type_ v = Head <-> s = headVersion) /\
      (Type_ v = Head -> v = mkVersion Head 0 0 0 0) /\
      (Type_ v <> Head ->
         Major v = 1 /\ 0 <= Minor v <= max_int /\
         0 <= Patch v <= max_int /\ 0 <= Release v <= max_int /\
         (Type_ v = Stable -> Release v = 0) /\
         (Type_ v <> Stable -> Patch v = 0))
  end.
Proof.
  destruct (ParseVersion s) as [v|e] eqn:H; [|eapply ParseVersion_error; exact H].
  split; [exact (ParseVersion_Head s v H)|].
  apply ParseVersion_parsed in H. destruct v as [tp ma mi pa rn].
  unfold parsed in H. cbn [Type_ Major Minor Patch Release] in *.
  assert (0 <= max_int) by (unfold max_int; lia).
  destruct tp; (split; [intros Ht; try discriminate Ht|intros Ht; try congruence]).
  - destruct H as (-> & ? & ? & ->). repeat split; try lia; congruence.
  - destruct H as (-> & ? & -> & ?). repeat split; try lia; congruence.
  - destruct H as (-> & ? & -> & ?). repeat split; try lia; congruence.
  - destruct H as (-> & -> & -> & ->). reflexivity.
Qed.

(** X3. Round trip for every text: when ParseVersion succeeds on a text,
    the canonical text String() of its result parses to the same version,
    and so does that text behind a "go" prefix unless the version is Head
    (the text "gogo-head" is not a version). *)
Theorem ParseVersion_String_roundtrip (s : string) (v : Version) :
  ParseVersion s = Ok v ->
  ParseVersion (Version_String v) = Ok v /\
  (Type_ v <> Head -> ParseVersion ("go" ++ Version_String v) = Ok v) /\
  (Type_ v = Head -> ParseVersion ("go" ++ Version_String v) = Err ErrVersionSyntax).
Proof.
  intros H. apply ParseVersion_parsed in H.
  split; [apply ParseVersion_String, H|]. split.
  - intros Ht. destruct (Version_String_no_go v H Ht) as [Hgo Hhead].
    rewrite (ParseVersion_go_prefix _ Hgo Hhead). apply ParseVersion_String, H.
  - intros Ht. unfold Version_String. rewrite Ht. reflexivity.
Qed.

Lemma ParseVersion_String_roundtrip_witness :
  ParseVersion (Version_String (mkVersion Stable 1 16 0 0)) = Ok (mkVersion Stable 1 16 0 0) /\
  ParseVersion ("go" ++ Version_String (mkVersion Stable 1 16 0 0))
    = Ok (mkVersion Stable 1 16 0 0).
Proof.
  destruct (ParseVersion_String_roundtrip "go1.16.0" (mkVersion Stable 1 16 0 0) eq_refl)
    as (H1 & H2 & _).
  split; [exact H1|]. apply H2. discriminate.
Defined.

(** X4. A numeral above the largest int is refused although the text
    matches the regular expression: for n > 2^63 - 1 the texts "1.n",
    "1.16.n" and "1.16rcn" match the expression and ParseVersion returns
    ErrVersionSyntax on them. *)
Theorem ParseVersion_int_overflow (n : Z) :
  max_int < n ->
  matches versionRegexp ("1." ++ itoa n) /\
  ParseVersion ("1." ++ itoa n) = Err ErrVersionSyntax /\
  ParseVersion ("1.16." ++ itoa n) = Err ErrVersionSyntax /\
  ParseVersion ("1.16rc" ++ itoa n) = Err ErrVersionSyntax.
Proof.
  intros Hn. destruct (Atoi_itoa_overflow n Hn) as [Hd Hnone].
  assert (digits1 "16") as H16 by (split; [discriminate|reflexivity]).
  split; [|split; [|split]].
  - apply matches_versionRegexp. exists (itoa n), "".
    rewrite append_empty_r. auto.
  - rewrite (ParseVersion_minor _ (itoa n)), Hnone; [reflexivity|discriminate|reflexivity|exact Hd].
  - rewrite (ParseVersion_minor_patch _ "16" (itoa n)), Hnone;
      [reflexivity|discriminate|reflexivity|exact H16|exact Hd].
  - rewrite (ParseVersion_minor_rc _ "16" (itoa n)), Hnone;
      [reflexivity|discriminate|reflexivity|exact H16|exact Hd].
Qed.

Lemma ParseVersion_int_overflow_witness :
  ParseVersion "1.9223372036854775808" = Err ErrVersionSyntax.
Proof.
  apply (ParseVersion_int_overflow (2 ^ 63)). reflexivity.
Defined.

(** X5. The "go" prefix is optional and taken off once: for a text that
    does not itself start with "go" (and is not "-head"), ParseVersion gives
    the same result with and without the prefix; a second "go" is not taken
    off, so a text "gogo..." is never a version. *)
Theorem ParseVersion_go_prefix_once (s : string) :
  (cut_prefix "go" s = None -> s <> "-head" ->
   ParseVersion ("go" ++ s) = ParseVersion s) /\
  ParseVersion ("gogo" ++ s) = Err ErrVersionSyntax.
Proof.
  split; [apply ParseVersion_go_prefix|].
  apply ParseVersion_no_match; [discriminate|].
  change (TrimPrefix ("gogo" ++ s) "go") with ("go" ++ s).
  rewrite matches_versionRegexp. intros (minor & tail & E & _). discriminate E.
Qed.

Lemma ParseVersion_go_prefix_once_witness :
  ParseVersion ("go" ++ "1.16beta3") = ParseVersion "1.16beta3".
Proof.
  apply (ParseVersion_go_prefix_once "1.16beta3"); [reflexivity|discriminate].
Defined.

End VersionFacts.

(* ===================================================================== *)
(** ** The catalog *)
(* ===================================================================== *)

Lemma sublist_rev {A} (l1 l2 : list A) : sublist l1 l2 -> sublist (rev l1) (rev l2).
Proof.
  induction 1 as [|x l1 l2 _ IH|x l1 l2 _ IH]; cbn [rev].
  - constructor.
  - apply sublist_app; [exact IH|reflexivity].
  - apply sublist_inserts_r, IH.
Qed.

Lemma release_sorted_le (l : list Release.t) :
  StronglySorted
    (fun a b => CompareVersion (Release.Version a) (Release.Version b) <= 0)
    (Go.sort_Slice release_less l).
Proof.
  apply (sort_Slice_sorted release_less); unfold release_less.
  - intros a b Hab. apply Z.ltb_lt in Hab. lia.
  - intros a b Hab. apply Z.ltb_ge in Hab.
    rewrite CompareVersion_key, lex_compare_antisym, <- CompareVersion_key. lia.
  - intros a b c. apply CompareVersion_le_trans.
Qed.

Lemma convertReleases_parsed GOOS GOARCH listing rls :
  convertReleases GOOS GOARCH listing = Ok rls ->
  Forall (fun r => parsed (Release.Version r)) rls.
Proof.
  unfold convertReleases.
  destruct (convert_records_spec GOOS GOARCH listing []) as [[-> _] | [-> _]];
    [|discriminate].
  cbn [app]. intros [= <-]. apply List.Forall_forall. intros rl Hin.
  apply (sort_Slice_In release_less), kept_entries_In in Hin
    as (r & f & v & _ & _ & _ & Hv & ->).
  cbn [release_of Release.Version]. eapply ParseVersion_parsed. exact Hv.
Qed.

(** X6. A catalog that convertReleases returns is in ascending order of
    CompareVersion, and the version of each of its releases is one the
    parser made: its canonical text parses back to it. *)
Theorem convertReleases_sorted (GOOS GOARCH : string)
    (listing : list remoteRelease.t) (rls : list Release.t) :
  convertReleases GOOS GOARCH listing = Ok rls ->
  StronglySorted
    (fun a b => CompareVersion (Release.Version a) (Release.Version b) <= 0) rls /\
  Forall (fun r => ParseVersion (Version_String (Release.Version r))
                     = Ok (Release.Version r)) rls.
Proof.
  intros Hconv. split.
  - unfold convertReleases in Hconv.
    destruct (convert_records GOOS GOARCH listing []); [|discriminate].
    injection Hconv as <-. apply release_sorted_le.
  - apply convertReleases_parsed in Hconv.
    rewrite List.Forall_forall in Hconv |- *. intros r Hr.
    apply ParseVersion_String, Hconv, Hr.
Qed.

Lemma convertReleases_sorted_witness :
  StronglySorted
    (fun a b => CompareVersion (Release.Version a) (Release.Version b) <= 0)
    sample_catalog.
Proof.
  apply (convertReleases_sorted "linux" "amd64" sample_listing sample_catalog).
  reflexivity.
Defined.

Section CatalogQueries.
Variables GOOS GOARCH : string.

(** Loading changes nothing but the catalog, and nothing at all when it
    fails. *)
Lemma loadReleases_cases s :
  (exists e, loadReleases GOOS GOARCH s = (Err e, s)) \/
  (exists listing rls, convertReleases GOOS GOARCH listing = Ok rls /\
     loadReleases GOOS GOARCH s = (Ok tt, (set_releases rls (fst s), snd s))).
Proof.
  destruct s as [env w]. unfold loadReleases, os.Stat. run_M.
  destruct (os.resolve 40 (fs w) _); cbn [negb fst snd]; [|left; eauto].
  destruct (os.read_listing 40 (fs w) _) as [l|]; [|left; eauto].
  destruct (convertReleases GOOS GOARCH l) as [rls|e] eqn:E; [right|left]; eauto.
Qed.

Lemma ensure_releases_cases s :
  (exists e, ensure_releases GOOS GOARCH s = (Err e, s)) \/
  (releases (fst s) <> [] /\ ensure_releases GOOS GOARCH s = (Ok tt, s)) \/
  (exists listing rls, releases (fst s) = [] /\
     convertReleases GOOS GOARCH listing = Ok rls /\
     ensure_releases GOOS GOARCH s = (Ok tt, (set_releases rls (fst s), snd s))).
Proof.
  destruct s as [env w]. unfold ensure_releases. run_M.
  destruct (releases env) eqn:E.
  - destruct (loadReleases_cases (env, w)) as [[e H] | (listing & rls & Hconv & H)];
      [left; eauto|right; right]. exists listing, rls. auto.
  - right; left. split; [congruence|reflexivity].
Qed.

Lemma Releases_loaded env w :
  releases env <> [] -> Releases GOOS GOARCH (env, w) = (Ok (releases env), (env, w)).
Proof.
  intros Hne. unfold Releases, ensure_releases. run_M.
  destruct (releases env) eqn:E; [congruence|]. run_M. rewrite E. reflexivity.
Qed.

Lemma Releases_cases s :
  (exists e, Releases GOOS GOARCH s = (Err e, s)) \/
  (releases (fst s) <> [] /\ Releases GOOS GOARCH s = (Ok (releases (fst s)), s)) \/
  (exists listing rls, releases (fst s) = [] /\
     convertReleases GOOS GOARCH listing = Ok rls /\
     Releases GOOS GOARCH s = (Ok rls, (set_releases rls (fst s), snd s))).
Proof.
  unfold Releases. unfold bind.
  destruct (ensure_releases_cases s)
    as [[e ->] | [[Hne ->] | (listing & rls & Hnil & Hconv & ->)]].
  - left. eauto.
  - right; left. split; [exact Hne|]. destruct s. reflexivity.
  - right; right. exists listing, rls. split; [exact Hnil|]. split; [exact Hconv|].
    reflexivity.
Qed.

(** X7. Releases never touches the world (file system, network) and
    changes nothing of the Env but the catalog; when it fails the Env is
    unchanged; when it returns a catalog, that catalog is now in the Env,
    and if it is not empty every later call returns it from memory,
    whatever has become of the files. *)
Theorem Releases_cached (s : State) :
  let r := Releases GOOS GOARCH s in
  snd (snd r) = snd s /\
  (exists rls, fst (snd r) = set_releases rls (fst s)) /\
  (forall e, fst r = Err e -> snd r = s) /\
  (forall rls, fst r = Ok rls ->
     releases (fst (snd r)) = rls /\
     (rls <> [] -> forall w',
        Releases GOOS GOARCH (fst (snd r), w') = (Ok rls, (fst (snd r), w')))).
Proof.
  cbv zeta.
  assert (set_releases (releases (fst s)) (fst s) = fst s) as Hid
    by (destruct s as [[] ?]; reflexivity).
  destruct (Releases_cases s) as [[e ->] | [[Hne ->] | (listing & rls & Hnil & _ & ->)]];
    cbn [fst snd].
  - split; [reflexivity|]. split; [eauto|]. split; [reflexivity|discriminate].
  - split; [reflexivity|]. split; [eauto|].
    split; [discriminate|]. intros rls [= <-]. split; [reflexivity|].
    intros _ w'. apply Releases_loaded, Hne.
  - split; [reflexivity|]. split; [eauto|].
    split; [discriminate|]. intros rls' [= <-]. split; [reflexivity|].
    intros Hne w'. apply (Releases_loaded (set_releases rls (fst s))), Hne.
Qed.

Lemma find_release_In rs r :
  In r rs -> exists r', find_release rs (Release.Version r) = Some r'.
Proof.
  intros Hin. destruct (find_release rs (Release.Version r)) as [r'|] eqn:E; [eauto|].
  rewrite find_release_None in E. specialize (E r Hin).
  unfold EqualVersion in E. rewrite CompareVersion_key, lex_compare_refl in E.
  discriminate.
Qed.

Lemma FindRelease_loaded v env w :
  releases env <> [] ->
  FindRelease GOOS GOARCH v (env, w) =
    match find_release (releases env) v with
    | Some r => (Ok r, (env, w))
    | None => (Err (ErrorNew "specified version is not found"), (env, w))
    end.
Proof.
  intros Hne. unfold FindRelease, ensure_releases. run_M.
  destruct (releases env) eqn:E; [congruence|]. run_M. rewrite E.
  destruct (find_release _ v); reflexivity.
Qed.

End CatalogQueries.

(** *** The recency selection *)

Lemma unstable_loop_prefix rs : forall latest,
  exists rest, rs = (unstable_loop rs latest ++ rest)%list /\
    Forall (fun r => Release.Stable r = false) (unstable_loop rs latest).
Proof.
  induction rs as [|r rs IH]; intros latest; cbn [unstable_loop].
  - exists []. split; [reflexivity|constructor].
  - destruct (Release.Stable r) eqn:Hs; [exists (r :: rs); split; [reflexivity|constructor]|].
    cbv zeta.
    match goal with |- context [if ?c then _ else _] => destruct c end;
      [exists (r :: rs); split; [reflexivity|constructor]|].
    match goal with |- context [unstable_loop rs ?l] => destruct (IH l) as (rest & Hrest & Hall) end.
    exists rest. split; [cbn [app]; f_equal; exact Hrest|].
    constructor; assumption.
Qed.

Lemma stable_loop_skip p : forall rest latest n count,
  Forall (fun r => Release.Stable r = false) p ->
  stable_loop (p ++ rest) latest n count = stable_loop rest latest n count.
Proof.
  induction p as [|r p IH]; intros rest latest n count Hp; [reflexivity|].
  apply Forall_cons in Hp as [Hr Hp]. cbn [app stable_loop]. rewrite Hr. cbn [negb].
  apply IH, Hp.
Qed.

Lemma stable_loop_sublist rs : forall latest n count,
  sublist (stable_loop rs latest n count) rs /\
  Forall (fun r => Release.Stable r = true) (stable_loop rs latest n count).
Proof.
  induction rs as [|r rs IH]; intros latest n count; cbn [stable_loop].
  - split; constructor.
  - destruct (Release.Stable r) eqn:Hs; cbn [negb].
    + cbv zeta.
      match goal with |- context [match ?x with Some _ => _ | None => _ end] =>
        destruct x as [[[l' n'] c']|] end; [|split; [apply sublist_nil_l|constructor]].
      destruct (IH (Some l') n' (c' + 1)) as [Hsub Hall].
      destruct (c' <? 2); cbn [app].
      * split; [apply sublist_skip, Hsub|constructor; assumption].
      * split; [apply sublist_cons, Hsub|exact Hall].
    + destruct (IH latest n count) as [Hsub Hall].
      split; [apply sublist_cons, Hsub|exact Hall].
Qed.

(** The stable part holds at most two releases for each of [n] lines. *)
Lemma stable_loop_length rs : forall latest n count,
  match latest with None => 0 <= n | Some _ => 1 <= n end ->
  Z.of_nat (length (stable_loop rs latest n count)) <=
    match latest with None => 2 * n | Some _ => 2 * n - Z.min count 2 end.
Proof.
  induction rs as [|r rs IH]; intros latest n count Hn; cbn [stable_loop].
  - cbn [length]. destruct latest; lia.
  - destruct (Release.Stable r); cbn [negb]; [|apply IH, Hn].
    cbv zeta. destruct latest as [l|].
    + destruct (negb (Major (Release.Version r) =? Major l)
                || negb (Minor (Release.Version r) =? Minor l)).
      * destruct (Z.eqb_spec (n - 1) 0); [cbn [length]; lia|].
        change (0 <? 2) with true. cbv iota. cbn [app length].
        specialize (IH (Some (mkVersion Stable (Major (Release.Version r))
                                (Minor (Release.Version r)) 0 0)) (n - 1) (0 + 1)).
        cbv beta iota in IH. lia.
      * specialize (IH (Some l) n (count + 1) Hn). cbv beta iota in IH.
        destruct (Z.ltb_spec count 2); cbn [app length]; lia.
    + destruct (Z.eqb_spec n 0); [cbn [length]; lia|].
      change (0 <? 2) with true. cbv iota. cbn [app length].
      specialize (IH (Some (mkVersion Stable (Major (Release.Version r))
                              (Minor (Release.Version r)) 0 0)) n (0 + 1)).
      cbv beta iota in IH. lia.
Qed.

Lemma selectRecentReleases_split env n :
  exists rest,
    rev (releases env) = (unstable_loop (rev (releases env)) None ++ rest)%list /\
    Forall (fun r => Release.Stable r = false) (unstable_loop (rev (releases env)) None) /\
    selectRecentReleases env n =
      (unstable_loop (rev (releases env)) None ++ stable_loop rest None n 0)%list.
Proof.
  destruct (unstable_loop_prefix (rev (releases env)) None) as (rest & Hrest & Hall).
  exists rest. split; [exact Hrest|]. split; [exact Hall|].
  unfold selectRecentReleases. f_equal.
  rewrite Hrest at 1. apply stable_loop_skip, Hall.
Qed.

Lemma unstable_loop_line rs : forall l,
  Forall (fun r => Major (Release.Version r) = Major l /\
                   Minor (Release.Version r) = Minor l)
         (unstable_loop rs (Some l)).
Proof.
  induction rs as [|r rs IH]; intros l; cbn [unstable_loop]; [constructor|].
  destruct (Release.Stable r); [constructor|]. cbv zeta.
  destruct (Z.eqb_spec (Major (Release.Version r)) (Major l)); [|constructor].
  destruct (Z.eqb_spec (Minor (Release.Version r)) (Minor l)); [|constructor].
  cbn [negb orb]. constructor; [auto|apply IH].
Qed.

Lemma unstable_loop_one_line rs a b :
  In a (unstable_loop rs None) -> In b (unstable_loop rs None) ->
  Major (Release.Version a) = Major (Release.Version b) /\
  Minor (Release.Version a) = Minor (Release.Version b).
Proof.
  destruct rs as [|r rs]; cbn [unstable_loop]; [intros []|].
  destruct (Release.Stable r); [intros []|]. cbv zeta. cbn [Major Minor].
  rewrite !Z.eqb_refl. cbn [negb orb].
  pose proof (unstable_loop_line rs (mkVersion Stable (Major (Release.Version r))
                                       (Minor (Release.Version r)) 0 0)) as Hline.
  rewrite List.Forall_forall in Hline. cbn [Major Minor] in Hline.
  intros [<- | Ha] [<- | Hb]; try apply Hline in Ha; try apply Hline in Hb; lia.
Qed.

Lemma filter_none {A} (p : A -> bool) (l : list A) :
  Forall (fun x => p x = false) l -> List.filter p l = [].
Proof.
  induction 1 as [|x l Hx _ IH]; [reflexivity|]. cbn. rewrite Hx. exact IH.
Qed.

Section Recent.
Variables GOOS GOARCH : string.

Lemma RecentReleases_result s rs s' :
  RecentReleases GOOS GOARCH s = (Ok rs, s') ->
  rs = rev (selectRecentReleases (fst s') 2) \/ (rs = [] /\ releases (fst s') = []).
Proof.
  unfold RecentReleases. unfold bind at 1.
  destruct (ensure_releases GOOS GOARCH s) as [[[]|e] [env' w']]; [|discriminate].
  run_M. destruct (releases env') eqn:E; run_M; intros [= <- <-]; cbn [fst]; auto.
Qed.

(** X8. What RecentReleases returns is a selection from the catalog in
    catalog order: a subsequence of env.releases, nothing added, repeated
    or reordered. *)
Theorem RecentReleases_sublist (s s' : State) (rs : list Release.t) :
  RecentReleases GOOS GOARCH s = (Ok rs, s') ->
  sublist rs (releases (fst s')).
Proof.
  intros H. apply RecentReleases_result in H as [-> | [-> _]]; [|apply sublist_nil_l].
  destruct (selectRecentReleases_split (fst s') 2) as (rest & Hrest & _ & ->).
  assert (sublist (unstable_loop (rev (releases (fst s'))) None
                     ++ stable_loop rest None 2 0)%list
                  (rev (releases (fst s')))) as Hsub.
  { rewrite Hrest at 2. apply sublist_app; [reflexivity|]. apply stable_loop_sublist. }
  apply sublist_rev in Hsub. rewrite rev_involutive in Hsub. exact Hsub.
Qed.

(** X9. RecentReleases lists at most four stable releases (two for each of
    the two newest stable lines), and the unstable releases it lists all
    belong to one line (same major and minor). *)
Theorem RecentReleases_bounds (s s' : State) (rs : list Release.t) :
  RecentReleases GOOS GOARCH s = (Ok rs, s') ->
  (length (List.filter Release.Stable rs) <= 4)%nat /\
  forall a b, In a rs -> In b rs ->
    Release.Stable a = false -> Release.Stable b = false ->
    Major (Release.Version a) = Major (Release.Version b) /\
    Minor (Release.Version a) = Minor (Release.Version b).
Proof.
  intros H. apply RecentReleases_result in H as [-> | [-> _]];
    [|split; [cbn; lia|intros a b []]].
  destruct (selectRecentReleases_split (fst s') 2) as (rest & _ & Hun & ->).
  destruct (stable_loop_sublist rest None 2 0) as [_ Hst].
  pose proof (stable_loop_length rest None 2 0) as Hlen. cbv beta iota in Hlen.
  split.
  - rewrite List.filter_rev, length_rev, List.filter_app, (filter_none _ _ Hun).
    cbn [app]. pose proof (List.filter_length_le Release.Stable (stable_loop rest None 2 0)).
    lia.
  - assert (forall a, In a (rev (unstable_loop (rev (releases (fst s'))) None
                                 ++ stable_loop rest None 2 0)) ->
                      Release.Stable a = false ->
                      In a (unstable_loop (rev (releases (fst s'))) None)) as Hin.
    { intros a Ha Hsa. apply in_rev, in_app_or in Ha as [Ha | Ha]; [exact Ha|].
      rewrite List.Forall_forall in Hst. rewrite (Hst a Ha) in Hsa. discriminate. }
    intros a b Ha Hb Hsa Hsb. apply (unstable_loop_one_line (rev (releases (fst s')))); auto.
Qed.

(** X10. When the newest release of the catalog (its last entry) is a
    stable one, RecentReleases lists no unstable release at all: the
    unstable line is looked for from the newest release down and the search
    ends at the first stable release. *)
Theorem RecentReleases_newest_stable (s s' : State) (rs : list Release.t)
    (r : Release.t) :
  RecentReleases GOOS GOARCH s = (Ok rs, s') ->
  last (releases (fst s')) = Some r -> Release.Stable r = true ->
  Forall (fun x => Release.Stable x = true) rs.
Proof.
  intros H Hlast Hr. apply RecentReleases_result in H as [-> | [-> _]]; [|constructor].
  apply last_Some in Hlast as [l Hl].
  unfold selectRecentReleases. rewrite Hl, (rev_app_distr l [r]).
  cbn [rev app unstable_loop]. rewrite Hr. cbn [app].
  apply List.Forall_forall. intros x Hx. apply in_rev in Hx.
  destruct (stable_loop_sublist (r :: rev l) None 2 0) as [_ Hst].
  rewrite List.Forall_forall in Hst. apply Hst, Hx.
Qed.

(** X11. The newest release of the catalog (its last entry) is always
    listed, and listed last: what RecentReleases returns ends with the entry
    the catalog ends with. *)
Theorem RecentReleases_newest_last (s s' : State) (rs : list Release.t) :
  RecentReleases GOOS GOARCH s = (Ok rs, s') ->
  last rs = last (releases (fst s')).
Proof.
  intros H. apply RecentReleases_result in H as [-> | [-> ->]]; [|reflexivity].
  unfold selectRecentReleases.
  destruct (releases (fst s')) as [|r0 l] using rev_ind; [reflexivity|].
  rewrite last_snoc, (rev_app_distr l [r0]). cbn [rev app unstable_loop stable_loop].
  destruct (Release.Stable r0); cbn [negb app rev].
  - change (2 =? 0) with false. change (0 <? 2) with true. cbv iota zeta. cbn [app rev].
    apply last_snoc.
  - cbv zeta. cbn [Major Minor]. rewrite !Z.eqb_refl. cbn [negb orb].
    rewrite rev_app_distr. cbn [rev app]. rewrite app_assoc. apply last_snoc.
Qed.

End Recent.

Lemma RecentReleases_sublist_witness :
  sublist [go1_14_2; go1_14_3; go1_15_1; go1_15_2; go1_16beta1; go1_16beta2; go1_16rc1]
          sample_catalog.
Proof.
  apply (RecentReleases_sublist "linux" "amd64"
           (sample_env ∅ sample_catalog, sample_world ∅)
           (sample_env ∅ sample_catalog, sample_world ∅)).
  reflexivity.
Defined.

Lemma RecentReleases_bounds_witness :
  (length (List.filter Release.Stable
     [go1_14_2; go1_14_3; go1_15_1; go1_15_2; go1_16beta1; go1_16beta2; go1_16rc1]) <= 4)%nat.
Proof.
  apply (RecentReleases_bounds "linux" "amd64"
           (sample_env ∅ sample_catalog, sample_world ∅)
           (sample_env ∅ sample_catalog, sample_world ∅)).
  reflexivity.
Defined.

Lemma RecentReleases_newest_stable_witness :
  Forall (fun x => Release.Stable x = true) [go1_14_2; go1_14_3; go1_15_1; go1_15_2].
Proof.
  apply (RecentReleases_newest_stable "linux" "amd64"
           (sample_env ∅ stable_newest_catalog, sample_world ∅)
           (sample_env ∅ stable_newest_catalog, sample_world ∅) _ go1_15_2);
    reflexivity.
Defined.

Lemma RecentReleases_newest_last_witness :
  last [go1_14_2; go1_14_3; go1_15_1; go1_15_2; go1_16beta1; go1_16beta2; go1_16rc1]
    = last sample_catalog.
Proof.
  apply (RecentReleases_newest_last "linux" "amd64"
           (sample_env ∅ sample_catalog, sample_world ∅)
           (sample_env ∅ sample_catalog, sample_world ∅)).
  reflexivity.
Defined.

(** *** Refreshing the catalog *)

Section UpdateFacts.
Variables GOOS GOARCH : string.
Variable answer : string -> response.

(** [UpdateDownloadList] step by step: the request is logged; the run ends
    there with an error, or the listing is accepted, the catalog replaced
    and the listing saved. *)
Lemma UpdateDownloadList_eq env w :
  UpdateDownloadList GOOS GOARCH answer (env, w) =
    let w1 := mkWorld (fs w) (server w) (requests w ++ [downloadListURL])%list in
    match server w downloadListURL with
    | None => (Err (ErrorNew "failed to get download list"), (env, w1))
    | Some status =>
        if negb (status =? 200)
        then (Err (ErrorNew "failed to get download list"), (env, w1))
        else
          match mediaType (answer downloadListURL) with
          | None => (Err (ErrorNew "failed to parse Content-Type"), (env, w1))
          | Some mimeType =>
              if negb (String.eqb mimeType "application/json")
              then (Err (ErrorNew "the server responds unexpected Content-Type"), (env, w1))
              else
                match body (answer downloadListURL) with
                | None => (Err (ErrorNew "failed to decode JSON"), (env, w1))
                | Some listing =>
                    match convertReleases GOOS GOARCH listing with
                    | Err e => (Err e, (env, w1))
                    | Ok rls =>
                        (wrap "failed to create config directory"
                           (os.MkdirAll (confDir env));;
                         wrap "failed to create download list file"
                           (os.Create (path_Join (confDir env) downloadListFileName));;
                         Encode (path_Join (confDir env) downloadListFileName) listing)
                        (set_releases rls env, w1)
                    end
                end
          end
    end.
Proof.
  cbv zeta. unfold UpdateDownloadList. unfold bind at 1. unfold wrap at 1, http_Get.
  cbn [fst snd].
  destruct (server w downloadListURL) as [status|]; [|reflexivity].
  destruct (negb (status =? 200)); [reflexivity|].
  destruct (mediaType (answer downloadListURL)) as [mt|]; [|reflexivity].
  destruct (negb (String.eqb mt "application/json")); [reflexivity|].
  destruct (body (answer downloadListURL)) as [listing|]; [|reflexivity].
  destruct (convertReleases GOOS GOARCH listing) as [rls|e]; reflexivity.
Qed.

(** Writing the listing file: nothing else of the state changes, and when
    it succeeds the file reads back as the listing. *)
Lemma Create_Encode_spec name listing env w :
  let r := (wrap "failed to create download list file" (os.Create name);;
            Encode name listing) (env, w) in
  fst (snd r) = env /\ server (snd (snd r)) = server w /\
  requests (snd (snd r)) = requests w /\
  (fst r = Ok tt ->
   os.resolve 40 (fs (snd (snd r))) name = true /\
   os.read_listing 40 (fs (snd (snd r))) name = Some listing).
Proof.
  cbv zeta. unfold os.Create, Encode, created. run_M.
  destruct (fs w !! name) as [[| l |target]|] eqn:Hname; run_M;
    cbn [fs server requests].
  - repeat split; discriminate.
  - rewrite lookup_insert_eq. repeat split;
      cbn [os.resolve os.read_listing]; rewrite lookup_insert_eq; reflexivity.
  - destruct (fs w !! os.follow name target) as [[| l |t2]|] eqn:Htarget; run_M;
      cbn [fs server requests]; try (repeat split; discriminate).
    + assert (os.follow name target <> name) as Hne by congruence.
      rewrite lookup_insert_ne, Hname by exact Hne. repeat split;
        cbn [os.resolve os.read_listing];
        rewrite lookup_insert_ne, lookup_insert_ne, Hname, lookup_insert_eq by exact Hne;
        reflexivity.
    + assert (os.follow name target <> name) as Hne by congruence.
      rewrite lookup_insert_ne, Hname by exact Hne. repeat split;
        cbn [os.resolve os.read_listing];
        rewrite lookup_insert_ne, lookup_insert_ne, Hname, lookup_insert_eq by exact Hne;
        reflexivity.
  - rewrite lookup_insert_eq. repeat split;
      cbn [os.resolve os.read_listing]; rewrite lookup_insert_eq; reflexivity.
Qed.

Lemma save_listing dir listing env w :
  let name := path_Join dir downloadListFileName in
  let r := (wrap "failed to create config directory" (os.MkdirAll dir);;
            wrap "failed to create download list file" (os.Create name);;
            Encode name listing) (env, w) in
  fst (snd r) = env /\ server (snd (snd r)) = server w /\
  requests (snd (snd r)) = requests w /\
  (fst r = Ok tt ->
   os.resolve 40 (fs (snd (snd r))) name = true /\
   os.read_listing 40 (fs (snd (snd r))) name = Some listing).
Proof.
  cbv zeta. unfold bind at 1. unfold wrap at 1. unfold os.MkdirAll. run_M.
  destruct (fs w !! dir) as [[| l |t]|]; cbn [fst snd];
    try (repeat split; discriminate).
  - apply Create_Encode_spec.
  - apply (Create_Encode_spec _ listing env
             (mkWorld (<[dir := Dir]> (fs w)) (server w) (requests w))).
Qed.

(** X12. UpdateDownloadList sends exactly one request, a GET of the
    download list URL, whatever happens next.  Unless the server answers
    200 with media type application/json and a body that decodes to a
    listing which convertReleases accepts, it fails and leaves the Env and
    the file system as they were. *)
Theorem UpdateDownloadList_request (s : State) :
  let r := UpdateDownloadList GOOS GOARCH answer s in
  requests (snd (snd r)) = (requests (snd s) ++ [downloadListURL])%list /\
  server (snd (snd r)) = server (snd s) /\
  (server (snd s) downloadListURL <> Some 200 \/
   mediaType (answer downloadListURL) <> Some "application/json" \/
   (forall listing, body (answer downloadListURL) = Some listing ->
      exists e, convertReleases GOOS GOARCH listing = Err e) ->
   (exists e, fst r = Err e) /\ fst (snd r) = fst s /\
   fs (snd (snd r)) = fs (snd s)).
Proof.
  destruct s as [env w]. cbv zeta. rewrite UpdateDownloadList_eq. cbv zeta. cbn [fst snd].
  destruct (server w downloadListURL) as [status|];
    [|repeat split; eauto].
  destruct (Z.eqb_spec status 200) as [->|Hstatus]; cbn [negb];
    [|repeat split; eauto].
  destruct (mediaType (answer downloadListURL)) as [mt|];
    [|repeat split; eauto].
  destruct (String.eqb_spec mt "application/json") as [->|Hmt]; cbn [negb];
    [|repeat split; eauto].
  destruct (body (answer downloadListURL)) as [listing|];
    [|repeat split; eauto].
  destruct (convertReleases GOOS GOARCH listing) as [rls|e] eqn:Hconv;
    [|repeat split; eauto].
  destruct (save_listing (confDir env) listing (set_releases rls env)
              (mkWorld (fs w) (server w) (requests w ++ [downloadListURL])%list))
    as (_ & Hserver & Hreq & _).
  split; [exact Hreq|]. split; [exact Hserver|].
  intros [H | [H | H]]; [congruence..|].
  destruct (H listing eq_refl) as [e He]. congruence.
Qed.

(** X13. When the server's listing is accepted and converts to a catalog,
    the catalog is in memory after the call, whether or not saving the
    listing then succeeds; and when UpdateDownloadList returns nil, the
    listing file it wrote loads, in any Env with the same config directory,
    to that same catalog. *)
Theorem UpdateDownloadList_saved (s : State) (listing : list remoteRelease.t)
    (rls : list Release.t) :
  server (snd s) downloadListURL = Some 200 ->
  mediaType (answer downloadListURL) = Some "application/json" ->
  body (answer downloadListURL) = Some listing ->
  convertReleases GOOS GOARCH listing = Ok rls ->
  let r := UpdateDownloadList GOOS GOARCH answer s in
  fst (snd r) = set_releases rls (fst s) /\
  (fst r = Ok tt ->
   forall env0, confDir env0 = confDir (fst s) ->
     loadReleases GOOS GOARCH (env0, snd (snd r)) =
       (Ok tt, (set_releases rls env0, snd (snd r)))).
Proof.
  destruct s as [env w]. cbn [fst snd]. intros Hstatus Hmt Hbody Hconv. cbv zeta.
  rewrite UpdateDownloadList_eq. cbv zeta. rewrite Hstatus, Hmt, Hbody, Hconv.
  cbn [Z.eqb Pos.eqb negb String.eqb Ascii.eqb Bool.eqb].
  pose proof (save_listing (confDir env) listing (set_releases rls env)
                (mkWorld (fs w) (server w) (requests w ++ [downloadListURL])%list))
    as Hsave.
  cbv zeta in Hsave. change (confDir (set_releases rls env)) with (confDir env).
  match type of Hsave with fst (snd ?t) = _ /\ _ => set (r := t) in * end.
  destruct Hsave as (Henv & _ & _ & Hfile).
  split; [exact Henv|]. intros Hok env0 Hdir.
  destruct (Hfile Hok) as [Hres Hread].
  unfold loadReleases, os.Stat. run_M. rewrite Hdir, Hres. cbn [negb]. run_M.
  rewrite Hread, Hconv. reflexivity.
Qed.

End UpdateFacts.

Lemma UpdateDownloadList_saved_witness :
  let s := (sample_env ∅ [], mkWorld ∅ good_server []) in
  let r := UpdateDownloadList "linux" "amd64" json_answer s in
  fst r = Ok tt /\
  loadReleases "linux" "amd64" (sample_env ∅ [], snd (snd r)) =
    (Ok tt, (set_releases sample_catalog (sample_env ∅ []), snd (snd r))).
Proof.
  intros s r. split; [vm_compute; reflexivity|].
  apply (UpdateDownloadList_saved "linux" "amd64" json_answer s sample_listing
           sample_catalog); reflexivity.
Defined.

(* ===================================================================== *)
(** ** The registry and the install root *)
(* ===================================================================== *)

(** *** The registry at start-up and in order *)

Lemma fold_insert_keep (versions : list Version) : forall (reg : gmap string Version) u,
  parsed u -> Forall parsed versions -> reg !! Version_String u = Some u ->
  fold_left (fun reg version => <[Version_String version := version]> reg) versions reg
    !! Version_String u = Some u.
Proof.
  induction versions as [|v versions IH]; intros reg u Hu Hall Hreg; cbn [fold_left];
    [exact Hreg|].
  apply Forall_cons in Hall as [Hv Hall]. apply IH; [assumption..|].
  destruct (decide (Version_String v = Version_String u)) as [E|E].
  - rewrite E, lookup_insert_eq. f_equal. apply Version_String_inj; assumption.
  - rewrite lookup_insert_ne; assumption.
Qed.

Lemma fold_insert_In (versions : list Version) : forall (reg : gmap string Version) u,
  Forall parsed versions -> In u versions ->
  fold_left (fun reg version => <[Version_String version := version]> reg) versions reg
    !! Version_String u = Some u.
Proof.
  induction versions as [|v versions IH]; intros reg u Hall Hin; [destruct Hin|].
  apply Forall_cons in Hall as [Hv Hall]. cbn [fold_left].
  destruct Hin as [<- | Hin]; [|apply IH; assumption].
  apply fold_insert_keep; [assumption..|apply lookup_insert_eq].
Qed.

(** X14. Start-up leaves the world alone.  When [filepath.Glob] refuses
    the install root as a pattern, start-up returns that error and the
    registry stays as it was.  On an install root without pattern characters
    (none of * ? [ and backslash) and an empty registry (as New makes it),
    start-up returns nil, and afterwards the registry holds exactly the
    versions named by the directories of the install root: an entry
    String(u) -> u for every directory "go" + text directly under the root
    whose text parses to u, and nothing else.  Every key is the canonical
    text of its version and parses to it. *)
Theorem init_registry (Glob_meta : string -> gmap string node -> result (list string))
    (env : Env) (w : World) :
  installedVersions env = ∅ ->
  let r := init Glob_meta (env, w) in
  snd (snd r) = w /\
  (forall e, Glob_go Glob_meta (envRoot env) (fs w) = Err e -> r = (Err e, (env, w))) /\
  (hasMeta (envRoot env) = false ->
   fst r = Ok tt /\
   (forall k u, installedVersions (fst (snd r)) !! k = Some u <->
      k = Version_String u /\
      exists dir str, go_entry (envRoot env) dir = Some str /\
                      is_dir 40 (fs w) dir = true /\ ParseVersion str = Ok u) /\
   canonical_registry (fst (snd r))).
Proof.
  intros Hempty. cbv zeta. split; [|split].
  - unfold init, scan_installedVersions. run_M.
    destruct (Glob_go Glob_meta (envRoot env) (fs w)); reflexivity.
  - intros e He. unfold init, scan_installedVersions. run_M. rewrite He. reflexivity.
  - intros Hmeta.
    destruct (init_literal Glob_meta env w Hmeta) as (versions & -> & Hin).
    cbn [fst snd set_installedVersions installedVersions].
    assert (Forall parsed versions) as Hall.
    { apply List.Forall_forall. intros u Hu.
      apply Hin in Hu as (dir & str & _ & _ & Hparse).
      eapply ParseVersion_parsed. exact Hparse. }
    assert (forall k u,
              fold_left (fun reg version => <[Version_String version := version]> reg)
                versions (installedVersions env) !! k = Some u <->
              k = Version_String u /\ In u versions) as Hreg.
    { intros k u. split.
      - intros Hk. apply fold_insert_lookup in Hk as [Hk | [Hu ->]]; [|auto].
        rewrite Hempty, lookup_empty in Hk. discriminate.
      - intros [-> Hu]. apply fold_insert_In; assumption. }
    split; [reflexivity|]. split.
    + intros k u. rewrite Hreg, Hin. reflexivity.
    + intros k u Hk. cbn [installedVersions] in Hk. apply Hreg in Hk as [-> Hu].
      split; [reflexivity|]. apply ParseVersion_String.
      rewrite List.Forall_forall in Hall. apply Hall, Hu.
Qed.

Lemma init_registry_witness :
  installedVersions
    (fst (snd (init bad_pattern (sample_env ∅ [], sample_world two_on_disk))))
    !! "1.16" = Some (mkVersion Stable 1 16 0 0) /\
  (let env := mkEnv "/opt/[go" "current" "" "" ∅ [] in
   let w := sample_world {[ "/opt/[go/go1.16" := Dir ]} in
   init bad_pattern (env, w) = (Err (ErrorNew "syntax error in pattern"), (env, w))).
Proof.
  split.
  - destruct (init_registry bad_pattern (sample_env ∅ []) (sample_world two_on_disk) eq_refl)
      as (_ & _ & Hlit).
    destruct (Hlit eq_refl) as (_ & Hreg & _).
    apply Hreg. split; [reflexivity|].
    exists "/usr/local/go/go1.16", "1.16". repeat split.
  - intros env w.
    destruct (init_registry bad_pattern env w eq_refl) as (_ & Herr & _).
    apply Herr. reflexivity.
Defined.

(** X15. InstalledVersions returns the versions of the registry, each as
    often as the registry holds it, in ascending order of CompareVersion,
    and changes nothing. *)
Theorem InstalledVersions_sorted (env : Env) (w : World) :
  exists versions,
    InstalledVersions (env, w) = (Ok versions, (env, w)) /\
    Permutation versions (map snd (map_to_list (installedVersions env))) /\
    StronglySorted (fun a b => CompareVersion a b <= 0) versions /\
    (forall u, In u versions <-> exists k, installedVersions env !! k = Some u).
Proof.
  unfold InstalledVersions. run_M. eexists. split; [reflexivity|].
  split; [apply sort_Slice_Permutation|]. split.
  - apply (sort_Slice_sorted version_less); unfold version_less.
    + intros a b Hab. apply Z.ltb_lt in Hab. lia.
    + intros a b Hab. apply Z.ltb_ge in Hab.
      rewrite CompareVersion_key, lex_compare_antisym, <- CompareVersion_key. lia.
    + apply CompareVersion_le_trans.
  - intros u. rewrite sort_Slice_In, in_map_iff. split.
    + intros ([k u'] & <- & Hin). exists k.
      apply list_elem_of_In, elem_of_map_to_list in Hin. exact Hin.
    + intros [k Hk]. exists (k, u). split; [reflexivity|].
      apply list_elem_of_In, elem_of_map_to_list. exact Hk.
Qed.

(** *** Uninstall, in full *)

(** The link repair never fails: a link path that does not resolve is not
    a directory, so the link can be replaced. *)
Lemma fixBrokenLink_cases s :
  fixBrokenLink s = (Ok tt, s) \/
  exists m, newest (fst s) m /\ link_resolves s = false /\
    fixBrokenLink s =
      (Ok tt, (fst s, with_fs (<[linkPath (fst s) := Link (versionGoRoot (fst s) m)]>
                                 (fs (snd s))) (snd s))).
Proof.
  destruct s as [env w]. destruct (link_resolves (env, w)) eqn:Hres.
  - left. apply fixBrokenLink_resolved, Hres.
  - destruct (fixBrokenLink_unresolved env w Hres) as [Hempty Hsome].
    destruct (decide (installedVersions env = ∅)) as [E|E]; [left; auto|].
    right. destruct (Hsome E) as (m & Hm & Hfix). exists m. auto.
Qed.

(** [Uninstall] of a registered version: it returns nil, and what has
    changed is the registry entry, the version directory and perhaps the
    active link. *)
Lemma Uninstall_registered v s :
  is_Some (installedVersions (fst s) !! Version_String v) ->
  exists s', Uninstall v s = (Ok tt, s') /\
    fst s' = set_installedVersions
               (delete (Version_String v) (installedVersions (fst s))) (fst s) /\
    (forall p, p <> versionGoRoot (fst s) v -> p <> linkPath (fst s) ->
               fs (snd s') !! p = fs (snd s) !! p) /\
    (versionGoRoot (fst s) v <> linkPath (fst s) ->
     fs (snd s') !! versionGoRoot (fst s) v = None).
Proof.
  intros Hhas. rewrite Uninstall_unfold, bool_decide_eq_true_2 by exact Hhas.
  destruct s as [env w].
  destruct (fixBrokenLink_cases (without_version v (env, w)))
    as [-> | (m & _ & _ & ->)]; eexists; (split; [reflexivity|]);
    unfold without_version, with_fs; cbn [fst snd fs];
    try change (linkPath (set_installedVersions _ env)) with (linkPath env);
    (split; [reflexivity|]); split.
  - intros p Hp _. rewrite lookup_delete_ne by congruence. reflexivity.
  - intros _. apply lookup_delete_eq.
  - intros p Hp Hl. rewrite lookup_insert_ne by congruence.
    rewrite lookup_delete_ne by congruence. reflexivity.
  - intros Hne. rewrite lookup_insert_ne by congruence.
    apply lookup_delete_eq.
Qed.

(** X16. Uninstall(v) of a version that is not in the registry fails with
    "specified version is not installed" and changes nothing.  Of a version
    in the registry it returns nil: the entry String(v) is deleted from the
    registry and nothing else of the Env changes, the version directory is
    removed, and no other path of the file system changes except the active
    link, which the link repair may rewrite. *)
Theorem Uninstall_effect (v : Version) (s : State) :
  (installedVersions (fst s) !! Version_String v = None ->
   Uninstall v s = (Err (ErrorNew "specified version is not installed"), s)) /\
  (is_Some (installedVersions (fst s) !! Version_String v) ->
   exists s', Uninstall v s = (Ok tt, s') /\
     fst s' = set_installedVersions
                (delete (Version_String v) (installedVersions (fst s))) (fst s) /\
     (forall p, p <> versionGoRoot (fst s) v -> p <> linkPath (fst s) ->
                fs (snd s') !! p = fs (snd s) !! p) /\
     (versionGoRoot (fst s) v <> linkPath (fst s) ->
      fs (snd s') !! versionGoRoot (fst s) v = None)).
Proof.
  split; [|apply Uninstall_registered].
  intros Hnone. rewrite Uninstall_unfold. case_bool_decide as Hhas; [|reflexivity].
  rewrite Hnone in Hhas. destruct Hhas; discriminate.
Qed.

Lemma Uninstall_effect_witness :
  exists s', Uninstall (mkVersion Stable 1 16 0 0)
               (sample_env two_installed [], sample_world two_on_disk) = (Ok tt, s') /\
    fs (snd s') !! "/usr/local/go/go1.15" = Some Dir /\
    fs (snd s') !! "/usr/local/go/go1.16" = None.
Proof.
  destruct (Uninstall_effect (mkVersion Stable 1 16 0 0)
              (sample_env two_installed [], sample_world two_on_disk))
    as [_ H].
  destruct H as (s' & Hrun & _ & Hframe & Hgone); [vm_compute; eauto|].
  exists s'. split; [exact Hrun|]. split.
  - rewrite Hframe; [reflexivity|discriminate|discriminate].
  - apply Hgone. discriminate.
Defined.

(** X17. The link repair cannot fail (I/O faults apart) and touches nothing
    but the active link: it returns nil, leaves the Env, the network and
    every other path as they were, and does nothing at all when the link
    resolves or the registry is empty. *)
Theorem fixBrokenLink_total (s : State) :
  exists s', fixBrokenLink s = (Ok tt, s') /\
    fst s' = fst s /\ server (snd s') = server (snd s) /\
    requests (snd s') = requests (snd s) /\
    (forall p, p <> linkPath (fst s) -> fs (snd s') !! p = fs (snd s) !! p) /\
    (link_resolves s = true \/ installedVersions (fst s) = ∅ -> s' = s).
Proof.
  destruct (fixBrokenLink_cases s) as [-> | (m & [[k Hk] _] & Hres & ->)].
  - exists s. repeat split; auto.
  - eexists. split; [reflexivity|]. unfold with_fs. cbn [fst snd fs server requests].
    repeat split.
    + intros p Hp. apply lookup_insert_ne. congruence.
    + intros [H | H]; [congruence|]. rewrite H, lookup_empty in Hk. discriminate.
Qed.

(** *** Methods that do not use the network *)

Create HintDb quiet.

Lemma quiet_ret {A} (a : A) : quiet (ret a).
Proof. intros s. split; reflexivity. Qed.

Lemma quiet_fail {A} e : quiet (@fail A e).
Proof. intros s. split; reflexivity. Qed.

Lemma quiet_bind {A B} (m : M A) (k : A -> M B) :
  quiet m -> (forall a, quiet (k a)) -> quiet (bind m k).
Proof.
  intros Hm Hk s. unfold bind. specialize (Hm s).
  destruct (m s) as [[a|e] s1]; cbn [snd] in *; [|exact Hm].
  destruct Hm as [Hm1 Hm2]. destruct (Hk a s1) as [Hk1 Hk2].
  split; congruence.
Qed.

Lemma quiet_wrap {A} msg (m : M A) : quiet m -> quiet (wrap msg m).
Proof.
  intros Hm s. unfold wrap. specialize (Hm s).
  destruct (m s) as [[a|e] s1]; exact Hm.
Qed.

Lemma quiet_get_env : quiet get_env.
Proof. intros s. split; reflexivity. Qed.

Lemma quiet_get_world : quiet get_world.
Proof. intros s. split; reflexivity. Qed.

Lemma quiet_set_env f : quiet (set_env f).
Proof. intros s. split; reflexivity. Qed.

Lemma quiet_set_fs f : quiet (set_fs f).
Proof. intros s. split; reflexivity. Qed.

#[local] Hint Resolve quiet_ret quiet_fail quiet_get_env quiet_get_world
  quiet_set_env quiet_set_fs : quiet.

Ltac quiet_step :=
  match goal with
  | |- quiet (bind _ _) => apply quiet_bind; [|intros ?]
  | |- quiet (wrap _ _) => apply quiet_wrap
  | |- quiet (if ?b then _ else _) => destruct b
  | |- quiet (let '(_, _) := ?x in _) => destruct x
  | |- quiet (match ?x with _ => _ end) => destruct x
  | |- quiet _ => solve [auto with quiet]
  end.

Lemma quiet_Stat p : quiet (os.Stat p).
Proof. unfold os.Stat. repeat quiet_step. Qed.

Lemma quiet_Lstat p : quiet (os.Lstat p).
Proof. unfold os.Lstat. repeat quiet_step. Qed.

Lemma quiet_Remove p : quiet (os.Remove p).
Proof. unfold os.Remove. repeat quiet_step. Qed.

Lemma quiet_RemoveAll p : quiet (os.RemoveAll p).
Proof. unfold os.RemoveAll. repeat quiet_step. Qed.

Lemma quiet_Symlink a b : quiet (os.Symlink a b).
Proof. unfold os.Symlink. repeat quiet_step. Qed.

Lemma quiet_Mkdir p : quiet (os.Mkdir p).
Proof. unfold os.Mkdir. repeat quiet_step. Qed.

Lemma quiet_MkdirAll p : quiet (os.MkdirAll p).
Proof. unfold os.MkdirAll. repeat quiet_step. Qed.

Lemma quiet_Create p : quiet (os.Create p).
Proof. unfold os.Create. repeat quiet_step. Qed.

#[local] Hint Resolve quiet_Stat quiet_Lstat quiet_Remove quiet_RemoveAll
  quiet_Symlink quiet_Mkdir quiet_MkdirAll quiet_Create : quiet.

Lemma quiet_HasVersion v : quiet (HasVersion v).
Proof. unfold HasVersion. repeat quiet_step. Qed.

Lemma quiet_InstalledVersions : quiet InstalledVersions.
Proof. unfold InstalledVersions. repeat quiet_step. Qed.

Lemma quiet_makeLink v : quiet (makeLink v).
Proof. unfold makeLink. repeat quiet_step. Qed.

#[local] Hint Resolve quiet_HasVersion quiet_InstalledVersions quiet_makeLink : quiet.

Lemma quiet_Switch v : quiet (Switch v).
Proof. unfold Switch. repeat quiet_step. Qed.

Lemma quiet_fixBrokenLink : quiet fixBrokenLink.
Proof. unfold fixBrokenLink. repeat quiet_step. Qed.

Lemma quiet_init Glob_meta : quiet (init Glob_meta).
Proof.
  intros [env w]. unfold init, scan_installedVersions. run_M.
  destruct (Glob_go Glob_meta (envRoot env) (fs w)); split; reflexivity.
Qed.

#[local] Hint Resolve quiet_Switch quiet_fixBrokenLink quiet_init : quiet.

Section QuietMethods.
Variables GOOS GOARCH : string.

Lemma quiet_ensure_releases : quiet (ensure_releases GOOS GOARCH).
Proof. unfold ensure_releases, loadReleases. repeat quiet_step. Qed.

#[local] Hint Resolve quiet_ensure_releases : quiet.

Lemma quiet_Releases : quiet (Releases GOOS GOARCH).
Proof. unfold Releases. repeat quiet_step. Qed.

Lemma quiet_RecentReleases : quiet (RecentReleases GOOS GOARCH).
Proof. unfold RecentReleases. repeat quiet_step. Qed.

Lemma quiet_FindRelease v : quiet (FindRelease GOOS GOARCH v).
Proof. unfold FindRelease. repeat quiet_step. Qed.

Lemma quiet_getExtractor path : quiet (getExtractor path).
Proof. unfold getExtractor. repeat quiet_step. Qed.

Lemma quiet_Uninstall v : quiet (Uninstall v).
Proof. unfold Uninstall. repeat quiet_step. Qed.

(** X18. Of the methods of Env, only Install and UpdateDownloadList use the
    network: start-up, InstalledVersions, HasVersion, Switch, Releases,
    RecentReleases, FindRelease and Uninstall send no request, whatever the
    state and however they end. *)
Theorem offline_methods (v : Version) :
  (forall Glob_meta, quiet (init Glob_meta)) /\ quiet InstalledVersions /\ quiet (HasVersion v) /\
  quiet (Switch v) /\ quiet fixBrokenLink /\
  quiet (Releases GOOS GOARCH) /\ quiet (RecentReleases GOOS GOARCH) /\
  quiet (FindRelease GOOS GOARCH v) /\ quiet (Uninstall v).
Proof.
  split; [apply quiet_init|]. split; [apply quiet_InstalledVersions|].
  split; [apply quiet_HasVersion|]. split; [apply quiet_Switch|].
  split; [apply quiet_fixBrokenLink|]. split; [apply quiet_Releases|].
  split; [apply quiet_RecentReleases|]. split; [apply quiet_FindRelease|].
  apply quiet_Uninstall.
Qed.

#[local] Hint Resolve quiet_FindRelease quiet_getExtractor : quiet.

Lemma quiet_sends {A} url (m : M A) : quiet m -> sends_at_most url m.
Proof. intros Hm s. destruct (Hm s) as [H1 H2]. split; [exact H1|left; exact H2]. Qed.

Lemma sends_bind_quiet_l {A B} url (m : M A) (k : A -> M B) :
  quiet m -> (forall a, sends_at_most url (k a)) -> sends_at_most url (bind m k).
Proof.
  intros Hm Hk s. unfold bind. destruct (Hm s) as [Hm1 Hm2].
  destruct (m s) as [[a|e] s1]; cbn [snd] in *; [|split; [exact Hm1|left; exact Hm2]].
  destruct (Hk a s1) as [Hk1 Hk2]. rewrite Hm1, Hm2 in *. split; assumption.
Qed.

Lemma sends_bind_quiet_r {A B} url (m : M A) (k : A -> M B) :
  sends_at_most url m -> (forall a, quiet (k a)) -> sends_at_most url (bind m k).
Proof.
  intros Hm Hk s. unfold bind. destruct (Hm s) as [Hm1 Hm2].
  destruct (m s) as [[a|e] s1]; cbn [snd] in *; [|split; assumption].
  destruct (Hk a s1) as [Hk1 Hk2]. rewrite Hk1, Hk2. split; assumption.
Qed.

Lemma sends_download url path : sends_at_most url (download url path).
Proof.
  unfold download. apply sends_bind_quiet_r.
  - intros [env w]. unfold http_Get. cbn [fst snd].
    destruct (server w url); cbn [fst snd server requests]; auto.
  - intros status. repeat quiet_step.
Qed.

(** What [Install] does once the release is found. *)
Lemma sends_Install_tail v (r : Release.t) :
  sends_at_most (downloadBaseURL ++ Release.Filename r)
    (do env <- get_env;
     let cachePath := path_Join (cacheDir env) (Release.Filename r) in
     do e <- getExtractor cachePath;
     wrap "failed to create cache directory" (os.MkdirAll (cacheDir env));;
     let goRoot := versionGoRoot env v in
     do cached <- os.Stat cachePath;
     (if negb cached then download (downloadBaseURL ++ Release.Filename r) cachePath
      else ret tt);;
     do present <- os.Stat goRoot;
     if present then fail (ErrorNew "install target directory already exists")
     else
       wrap "failed to create install target directory" (os.Mkdir goRoot);;
       extract e goRoot;;
       fixBrokenLink).
Proof.
  apply sends_bind_quiet_l; [auto with quiet|intros env]. cbv zeta.
  apply sends_bind_quiet_l; [auto with quiet|intros e].
  apply sends_bind_quiet_l; [repeat quiet_step|intros _].
  apply sends_bind_quiet_l; [auto with quiet|intros cached].
  apply sends_bind_quiet_r.
  - destruct cached; cbn [negb]; [apply quiet_sends; auto with quiet|apply sends_download].
  - intros _. unfold extract. repeat quiet_step.
Qed.

Lemma Install_found v env w :
  Install GOOS GOARCH v (env, w) =
    if bool_decide (is_Some (installedVersions env !! Version_String v))
    then (Err (ErrorNew "specified version is already installed"), (env, w))
    else
      match FindRelease GOOS GOARCH v (env, w) with
      | (Err e, s1) => (Err e, s1)
      | (Ok r, s1) =>
          (do env <- get_env;
           let cachePath := path_Join (cacheDir env) (Release.Filename r) in
           do e <- getExtractor cachePath;
           wrap "failed to create cache directory" (os.MkdirAll (cacheDir env));;
           let goRoot := versionGoRoot env v in
           do cached <- os.Stat cachePath;
           (if negb cached then download (downloadBaseURL ++ Release.Filename r) cachePath
            else ret tt);;
           do present <- os.Stat goRoot;
           if present then fail (ErrorNew "install target directory already exists")
           else
             wrap "failed to create install target directory" (os.Mkdir goRoot);;
             extract e goRoot;;
             fixBrokenLink) s1
      end.
Proof.
  unfold Install. unfold bind at 1. rewrite HasVersion_spec.
  destruct (bool_decide _); [reflexivity|].
  unfold downloadURL. unfold bind at 1 2.
  destruct (FindRelease GOOS GOARCH v (env, w)) as [[r|e] s1]; reflexivity.
Qed.

Lemma FindRelease_state v s :
  exists rls, snd (FindRelease GOOS GOARCH v s) = (set_releases rls (fst s), snd s).
Proof.
  assert (set_releases (releases (fst s)) (fst s) = fst s) as Hid
    by (destruct s as [[] ?]; reflexivity).
  unfold FindRelease. unfold bind at 1.
  destruct (ensure_releases_cases GOOS GOARCH s)
    as [[e ->] | [[Hne ->] | (listing & rls & Hnil & _ & ->)]].
  - exists (releases (fst s)). rewrite Hid. destruct s; reflexivity.
  - exists (releases (fst s)). rewrite Hid. run_M.
    destruct (find_release _ v); destruct s; reflexivity.
  - exists rls. run_M. destruct (find_release _ v); reflexivity.
Qed.

(** Something that resolves still does once a node is put where there was
    none. *)
Lemma resolve_insert_new n (m : gmap string node) q x : forall p,
  m !! q = None -> os.resolve n m p = true -> os.resolve n (<[q := x]> m) p = true.
Proof.
  induction n as [|n IH]; intros p Hq; cbn [os.resolve];
    (destruct (decide (p = q)) as [->|Hne];
     [rewrite Hq; discriminate|rewrite lookup_insert_ne by congruence]);
    [trivial|].
  destruct (m !! p) as [[| |target]|]; trivial. apply IH, Hq.
Qed.

(** With the archive in the cache, [Install] downloads nothing. *)
Lemma Install_tail_cached v (r : Release.t) env w :
  os.resolve 40 (fs w) (path_Join (cacheDir env) (Release.Filename r)) = true ->
  requests (snd (snd (
    (do env <- get_env;
     let cachePath := path_Join (cacheDir env) (Release.Filename r) in
     do e <- getExtractor cachePath;
     wrap "failed to create cache directory" (os.MkdirAll (cacheDir env));;
     let goRoot := versionGoRoot env v in
     do cached <- os.Stat cachePath;
     (if negb cached then download (downloadBaseURL ++ Release.Filename r) cachePath
      else ret tt);;
     do present <- os.Stat goRoot;
     if present then fail (ErrorNew "install target directory already exists")
     else
       wrap "failed to create install target directory" (os.Mkdir goRoot);;
       extract e goRoot;;
       fixBrokenLink) (env, w)))) = requests w.
Proof.
  intros Hcached. unfold bind at 1. unfold get_env at 1. cbn [fst snd]. unfold extract.
  match goal with
  | |- context [bind (os.Stat (versionGoRoot env v)) ?k] =>
      set (tail := bind (os.Stat (versionGoRoot env v)) k)
  end.
  assert (quiet tail) as Htail by (unfold tail; repeat quiet_step).
  clearbody tail.
  unfold getExtractor, os.MkdirAll, os.Stat. run_M.
  repeat match goal with
         | |- context [if HasSuffix ?p ?x then _ else _] => destruct (HasSuffix p x)
         end; run_M; try reflexivity;
    (destruct (fs w !! cacheDir env) as [[| |]|] eqn:Hdir; run_M; try reflexivity;
     cbn [fs]; rewrite ?(resolve_insert_new _ _ _ _ _ Hdir Hcached), ?Hcached;
     cbn [negb]; apply Htail).
Qed.

(** X19. Install changes nothing of the server, and sends no request or
    exactly one: a GET of downloadBaseURL + the file name of the release that
    FindRelease finds for the version. *)
Theorem Install_network (v : Version) (s : State) :
  let r := Install GOOS GOARCH v s in
  server (snd (snd r)) = server (snd s) /\
  (requests (snd (snd r)) = requests (snd s) \/
   exists rel, fst (FindRelease GOOS GOARCH v s) = Ok rel /\
     requests (snd (snd r)) =
       (requests (snd s) ++ [(downloadBaseURL ++ Release.Filename rel)%string])%list) /\
  (forall rel, fst (FindRelease GOOS GOARCH v s) = Ok rel ->
     os.resolve 40 (fs (snd s)) (path_Join (cacheDir (fst s)) (Release.Filename rel)) = true ->
     requests (snd (snd r)) = requests (snd s)).
Proof.
  destruct s as [env w]. cbv zeta. rewrite Install_found.
  destruct (bool_decide _); [cbn [fst snd]; auto|].
  destruct (quiet_FindRelease v (env, w)) as [Hserver Hreq].
  destruct (FindRelease_state v (env, w)) as [rls Hstate].
  destruct (FindRelease GOOS GOARCH v (env, w)) as [[rel|e] s1]; cbn [fst snd] in *;
    [|split; [assumption|split; [auto|discriminate]]].
  destruct (sends_Install_tail v rel s1) as [Hs Hr]; cbn [fst snd] in *.
  split; [congruence|]. split.
  - destruct Hr as [Hr | Hr]; [left; congruence|].
    right. exists rel. split; [reflexivity|]. congruence.
  - intros rel' [= <-] Hcached. subst s1.
    apply (Install_tail_cached v rel (set_releases rls env) w). exact Hcached.
Qed.

End QuietMethods.

(** *** After an installation *)

Lemma bind_Ok_inv {A B} (m : M A) (k : A -> M B) s b s' :
  bind m k s = (Ok b, s') ->
  exists a s1, m s = (Ok a, s1) /\ k a s1 = (Ok b, s').
Proof.
  unfold bind. destruct (m s) as [[a|e] s1]; [eauto|discriminate].
Qed.

Lemma wrap_Ok_inv {A} msg (m : M A) s a s' :
  wrap msg m s = (Ok a, s') -> m s = (Ok a, s').
Proof.
  unfold wrap. destruct (m s) as [[a'|e] s1]; [intros [= <- <-]; reflexivity|discriminate].
Qed.

Lemma Mkdir_Ok path s s' :
  os.Mkdir path s = (Ok tt, s') -> fs (snd s') !! path = Some Dir.
Proof.
  destruct s as [env w]. unfold os.Mkdir. run_M.
  destruct (os.exists_at (fs w) path); run_M; [discriminate|].
  intros [= <-]. cbn [snd fs]. apply lookup_insert_eq.
Qed.

Section AfterInstall.
Variables GOOS GOARCH : string.

(** A successful [Install] made the version directory, and it is still
    there at the end. *)
Lemma Install_Ok_dir v s s' :
  Install GOOS GOARCH v s = (Ok tt, s') ->
  installedVersions (fst s) !! Version_String v = None /\
  fs (snd s') !! versionGoRoot (fst s') v = Some Dir.
Proof.
  destruct s as [env w]. intros Hrun.
  pose proof (steady_Install GOOS GOARCH v (env, w)) as (_ & Hroot & _ & _).
  rewrite Hrun in Hroot. cbn [fst snd] in Hroot.
  rewrite Install_found in Hrun. case_bool_decide as Hhas; [discriminate|].
  split.
  { cbn [fst]. destruct (installedVersions env !! Version_String v) eqn:E; [|reflexivity].
    exfalso. apply Hhas. eauto. }
  destruct (FindRelease_state GOOS GOARCH v (env, w)) as [rls Hstate].
  destruct (FindRelease GOOS GOARCH v (env, w)) as [[rel|e] s1]; [|discriminate].
  cbn [fst snd] in Hstate. subst s1.
  apply bind_Ok_inv in Hrun as (env1 & s1 & [= <- <-] & Hrun). cbv zeta in Hrun.
  apply bind_Ok_inv in Hrun as (e & s2 & _ & Hrun).
  apply bind_Ok_inv in Hrun as (_ & s3 & _ & Hrun).
  apply bind_Ok_inv in Hrun as (cached & s4 & _ & Hrun).
  apply bind_Ok_inv in Hrun as (_ & s5 & _ & Hrun).
  apply bind_Ok_inv in Hrun as (present & s6 & _ & Hrun).
  destruct present; [discriminate|].
  apply bind_Ok_inv in Hrun as ([] & s7 & Hmk & Hrun).
  apply wrap_Ok_inv, Mkdir_Ok in Hmk.
  apply bind_Ok_inv in Hrun as (u & s8 & Hext & Hrun).
  assert (s8 = s7) as -> by (unfold extract, ret in Hext; congruence).
  pose proof (steady_fixBrokenLink s7) as (_ & _ & _ & Hdirs).
  rewrite Hrun in Hdirs. cbn [snd] in Hdirs.
  unfold versionGoRoot in *. cbn [envRoot set_releases] in Hmk. rewrite Hroot.
  apply Hdirs, Hmk.
Qed.

(** X20. After a successful Install(v) on the same Env: the version
    directory of v exists, yet v is not in the registry, so Uninstall(v)
    fails with "specified version is not installed" and changes nothing,
    while Switch(v) is let through by its guard and, unless a directory
    sits at the link path, returns nil and leaves the active link with the
    version directory of v as its target; on an absolute install root that
    link resolves. *)
Theorem Install_then (v : Version) (s s' : State) :
  Install GOOS GOARCH v s = (Ok tt, s') ->
  fs (snd s') !! versionGoRoot (fst s') v = Some Dir /\
  installedVersions (fst s') !! Version_String v = None /\
  Uninstall v s' = (Err (ErrorNew "specified version is not installed"), s') /\
  (fs (snd s') !! linkPath (fst s') <> Some Dir ->
   exists s'', Switch v s' = (Ok tt, s'') /\
     fst s'' = fst s' /\
     fs (snd s'') !! linkPath (fst s'') = Some (Link (versionGoRoot (fst s') v)) /\
     (os.IsAbs (envRoot (fst s')) = true -> link_resolves s'' = true)).
Proof.
  intros Hrun. destruct (Install_Ok_dir v s s' Hrun) as [Hnone Hdir].
  assert (installedVersions (fst s') !! Version_String v = None) as Hnone'.
  { pose proof (Install_registry GOOS GOARCH v s) as Hreg. rewrite Hrun in Hreg.
    cbn [fst snd] in Hreg. rewrite Hreg. exact Hnone. }
  split; [exact Hdir|]. split; [exact Hnone'|]. split.
  - rewrite Uninstall_unfold. case_bool_decide as Hhas; [|reflexivity].
    rewrite Hnone' in Hhas. destruct Hhas; discriminate.
  - intros Hlink. destruct s' as [env' w']. cbn [fst snd] in *.
    rewrite Switch_unfold. case_bool_decide as Hhas;
      [rewrite Hnone' in Hhas; destruct Hhas; discriminate|].
    rewrite makeLink_spec. eexists. split.
    + destruct (fs w' !! linkPath env') as [[| |]|]; try reflexivity. congruence.
    + split; [reflexivity|]. unfold link_resolves, with_fs. cbn [fst snd fs].
      split; [apply lookup_insert_eq|]. intros Habs.
      change 40%nat with (S (S 38)).
      rewrite resolve_S, lookup_insert_eq.
      rewrite (follow_abs _ _ (versionGoRoot_abs env' v Habs)).
      rewrite resolve_S, lookup_insert_ne, Hdir; [reflexivity|congruence].
Qed.

End AfterInstall.

Lemma Install_then_witness :
  let v := mkVersion Stable 1 15 2 0 in
  let s' := snd (Install "linux" "amd64" v fresh_state) in
  Uninstall v s' = (Err (ErrorNew "specified version is not installed"), s') /\
  exists s'', Switch v s' = (Ok tt, s'') /\ link_resolves s'' = true.
Proof.
  intros v s'.
  destruct (Install_then "linux" "amd64" v fresh_state s') as (_ & _ & Hun & Hsw);
    [vm_compute; reflexivity|].
  split; [exact Hun|].
  destruct Hsw as (s'' & Hrun & _ & _ & Hres); [vm_compute; discriminate|].
  exists s''. split; [exact Hrun|]. apply Hres. reflexivity.
Defined.

(** *** Installing again *)

Lemma resolve_fuel n : forall (m : gmap string node) p k,
  os.resolve n m p = true -> (n <= k)%nat -> os.resolve k m p = true.
Proof.
  induction n as [|n IH]; intros m p k H Hk.
  - destruct k; cbn [os.resolve] in *; destruct (m !! p) as [[| |]|];
      trivial; discriminate.
  - destruct k as [|k]; [lia|]. cbn [os.resolve] in *.
    destruct (m !! p) as [[| |target]|]; trivial. apply IH; [exact H|lia].
Qed.

(** Something that resolves still does once a path that does not resolve
    is rewritten: its chain of links does not pass there. *)
Lemma resolve_insert_unresolved n (m : gmap string node) q x : forall p,
  (n <= 40)%nat -> os.resolve 40 m q = false -> os.resolve n m p = true ->
  os.resolve n (<[q := x]> m) p = true.
Proof.
  induction n as [|n IH]; intros p Hn Hq Hp.
  - destruct (decide (p = q)) as [->|Hne].
    + rewrite (resolve_fuel 0 m q 40 Hp Hn) in Hq. discriminate.
    + cbn [os.resolve] in *. rewrite lookup_insert_ne by congruence. exact Hp.
  - destruct (decide (p = q)) as [->|Hne].
    + rewrite (resolve_fuel (S n) m q 40 Hp Hn) in Hq. discriminate.
    + cbn [os.resolve] in *. rewrite lookup_insert_ne by congruence.
      destruct (m !! p) as [[| |target]|]; trivial. apply IH; [lia|exact Hq|exact Hp].
Qed.

Lemma MkdirAll_Ok msg d s s' :
  wrap msg (os.MkdirAll d) s = (Ok tt, s') ->
  fst s' = fst s /\ fs (snd s') !! d = Some Dir.
Proof.
  destruct s as [env w]. unfold os.MkdirAll. run_M.
  destruct (fs w !! d) as [[| |]|] eqn:E; run_M; try discriminate;
    intros [= <-]; cbn [fst snd fs]; split; trivial. apply lookup_insert_eq.
Qed.

Lemma download_Ok url path s s' :
  download url path s = (Ok tt, s') ->
  fst s' = fst s /\ os.resolve 40 (fs (snd s')) path = true.
Proof.
  destruct s as [env w]. unfold download, http_Get, os.Create. run_M.
  destruct (server w url) as [status|]; [|discriminate].
  destruct (status =? 200); [|destruct (status =? 404); discriminate].
  run_M. cbn [fs].
  destruct (fs w !! path) as [[| l |target]|] eqn:E; run_M; try discriminate.
  - intros [= <-]. cbn [fst snd fs]. split; [reflexivity|].
    cbn [os.resolve]. rewrite lookup_insert_eq. reflexivity.
  - destruct (fs w !! os.follow path target) as [[| l |t2]|] eqn:Et; run_M;
      try discriminate;
      intros [= <-]; cbn [fst snd fs]; (split; [reflexivity|]);
      assert (os.follow path target <> path) as Hne by congruence;
      cbn [os.resolve]; rewrite lookup_insert_ne, E, lookup_insert_eq by exact Hne;
      reflexivity.
  - intros [= <-]. cbn [fst snd fs]. split; [reflexivity|].
    cbn [os.resolve]. rewrite lookup_insert_eq. reflexivity.
Qed.

Lemma Mkdir_Ok_state msg path s s' :
  wrap msg (os.Mkdir path) s = (Ok tt, s') ->
  fs (snd s) !! path = None /\
  s' = (fst s, with_fs (<[path := Dir]> (fs (snd s))) (snd s)).
Proof.
  destruct s as [env w]. unfold os.Mkdir, os.exists_at. run_M.
  destruct (fs w !! path) eqn:E; run_M; [discriminate|].
  intros [= <-]. split; reflexivity.
Qed.

Lemma Stat_inv path s b s' :
  os.Stat path s = (Ok b, s') -> s' = s /\ b = os.resolve 40 (fs (snd s)) path.
Proof.
  unfold os.Stat, bind, get_world, ret. cbn [fst snd]. intros H. split; congruence.
Qed.

Lemma getExtractor_pure path s e s' :
  getExtractor path s = (Ok e, s') -> forall s0, getExtractor path s0 = (Ok e, s0).
Proof.
  unfold getExtractor.
  repeat match goal with
         | |- context [if HasSuffix ?p ?x then _ else _] => destruct (HasSuffix p x)
         end; unfold ret, fail; intros [= <- _] s0; try reflexivity.
Qed.

Section InstallAgain.
Variables GOOS GOARCH : string.

Lemma FindRelease_Ok v s rel s1 :
  FindRelease GOOS GOARCH v s = (Ok rel, s1) ->
  find_release (releases (fst s1)) v = Some rel.
Proof.
  unfold FindRelease. intros H.
  apply bind_Ok_inv in H as (u & s2 & _ & H).
  apply bind_Ok_inv in H as (env & s3 & [= <- <-] & H).
  destruct (find_release (releases (fst s2)) v) eqn:E; [|discriminate].
  injection H as <- <-. exact E.
Qed.

(** X21. Install is not repeatable on the same Env: after a successful
    Install(v), a second Install(v) fails with "install target directory
    already exists" (the registry does not know v, so the guard "already
    installed" does not fire), sends no request and changes nothing. *)
Theorem Install_again (v : Version) (s s' : State) :
  Install GOOS GOARCH v s = (Ok tt, s') ->
  Install GOOS GOARCH v s' =
    (Err (ErrorNew "install target directory already exists"), s').
Proof.
  intros Hrun. destruct (Install_Ok_dir GOOS GOARCH v s s' Hrun) as [Hnone Hdir].
  assert (installedVersions (fst s') !! Version_String v = None) as Hnone'.
  { pose proof (Install_registry GOOS GOARCH v s) as Hreg. rewrite Hrun in Hreg.
    cbn [fst snd] in Hreg. rewrite Hreg. exact Hnone. }
  destruct s as [env w]. rewrite Install_found in Hrun.
  case_bool_decide as Hhas; [discriminate|].
  destruct (FindRelease GOOS GOARCH v (env, w)) as [[rel|e] s1] eqn:Hfind; [|discriminate].
  apply FindRelease_Ok in Hfind.
  apply bind_Ok_inv in Hrun as (env1 & s1' & [= <- <-] & Hrun). cbv zeta in Hrun.
  apply bind_Ok_inv in Hrun as (e & s2 & Hext & Hrun).
  pose proof (getExtractor_pure _ _ _ _ Hext) as Hext'.
  rewrite Hext' in Hext. injection Hext as <-.
  apply bind_Ok_inv in Hrun as ([] & s3 & Hmk & Hrun).
  pose proof (steady_wrap "failed to create cache directory" _
                (steady_MkdirAll (cacheDir (fst s1))) s1) as Hk3.
  rewrite Hmk in Hk3. cbn [snd] in Hk3.
  apply MkdirAll_Ok in Hmk as [Henv3 Hcache].
  apply bind_Ok_inv in Hrun as (cached & s4 & Hstat & Hrun).
  apply Stat_inv in Hstat as [-> ->].
  apply bind_Ok_inv in Hrun as ([] & s5 & Hdl & Hrun).
  assert (fst s5 = fst s3 /\
          os.resolve 40 (fs (snd s5))
            (path_Join (cacheDir (fst s1)) (Release.Filename rel)) = true /\
          keeps_dirs s3 s5) as (Henv5 & Hcp & Hk5).
  { destruct (os.resolve 40 (fs (snd s3))
                (path_Join (cacheDir (fst s1)) (Release.Filename rel))) eqn:Hres;
      cbn [negb] in Hdl.
    - unfold ret in Hdl. assert (s5 = s3) as -> by congruence.
      split; [reflexivity|]. split; [exact Hres|apply keeps_dirs_refl].
    - pose proof (steady_download (downloadBaseURL ++ Release.Filename rel)
                    (path_Join (cacheDir (fst s1)) (Release.Filename rel)) s3) as Hk.
      rewrite Hdl in Hk. apply download_Ok in Hdl as [? ?]. auto. }
  apply bind_Ok_inv in Hrun as (present & s6 & Hstat & Hrun).
  apply Stat_inv in Hstat as [-> ->].
  destruct (os.resolve 40 (fs (snd s5)) (versionGoRoot (fst s1) v)) eqn:Hgo;
    [discriminate|].
  apply bind_Ok_inv in Hrun as ([] & s7 & Hmkdir & Hrun).
  apply Mkdir_Ok_state in Hmkdir as [Hnew ->].
  apply bind_Ok_inv in Hrun as (u & s8 & Hextract & Hrun).
  assert (s8 = (fst s5, with_fs (<[versionGoRoot (fst s1) v := Dir]> (fs (snd s5)))
                          (snd s5))) as ->
    by (unfold extract, ret in Hextract; congruence).
  set (s7 := (fst s5, with_fs (<[versionGoRoot (fst s1) v := Dir]> (fs (snd s5))) (snd s5)))
    in *.
  assert (os.resolve 40 (fs (snd s7))
            (path_Join (cacheDir (fst s1)) (Release.Filename rel)) = true) as Hcp7
    by (apply resolve_insert_new; assumption).
  assert (fs (snd s7) !! cacheDir (fst s1) = Some Dir) as Hcache7.
  { unfold s7, with_fs. cbn [snd fs].
    destruct Hk5 as (_ & _ & _ & Hdirs).
    rewrite lookup_insert_ne; [apply Hdirs, Hcache|]. intros E.
    rewrite E, (Hdirs _ Hcache) in Hnew. discriminate. }
  assert (fst s' = fst s1 /\
          fs (snd s') !! cacheDir (fst s1) = Some Dir /\
          os.resolve 40 (fs (snd s'))
            (path_Join (cacheDir (fst s1)) (Release.Filename rel)) = true)
    as (Henv' & Hcache' & Hcp').
  { destruct (fixBrokenLink_cases s7) as [Hfix | (m & _ & Hres & Hfix)];
      rewrite Hfix in Hrun; injection Hrun as <-.
    - split; [unfold s7; cbn [fst]; congruence|]. auto.
    - cbn [fst snd]. split; [unfold s7; cbn [fst]; congruence|].
      unfold with_fs. cbn [fs]. split.
      + rewrite lookup_insert_ne; [exact Hcache7|]. intros E.
        unfold link_resolves in Hres. change 40%nat with (S 39) in Hres.
        rewrite resolve_S in Hres.
        change (linkPath (fst s7)) with (linkPath (fst s5)) in Hres.
        rewrite E, Hcache7 in Hres. discriminate.
      + apply resolve_insert_unresolved; [lia|exact Hres|exact Hcp7]. }
  destruct s' as [env' w']. cbn [fst snd] in *. subst env'.
  rewrite Install_found. rewrite bool_decide_eq_false_2
    by (rewrite Hnone'; intros [? ?]; discriminate).
  assert (releases (fst s1) <> []) as Hne by (intros E; rewrite E in Hfind; discriminate).
  destruct s1 as [env1 w1]. cbn [fst snd] in *.
  rewrite (FindRelease_loaded GOOS GOARCH v env1 w' Hne), Hfind.
  unfold bind at 1. unfold get_env at 1. cbn [fst snd].
  unfold bind at 1. rewrite Hext'.
  unfold bind at 1. unfold wrap at 1, os.MkdirAll. run_M. rewrite Hcache'. run_M.
  unfold os.Stat. run_M. rewrite Hcp'. cbn [negb]. run_M.
  change 40%nat with (S 39). rewrite resolve_S, Hdir. reflexivity.
Qed.

End InstallAgain.

Lemma Install_again_witness :
  Install "linux" "amd64" (mkVersion Stable 1 15 2 0)
    (snd (Install "linux" "amd64" (mkVersion Stable 1 15 2 0) fresh_state))
  = (Err (ErrorNew "install target directory already exists"),
     snd (Install "linux" "amd64" (mkVersion Stable 1 15 2 0) fresh_state)).
Proof.
  apply (Install_again "linux" "amd64" (mkVersion Stable 1 15 2 0) fresh_state).
  vm_compute. reflexivity.
Defined.

(* ===================================================================== *)
(** ** Entry names of an archive *)
(* ===================================================================== *)

Section ExtractorFacts.
Variable Separator : ascii.

Lemma after_separator_suffix path rest :
  after_separator Separator path = Some rest -> exists pre, path = pre ++ rest.
Proof.
  induction path as [|c path IH]; cbn [after_separator]; [discriminate|].
  destruct (Ascii.eqb c Separator).
  - intros [= <-]. exists (String c ""). reflexivity.
  - intros H. destruct (IH H) as [pre ->]. exists (String c pre). reflexivity.
Qed.

Lemma strip_loop_suffix n : forall path,
  exists pre, path = pre ++ strip_loop Separator n path.
Proof.
  induction n as [|n IH]; intros path; cbn [strip_loop].
  - exists "". reflexivity.
  - destruct (after_separator Separator path) as [rest|] eqn:E.
    + apply after_separator_suffix in E as [pre1 ->].
      destruct (IH rest) as [pre2 Hpre]. exists (pre1 ++ pre2).
      rewrite append_assoc, <- Hpre. reflexivity.
    + exists path. rewrite append_empty_r. reflexivity.
Qed.

Lemma after_separator_component top rest :
  one_component Separator top = true ->
  after_separator Separator (top ++ String Separator rest) = Some rest.
Proof.
  induction top as [|c top IH]; cbn [one_component].
  - intros _. rewrite append_empty_l. cbn [after_separator].
    rewrite Ascii.eqb_refl. reflexivity.
  - intros H. apply andb_true_iff in H as [Hc Htop].
    rewrite append_String. cbn [after_separator].
    apply negb_true_iff in Hc. rewrite Hc. apply IH, Htop.
Qed.

Lemma after_separator_none top :
  one_component Separator top = true -> after_separator Separator top = None.
Proof.
  induction top as [|c top IH]; cbn [one_component after_separator]; [reflexivity|].
  intros H. apply andb_true_iff in H as [Hc Htop].
  apply negb_true_iff in Hc. rewrite Hc. apply IH, Htop.
Qed.

(** X22. stripPath panics on the empty name and otherwise returns a suffix
    of the name it is given: it cuts leading components off and never
    rewrites what remains (a ".." component in the rest stays). *)
Theorem stripPath_suffix (path : string) (strip : Z) :
  (path = "" -> stripPath Separator path strip = None) /\
  (path <> "" ->
   exists pre r, stripPath Separator path strip = Some r /\ path = pre ++ r).
Proof.
  split; [intros ->; reflexivity|]. intros Hne.
  destruct path as [|c rest]; [congruence|]. cbn [stripPath]. cbv zeta.
  destruct (Ascii.eqb c Separator).
  - destruct (strip_loop_suffix (Z.to_nat strip) rest) as [pre Hpre].
    exists (String c pre). eexists. split; [reflexivity|].
    rewrite append_String, <- Hpre. reflexivity.
  - destruct (strip_loop_suffix (Z.to_nat strip) (String c rest)) as [pre Hpre].
    exists pre. eexists. split; [reflexivity|exact Hpre].
Qed.

(** X23. With strip = 1, as the extractors call it: a name made of a
    non-empty first component, a separator and a rest gives the rest, with or
    without a separator in front of the name; a name of one component gives
    the empty string, the sign for the extractors to skip the entry. *)
Theorem stripPath_first_component (top rest : string) :
  top <> "" -> one_component Separator top = true ->
  stripPath Separator (top ++ String Separator rest) 1 = Some rest /\
  stripPath Separator (String Separator (top ++ String Separator rest)) 1 = Some rest /\
  stripPath Separator top 1 = Some "" /\
  stripPath Separator (String Separator top) 1 = Some "".
Proof.
  intros Hne Htop. destruct top as [|c top]; [congruence|].
  pose proof Htop as Htop'. cbn [one_component] in Htop'.
  apply andb_true_iff in Htop' as [Hc _]. apply negb_true_iff in Hc.
  pose proof (after_separator_component (String c top) rest Htop) as Hrest.
  pose proof (after_separator_none (String c top) Htop) as Hnone.
  rewrite append_String in Hrest.
  repeat split; rewrite ?append_String; unfold stripPath;
    rewrite ?Ascii.eqb_refl, ?Hc; change (Z.to_nat 1) with 1%nat; cbn [strip_loop];
    rewrite ?Hrest, ?Hnone; reflexivity.
Qed.

End ExtractorFacts.

Lemma stripPath_suffix_witness :
  exists pre r, stripPath "/" "go/../../etc/passwd" 1 = Some r /\
                "go/../../etc/passwd" = pre ++ r.
Proof. apply (stripPath_suffix "/" "go/../../etc/passwd" 1). discriminate. Defined.

Lemma stripPath_first_component_witness :
  stripPath "/" ("go" ++ String "/" "bin/gofmt") 1 = Some "bin/gofmt".
Proof. apply (stripPath_first_component "/" "go" "bin/gofmt"); [discriminate|reflexivity]. Defined.

(* ===================================================================== *)
(** ** The commands on what they complete *)
(* ===================================================================== *)

Lemma HasVersion_registered v env w u :
  installedVersions env !! Version_String v = Some u ->
  HasVersion v (env, w) = (Ok true, (env, w)).
Proof.
  intros H. rewrite HasVersion_spec, bool_decide_eq_true_2; [reflexivity|eauto].
Qed.

(** The completion candidates of [use] and [uninstall]: the keys of the
    registry that start with what is typed. *)
Lemma registry_completions env w toComplete :
  canonical_registry env ->
  exists cs,
    (do versions <- InstalledVersions;
     ret (map Version_String
            (List.filter (fun version => HasPrefix (Version_String version) toComplete)
                         versions))) (env, w) = (Ok cs, (env, w)) /\
    forall c, In c cs <->
      HasPrefix c toComplete = true /\ is_Some (installedVersions env !! c).
Proof.
  intros Hcanon. unfold InstalledVersions. run_M. eexists. split; [reflexivity|].
  intros c. rewrite in_map_iff. split.
  - intros (u & <- & Hu). apply filter_In in Hu as [Hu Hpre]. split; [exact Hpre|].
    apply sort_Slice_In, in_map_iff in Hu as ([k u'] & <- & Hin).
    apply list_elem_of_In, elem_of_map_to_list in Hin.
    destruct (Hcanon k u' Hin) as [-> _]. eauto.
  - intros [Hpre [u Hu]]. destruct (Hcanon c u Hu) as [-> _].
    exists u. split; [reflexivity|]. apply filter_In. split; [|exact Hpre].
    apply sort_Slice_In, in_map_iff. exists (Version_String u, u).
    split; [reflexivity|]. apply list_elem_of_In, elem_of_map_to_list. exact Hu.
Qed.

Example two_installed_canonical : canonical_registry (sample_env two_installed []).
Proof.
  intros k u Hk. unfold sample_env, two_installed in Hk. cbn [installedVersions] in Hk.
  apply lookup_insert_Some in Hk as [[<- <-] | [_ Hk]]; [split; reflexivity|].
  apply lookup_singleton_Some in Hk as [<- <-]. split; reflexivity.
Qed.

(** X24. On a registry as start-up builds it, every version that the use
    command offers as a completion is refused by the command itself:
    running it with that text fails with "specified version is not
    installed" and changes nothing. *)
Theorem use_completions_refused (s : State) (toComplete : string) :
  canonical_registry (fst s) ->
  exists cs,
    use.ValidArgsFunction [] toComplete s = (Ok cs, s) /\
    (forall c, In c cs <->
       HasPrefix c toComplete = true /\ is_Some (installedVersions (fst s) !! c)) /\
    forall c, In c cs ->
      use.RunE [c] s = (Err (ErrorNew "specified version is not installed"), s).
Proof.
  destruct s as [env w]. cbn [fst]. intros Hcanon.
  destruct (registry_completions env w toComplete Hcanon) as (cs & Hrun & Hcs).
  exists cs. split; [exact Hrun|]. split; [exact Hcs|].
  intros c Hc. apply Hcs in Hc as [_ [u Hu]].
  destruct (Hcanon c u Hu) as [-> Hparse].
  unfold use.RunE. rewrite Hparse, Switch_unfold.
  rewrite bool_decide_eq_true_2; [reflexivity|eauto].
Qed.

Lemma use_completions_refused_witness :
  exists cs,
    use.ValidArgsFunction [] "1.1" (sample_env two_installed [], sample_world two_on_disk)
      = (Ok cs, (sample_env two_installed [], sample_world two_on_disk)) /\
    (In "1.16" cs) /\
    use.RunE ["1.16"] (sample_env two_installed [], sample_world two_on_disk)
      = (Err (ErrorNew "specified version is not installed"),
         (sample_env two_installed [], sample_world two_on_disk)).
Proof.
  destruct (use_completions_refused
              (sample_env two_installed [], sample_world two_on_disk) "1.1")
    as (cs & Hrun & Hcs & Hrefused).
  - apply two_installed_canonical.
  - assert (In "1.16" cs) as Hin by (apply Hcs; split; [reflexivity|vm_compute; eauto]).
    exists cs. split; [exact Hrun|]. split; [exact Hin|]. apply Hrefused, Hin.
Defined.

(** X25. On such a registry, every version that the uninstall command
    offers as a completion is uninstalled by the command: it returns nil,
    the entry is gone from the registry, the registry is still as start-up
    builds it, and the text is not offered again. *)
Theorem uninstall_completions_removed (s : State) (toComplete : string) :
  canonical_registry (fst s) ->
  exists cs,
    uninstall.ValidArgsFunction [] toComplete s = (Ok cs, s) /\
    (forall c, In c cs <->
       HasPrefix c toComplete = true /\ is_Some (installedVersions (fst s) !! c)) /\
    forall c, In c cs ->
      exists s',
        uninstall.RunE [c] s = (Ok tt, s') /\
        installedVersions (fst s') = delete c (installedVersions (fst s)) /\
        canonical_registry (fst s') /\
        forall t cs', uninstall.ValidArgsFunction [] t s' = (Ok cs', s') -> ~ In c cs'.
Proof.
  destruct s as [env w]. cbn [fst]. intros Hcanon.
  destruct (registry_completions env w toComplete Hcanon) as (cs & Hrun & Hcs).
  exists cs. split; [exact Hrun|]. split; [exact Hcs|].
  intros c Hc. apply Hcs in Hc as [_ [u Hu]].
  destruct (Hcanon c u Hu) as [-> Hparse].
  unfold uninstall.RunE. rewrite Hparse.
  destruct (Uninstall_registered u (env, w)) as (s' & Hun & Henv & _);
    [cbn [fst]; eauto|].
  exists s'. split; [exact Hun|]. cbn [fst] in Henv.
  assert (installedVersions (fst s') =
          delete (Version_String u) (installedVersions env)) as Hreg
    by (rewrite Henv; reflexivity).
  split; [exact Hreg|].
  assert (canonical_registry (fst s')) as Hcanon'.
  { intros k x Hk. rewrite Hreg in Hk. apply lookup_delete_Some in Hk as [_ Hk].
    apply Hcanon, Hk. }
  split; [exact Hcanon'|].
  intros t cs' Hrun' Hin. destruct s' as [env' w']. cbn [fst] in *.
  destruct (registry_completions env' w' t Hcanon') as (cs2 & Hrun2 & Hcs2).
  unfold uninstall.ValidArgsFunction in Hrun'. rewrite Hrun2 in Hrun'.
  injection Hrun' as <-. apply Hcs2 in Hin as [_ [x Hx]].
  rewrite Hreg, lookup_delete_eq in Hx. discriminate.
Qed.

Lemma uninstall_completions_removed_witness :
  exists cs s',
    uninstall.ValidArgsFunction [] "1.15"
      (sample_env two_installed [], sample_world two_on_disk)
      = (Ok cs, (sample_env two_installed [], sample_world two_on_disk)) /\
    In "1.15" cs /\
    uninstall.RunE ["1.15"] (sample_env two_installed [], sample_world two_on_disk)
      = (Ok tt, s') /\
    installedVersions (fst s') = delete "1.15" two_installed.
Proof.
  destruct (uninstall_completions_removed
              (sample_env two_installed [], sample_world two_on_disk) "1.15")
    as (cs & Hrun & Hcs & Hall).
  - apply two_installed_canonical.
  - assert (In "1.15" cs) as Hin by (apply Hcs; split; [reflexivity|vm_compute; eauto]).
    destruct (Hall "1.15" Hin) as (s' & Hun & Hreg & _).
    exists cs, s'. auto.
Defined.

Section InstallCommand.
Variables GOOS GOARCH : string.
Variable formatBytes : Z -> string.

(** X26. On a new Env (no catalog in memory yet), every version that the
    install command offers as a completion is a text that the command
    accepts and that names a release of the catalog: the text parses to a
    version whose canonical text it is, FindRelease finds a release with
    exactly that version, and the command runs Install on it. *)
Theorem install_completions_found (s s1 : State) (toComplete : string)
    (cs : list string) (verbose : bool) :
  releases (fst s) = [] ->
  install.ValidArgsFunction GOOS GOARCH false [] toComplete s = (Ok cs, s1) ->
  forall c, In c cs ->
    exists v rel,
      ParseVersion c = Ok v /\ Version_String v = c /\
      FindRelease GOOS GOARCH v s1 = (Ok rel, s1) /\ Release.Version rel = v /\
      install.RunE GOOS GOARCH formatBytes false false verbose [c] s1 =
        (Install GOOS GOARCH v;; ret (install.Lines [])) s1.
Proof.
  intros Hnil Hrun c Hc. unfold install.ValidArgsFunction in Hrun. unfold bind in Hrun.
  destruct (Releases_cases GOOS GOARCH s)
    as [[e He] | [[Hne _] | (listing & rls & _ & Hconv & Hrel)]];
    [rewrite He in Hrun; discriminate|congruence|].
  rewrite Hrel in Hrun. injection Hrun as <- <-.
  apply in_map_iff in Hc as (r & <- & Hr). apply filter_In in Hr as [Hr _].
  apply convertReleases_parsed in Hconv. rewrite List.Forall_forall in Hconv.
  pose proof (Hconv r Hr) as Hparsed.
  destruct (find_release_In rls r Hr) as [rel Hfind].
  pose proof (find_release_Some _ _ _ Hfind) as [Hrel_in Heq].
  exists (Release.Version r), rel.
  split; [apply ParseVersion_String, Hparsed|]. split; [reflexivity|]. split.
  - rewrite FindRelease_loaded; cbn [releases set_releases];
      [rewrite Hfind; reflexivity|intros E; rewrite E in Hr; destruct Hr].
  - split.
    + apply (EqualVersion_parsed _ _ (Hconv rel Hrel_in) Hparsed), Heq.
    + unfold install.RunE. cbn [negb andb].
      rewrite (ParseVersion_String _ Hparsed). reflexivity.
Qed.

End InstallCommand.

Lemma install_completions_found_witness :
  let name := path_Join (confDir (sample_env ∅ [])) downloadListFileName in
  let w := sample_world {[ name := File (Some sample_listing) ]} in
  exists v rel,
    ParseVersion "1.15.2" = Ok v /\ Version_String v = "1.15.2" /\
    FindRelease "linux" "amd64" v (sample_env ∅ sample_catalog, w)
      = (Ok rel, (sample_env ∅ sample_catalog, w)) /\
    Release.Version rel = v.
Proof.
  intros name w.
  destruct (install_completions_found "linux" "amd64" (fun _ => "")
              (sample_env ∅ [], w) (sample_env ∅ sample_catalog, w) "1.15"
              ["1.15.1"; "1.15.2"] false eq_refl)
    with (c := "1.15.2") as (v & rel & H1 & H2 & H3 & H4 & _).
  - vm_compute. reflexivity.
  - right; left; reflexivity.
  - exists v, rel. auto.
Defined.
